(** * Fractal explorer: shader, palette builder and tiled exporter

    A shallow embedding of
      - [src/gl/mandelbrot.frag]   (module [Shader]),
      - [src/utils/palette.ts]     (module [Palette]),
      - [src/gl/renderer.ts]: [GLRenderer.exportTiled] (module [Renderer]),
        [getUniformIfExists] (module [Uniform]), [render], [setSize],
        [withPreview] and [pause] (module [Frame]),
      - [src/components/Sidebar.tsx], [exportImage]   (module [Sidebar]),
      - [src/state/useFractalState.ts] (module [Store]),
      - [src/utils/urlState.ts], [parseUrlState] (module [UrlState]),
      - [src/components/CanvasView.tsx], the pointer and wheel handlers
        (module [CanvasView]).

    Numbers.  GLSL [float] and JavaScript [number] values are modelled by
    the real numbers of the Standard Library, so the arithmetic of the
    model is exact; the built-in functions ([cos], [sin], [atan], [pow],
    [log], [exp], [sqrt]) are the mathematical ones.  GLSL [int] values are
    integers ([Z]); loop counters that only count upwards from zero are
    natural numbers.  Where the source can produce or receive a NaN that
    a statement depends on (the palette builder at [size = 1], the
    setters of the store) the NaN is tracked explicitly.  A quotient with
    divisor 0 and the logarithm of a number that is not positive, both
    undefined in GLSL, are 0 in the model, as they are for the reals of
    the Standard Library; the coordinate mapper also comes in an
    instrumented form that records a zero divisor. *)

From Stdlib Require Import Reals Lra Lia ZArith List String Ascii Bool Arith.
Import ListNotations.

Local Open Scope R_scope.

(* ================================================================== *)
(** * GLSL built-ins used by the shader *)
(* ================================================================== *)

Module GLSL.

Definition vec2 : Type := (R * R)%type.
Definition vec3 : Type := (R * R * R)%type.
Definition vec4 : Type := (R * R * R * R)%type.

(** [max(x, y)]: "returns y if x < y, otherwise x". *)
Definition max (x y : R) : R := if Rlt_dec x y then y else x.

(** [min(x, y)]: "returns y if y < x, otherwise x". *)
Definition min (x y : R) : R := if Rlt_dec y x then y else x.

(** [clamp(x, lo, hi) = min(max(x, lo), hi)]. *)
Definition clamp (x lo hi : R) : R := min (max x lo) hi.

Definition abs (x : R) : R := Rabs x.

(** [floor] and [fract(x) = x - floor(x)]. *)
Definition floor (x : R) : R := IZR (Int_part x).
Definition fract (x : R) : R := x - floor x.

(** [mix(x, y, a) = x * (1 - a) + y * a]. *)
Definition mix (x y a : R) : R := x * (1 - a) + y * a.

Definition dot (a b : vec2) : R := fst a * fst b + snd a * snd b.

(** [length(v) = sqrt(v.x^2 + v.y^2)]. *)
Definition length (v : vec2) : R := sqrt (dot v v).

(** Two-argument [atan(y, x)]: the angle of the point [(x, y)], in
    (-PI, PI].  GLSL leaves [atan(0, 0)] undefined; the model takes 0. *)
Definition atan2 (y x : R) : R :=
  if Rlt_dec 0 x then atan (y / x)
  else if Rlt_dec x 0 then
    (if Rlt_dec y 0 then atan (y / x) - PI else atan (y / x) + PI)
  else if Rlt_dec 0 y then PI / 2
  else if Rlt_dec y 0 then - (PI / 2)
  else 0.

(** [pow(x, y)]: [x] to the power [y]; GLSL defines it for [x > 0] and for
    [x = 0] with [y > 0], where it is 0. *)
Definition pow (x y : R) : R :=
  if Req_dec_T x 0 then 0 else Rpower x y.

(** [log(x)], the natural logarithm; GLSL leaves it undefined for
    [x <= 0], where [ln] is 0. *)
Definition log (x : R) : R := ln x.

Definition map3 (f : R -> R) (v : vec3) : vec3 :=
  let '(a, b, c) := v in (f a, f b, f c).

End GLSL.

(* ================================================================== *)
(** * The fragment shader, [src/gl/mandelbrot.frag] *)
(* ================================================================== *)

Module Shader.
Import GLSL.

(** The shader's uniforms (lines 5-22).  [u_palette] is the bound texture,
    seen through [texture(u_palette, uv)]. *)
Record Uniforms := {
  u_center : vec2;
  u_scale : R;
  u_viewSize : vec2;
  u_tileOffset : vec2;
  u_maxIter : Z;
  u_power : R;
  u_bailout : R;
  u_type : Z;
  u_juliaC : vec2;
  u_palette : vec2 -> vec4;
  u_paletteSize : R;
  u_paletteLength : R;
  u_paletteCycle : R;
  u_adjust : vec4;
  u_hue : R;
  u_edgeGlow : R;
  u_interiorSolid : Z;
  u_scaleMode : Z
}.

(** [hsv2rgb] (lines 25-29). *)
Definition hsv2rgb (c : vec3) : vec3 :=
  let '(cx, cy, cz) := c in
  let Kx := 1 in let Ky := 2 / 3 in let Kz := 1 / 3 in let Kw := 3 in
  let p := map3 (fun k => abs (fract (cx + k) * 6 - Kw)) (Kx, Ky, Kz) in
  map3 (fun pk => cz * mix Kx (clamp (pk - Kx) 0 1) cy) p.

(** [adjust_color] (lines 31-56). *)
Definition adjust_color (u : Uniforms) (color : vec3) : vec3 :=
  let '(ax, ay, az, aw) := u_adjust u in
  let brightness := ax in
  let contrast := ay in
  let gamma := max (1 / 10) az in
  let saturation := aw in
  let color := map3 (fun v => v + brightness) color in
  let color := map3 (fun v => (v - 1 / 2) * (contrast + 1) + 1 / 2) color in
  let color := map3 (fun v => pow (max v 0) (1 / gamma)) color in
  let '(cr, cg, cb) := color in
  let maxc := max (max cr cg) cb in
  let minc := min (min cr cg) cb in
  let l := (maxc + minc) * (1 / 2) in
  let s := (maxc - minc) / (1 - abs (2 * l - 1) + 1 / 1000000) in
  let h :=
    if Req_dec_T maxc minc then 0
    else
      let h :=
        if Req_dec_T maxc cr then (cg - cb) / (maxc - minc)
        else if Req_dec_T maxc cg then 2 + (cb - cr) / (maxc - minc)
        else 4 + (cr - cg) / (maxc - minc) in
      fract (h / 6) in
  let h := fract (h + u_hue u / 360) in
  let rgb := hsv2rgb (h, clamp (s * saturation) 0 1, l) in
  map3 (fun v => clamp v 0 1) rgb.

(** [pixelToComplex] (lines 58-66). *)
Definition pixelToComplex (u : Uniforms) (fragPx : vec2) : vec2 :=
  let px := (fst fragPx + fst (u_tileOffset u),
             snd fragPx + snd (u_tileOffset u)) in
  let aspect := fst (u_viewSize u) / max 1 (snd (u_viewSize u)) in
  let width := u_scale u in
  let height := width / aspect in
  let x := (fst px / fst (u_viewSize u) - 1 / 2) * width + fst (u_center u) in
  let y := (snd px / snd (u_viewSize u) - 1 / 2) * height + snd (u_center u) in
  (x, y).

(** The same function with every division instrumented: [None] records
    that some divisor was zero. *)
Definition checked_div (a b : R) : option R :=
  if Req_dec_T b 0 then None else Some (a / b).

Definition pixelToComplex_checked (u : Uniforms) (fragPx : vec2)
  : option vec2 :=
  let px := (fst fragPx + fst (u_tileOffset u),
             snd fragPx + snd (u_tileOffset u)) in
  match checked_div (fst (u_viewSize u)) (max 1 (snd (u_viewSize u))) with
  | None => None
  | Some aspect =>
    let width := u_scale u in
    match checked_div width aspect with
    | None => None
    | Some height =>
      match checked_div (fst px) (fst (u_viewSize u)) with
      | None => None
      | Some qx =>
        let x := (qx - 1 / 2) * width + fst (u_center u) in
        match checked_div (snd px) (snd (u_viewSize u)) with
        | None => None
        | Some qy =>
          let y := (qy - 1 / 2) * height + snd (u_center u) in
          Some (x, y)
        end
      end
    end
  end.

(** One pass through the loop body, lines 83-91: the burning-ship
    reflection, then [z^power + c] in polar form. *)
Definition step (type : Z) (power : R) (c z : vec2) : vec2 :=
  let z := if (type =? 2)%Z then (abs (fst z), abs (snd z)) else z in
  let r := length z in
  let theta := atan2 (snd z) (fst z) in
  let rP := pow r power in
  let tP := theta * power in
  (rP * cos tP + fst c, rP * sin tP + snd c).

(** The bailout test of line 92. *)
Definition bailed (bailout : R) (z : vec2) : bool :=
  if Rgt_dec (dot z z) (bailout * bailout) then true else false.

(** The loop of lines 81-93,
      [for (i = 0; i < 100000; i++) {
         if (i >= maxIter) break; ...; if (dot(z, z) > ...) break; }].
    [fuel] is the number of times the loop test [i < 100000] can still
    succeed; the result is the value of [(i, z)] after the loop. *)
Fixpoint iterate (maxIter type : Z) (power bailout : R) (c : vec2)
    (fuel i : nat) (z : vec2) : nat * vec2 :=
  match fuel with
  | O => (i, z)
  | S fuel' =>
    if (maxIter <=? Z.of_nat i)%Z then (i, z)
    else
      let z' := step type power c z in
      if bailed bailout z' then (i, z')
      else iterate maxIter type power bailout c fuel' (S i) z'
  end.

Definition loop_cap : nat := Z.to_nat 100000.

(** Lines 72-75: the iteration constant, the start value and the floored
    parameters. *)
Definition init_c (u : Uniforms) (c0 : vec2) : vec2 :=
  if (u_type u =? 1)%Z then u_juliaC u else c0.
Definition init_z (u : Uniforms) (c0 : vec2) : vec2 :=
  if (u_type u =? 1)%Z then c0 else (0, 0).
Definition eff_power (u : Uniforms) : R := max 2 (u_power u).
Definition eff_bailout (u : Uniforms) : R := max 2 (u_bailout u).

(** Lines 72-93: the state [(i, z)] when the loop is left. *)
Definition run (u : Uniforms) (c0 : vec2) : nat * vec2 :=
  iterate (u_maxIter u) (u_type u) (eff_power u) (eff_bailout u)
          (init_c u c0) loop_cap 0 (init_z u c0).

(** The evaluator's result as the specification names it: the branch
    taken at line 96 ([escaped] is the [else] branch), the loop counter and
    the last [z]. *)
Record EvalResult := {
  escaped : bool;
  iterationCount : nat;
  finalZ : vec2
}.

Definition evaluate (u : Uniforms) (c0 : vec2) : EvalResult :=
  let '(i, z) := run u c0 in
  {| escaped := negb (u_maxIter u <=? Z.of_nat i)%Z;
     iterationCount := i;
     finalZ := z |}.

(** Lines 95-108: [None] is the early [return] of the solid interior;
    otherwise the pair [(t, nu)]. *)
Definition escape_time (u : Uniforms) (c0 : vec2) : option (R * R) :=
  let '(i, z) := run u c0 in
  if (u_maxIter u <=? Z.of_nat i)%Z then
    if (u_interiorSolid u =? 1)%Z then None
    else Some (INR i, 0)
  else
    let r := length z in
    let nu := log (log (max r (1 / 1000000))) / log (eff_power u) in
    Some (INR i + 1 - nu, nu).

(** Lines 110-118: scale transform, palette index and palette sample. *)
Definition palette_color (u : Uniforms) (t : R) : vec3 :=
  let tt :=
    if (u_scaleMode u =? 1)%Z then log (1 + t)
    else if (u_scaleMode u =? 2)%Z then sqrt (max t 0)
    else t in
  let idx := tt / max 1 (IZR (u_maxIter u)) * u_paletteLength u
             + u_paletteCycle u in
  let idx := fract idx in
  let '(r, g, b, _) := u_palette u (idx, 1 / 2) in
  (r, g, b).

(** Lines 120-122: the edge glow. *)
Definition edge_glow (u : Uniforms) (nu : R) (color : vec3) : vec3 :=
  let glow := exp (- 3 * abs nu) in
  map3 (fun v => mix v 1 (glow * u_edgeGlow u)) color.

Definition interior_color : vec4 := (2 / 100, 1 / 100, 5 / 100, 1).

(** [main] (lines 68-126): the colour written to [fragColor] for the
    fragment at [gl_FragCoord]. *)
Definition main (u : Uniforms) (gl_FragCoord : vec2) : vec4 :=
  let fragPx := gl_FragCoord in
  let c0 := pixelToComplex u fragPx in
  match escape_time u c0 with
  | None => interior_color
  | Some (t, nu) =>
    let color := palette_color u t in
    let color := edge_glow u nu color in
    let '(r, g, b) := adjust_color u color in
    (r, g, b, 1)
  end.

End Shader.

(* ================================================================== *)
(** * The palette builder, [src/utils/palette.ts] *)
(* ================================================================== *)

Module Palette.

Local Open Scope string_scope.

(** [type Stop = { t: number; rgb: [number, number, number] }].  The colour
    components of every table entry are integer literals. *)
Record Stop := { stop_t : R; stop_rgb : Z * Z * Z }.

Definition mkStop (t : R) (r g b : Z) : Stop :=
  {| stop_t := t; stop_rgb := (r, g, b) |}.

(** The preset tables (lines 7-47), in source order. *)
Definition electric_blue : list Stop :=
  [ mkStop 0 0 7 100; mkStop 0.16 32 107 203; mkStop 0.42 237 255 255;
    mkStop 0.6425 255 170 0; mkStop 0.8575 0 2 0; mkStop 1 0 7 100 ].
Definition classic_blue : list Stop :=
  [ mkStop 0 0 0 0; mkStop 0.25 0 0 64; mkStop 0.5 0 128 255;
    mkStop 0.75 255 255 255; mkStop 1 0 0 0 ].
Definition fire : list Stop :=
  [ mkStop 0 0 0 0; mkStop 0.3 180 20 0; mkStop 0.6 255 220 0;
    mkStop 1 255 255 255 ].
Definition viridis : list Stop :=
  [ mkStop 0 68 1 84; mkStop 0.25 59 82 139; mkStop 0.5 33 145 140;
    mkStop 0.75 94 201 97; mkStop 1 253 231 37 ].
Definition magma : list Stop :=
  [ mkStop 0 0 0 3; mkStop 0.5 251 53 108; mkStop 1 252 253 191 ].
Definition plasma : list Stop :=
  [ mkStop 0 12 7 134; mkStop 0.5 225 77 104; mkStop 1 240 249 33 ].
Definition rainbow : list Stop :=
  [ mkStop 0 148 0 211; mkStop 0.2 75 0 130; mkStop 0.4 0 0 255;
    mkStop 0.6 0 255 0; mkStop 0.8 255 255 0; mkStop 1 255 0 0 ].
Definition grayscale : list Stop :=
  [ mkStop 0 0 0 0; mkStop 1 255 255 255 ].

Definition presets : list (string * list Stop) :=
  [ ("electric-blue", electric_blue); ("classic-blue", classic_blue);
    ("fire", fire); ("viridis", viridis); ("magma", magma);
    ("plasma", plasma); ("rainbow", rainbow); ("grayscale", grayscale) ].

(** [listPalettePresets] (lines 49-51): [Object.keys(presets)]. *)
Definition listPalettePresets : list string := map fst presets.

(** [presets] is an object literal, so [presets[name]] is a property read:
    the object's own properties first, then those it inherits from
    [Object.prototype], and [undefined] when neither has the name. *)
Inductive JSValue :=
| Stops (stops : list Stop)   (* an array of the table *)
| Inherited (name : string)   (* a member of Object.prototype *)
| Undefined.

Definition object_prototype_names : list string :=
  [ "constructor"; "__defineGetter__"; "__defineSetter__"; "hasOwnProperty";
    "__lookupGetter__"; "__lookupSetter__"; "isPrototypeOf";
    "propertyIsEnumerable"; "toString"; "valueOf"; "__proto__";
    "toLocaleString" ].

Fixpoint own_property (name : string) (o : list (string * list Stop))
  : option (list Stop) :=
  match o with
  | [] => None
  | (k, v) :: rest => if String.eqb k name then Some v
                      else own_property name rest
  end.

Definition get_property (o : list (string * list Stop)) (name : string)
  : JSValue :=
  match own_property name o with
  | Some v => Stops v
  | None => if existsb (String.eqb name) object_prototype_names
            then Inherited name else Undefined
  end.

(** [a || b]: arrays, functions and objects are truthy, [undefined] is not. *)
Definition js_or (a b : JSValue) : JSValue :=
  match a with
  | Undefined => b
  | _ => a
  end.

Inductive Interpolation := linear | cosine | perceptual.

(** [PaletteConfig] of [src/state/types.ts]. *)
Record PaletteConfig := {
  preset : string;
  length : R;
  cycle : R;
  reverse : bool;
  interpolation : Interpolation;
  seed : R
}.

(** Lines 53-59. *)
Definition lerp (a b t : R) : R := a + (b - a) * t.
Definition clamp01 (x : R) : R := Rmin 1 (Rmax 0 x).
Definition cosineInterpolate (a b t : R) : R :=
  let ct := (1 - cos (PI * t)) / 2 in
  a * (1 - ct) + b * ct.

(** [Math.round]: the integer nearest to [x], halves rounded up. *)
Definition Math_round (x : R) : Z := Int_part (x + 1 / 2).

(** [Math.pow] on a base that is not negative (the builder only passes
    such bases). *)
Definition Math_pow (x y : R) : R :=
  if Req_dec_T x 0 then 0 else Rpower x y.

(** [interpRGB] (lines 61-71). *)
Definition interpRGB (a b : Z * Z * Z) (t : R) (mode : Interpolation)
  : Z * Z * Z :=
  let '(a0, a1, a2) := a in
  let '(b0, b1, b2) := b in
  let f := match mode with cosine => cosineInterpolate | _ => lerp end in
  match mode with
  | perceptual =>
    let lift := fun v : Z => Math_pow (IZR v / 255) 2.2 in
    let back := fun v : R =>
      Math_round (clamp01 (Math_pow v (1 / 2.2)) * 255) in
    (back (f (lift a0) (lift b0) t),
     back (f (lift a1) (lift b1) t),
     back (f (lift a2) (lift b2) t))
  | _ =>
    (Math_round (f (IZR a0) (IZR b0) t),
     Math_round (f (IZR a1) (IZR b1) t),
     Math_round (f (IZR a2) (IZR b2) t))
  end.

(** [stops.findIndex(p)], counting from [i]; -1 when no element satisfies
    [p]. *)
Fixpoint findIndex_from (p : Stop -> bool) (stops : list Stop) (i : Z) : Z :=
  match stops with
  | [] => (-1)%Z
  | s :: rest => if p s then i else findIndex_from p rest (i + 1)%Z
  end.
Definition findIndex (p : Stop -> bool) (stops : list Stop) : Z :=
  findIndex_from p stops 0%Z.

(** A number that may be NaN ([None]).  The only division of the loop
    whose divisor can vanish is [i / (size - 1)], at [size = 1], where
    [i = 0] and the quotient [0 / 0] is NaN. *)
Definition js_div (a b : R) : option R :=
  if Req_dec_T b 0 then None else Some (a / b).

(** [s.t >= t]; every comparison with NaN is false. *)
Definition ge_num (a : R) (t : option R) : bool :=
  match t with
  | None => false
  | Some t => if Rge_dec a t then true else false
  end.

(** A value stored into a [Uint8Array] is taken modulo 256. *)
Definition to_uint8 (v : Z) : Z := (v mod 256)%Z.

(** Lines 78-79: the position [t] of sample [i] along the gradient. *)
Definition position (cfg : PaletteConfig) (size i : nat) : option R :=
  let t := js_div (INR i) (INR size - 1) in
  if reverse cfg then option_map (fun t => 1 - t) t else t.

(** Lines 80-86: the three numbers [rgb] at the position [t].  [None] is
    the TypeError of reading [.t] of an undefined [s0] (no table of this
    file reaches it). *)
Definition sample_at (stops : list Stop) (mode : Interpolation)
    (t : option R) : option (Z * Z * Z) :=
  let idx := findIndex (fun s => ge_num (stop_t s) t) stops in
  let i1 := Z.max 1 idx in
  match nth_error stops (Z.to_nat (i1 - 1)) with
  | None => None
  | Some s0 =>
    let s1 := match nth_error stops (Z.to_nat i1) with
              | Some s => s
              | None => last stops s0
              end in
    match t with
    | None =>
      (* u, the interpolated channels and their Math.round are all NaN,
         and NaN is stored as 0 *)
      Some (0, 0, 0)%Z
    | Some t =>
      let u := (t - stop_t s0) / Rmax (1 / 1000000) (stop_t s1 - stop_t s0) in
      Some (interpRGB (stop_rgb s0) (stop_rgb s1) (clamp01 u) mode)
    end
  end.

(** The body of the loop, lines 78-86, for sample [i]. *)
Definition sample (stops : list Stop) (cfg : PaletteConfig) (size i : nat)
  : option (Z * Z * Z) :=
  sample_at stops (interpolation cfg) (position cfg size i).

(** The loop of lines 77-92 from sample [i] on, [n] samples to go: the
    bytes written, in order. *)
Fixpoint fill (stops : list Stop) (cfg : PaletteConfig) (size i n : nat)
  : option (list Z) :=
  match n with
  | O => Some []
  | S n' =>
    match sample stops cfg size i with
    | None => None
    | Some (r, g, b) =>
      match fill stops cfg size (S i) n' with
      | None => None
      | Some rest =>
        Some (to_uint8 r :: to_uint8 g :: to_uint8 b :: 255%Z :: rest)
      end
    end
  end.

Inductive Result :=
| Returned (out : list Z)
| TypeError (message : string).

(** [buildPaletteTexture] (lines 73-94). *)
Definition buildPaletteTexture (cfg : PaletteConfig) (size : nat) : Result :=
  let stops := js_or (get_property presets (preset cfg))
                     (get_property presets "electric-blue") in
  match size with
  | O => Returned []
  | S _ =>
    match stops with
    | Stops stops =>
      match fill stops cfg size 0 size with
      | Some out => Returned out
      | None => TypeError "Cannot read properties of undefined (reading 't')"
      end
    | Inherited _ => TypeError "stops.findIndex is not a function"
    | Undefined =>
      TypeError "Cannot read properties of undefined (reading 'findIndex')"
    end
  end.

(** Sample [i] of a returned texture: its four bytes. *)
Definition texel (out : list Z) (i : nat) : list Z :=
  firstn 4 (skipn (4 * i) out).

(** The colours of the first and of the last stop of a gradient, and the
    four bytes of an opaque sample of a colour. *)
Definition first_color (stops : list Stop) : Z * Z * Z :=
  match stops with
  | s :: _ => stop_rgb s
  | [] => (0, 0, 0)%Z
  end.

Definition last_color (stops : list Stop) : Z * Z * Z :=
  stop_rgb (last stops (mkStop 0 0 0 0)).

Definition opaque (c : Z * Z * Z) : list Z :=
  let '(r, g, b) := c in [r; g; b; 255%Z].

Definition byte_rgb (c : Z * Z * Z) : Prop :=
  let '(r, g, b) := c in
  (0 <= r <= 255 /\ 0 <= g <= 255 /\ 0 <= b <= 255)%Z.

(** A gradient as section 4.4 of the specification describes it: a first
    stop at 0, a last stop at 1, the stops between them at positions in
    (0, 0.9] (so that the last bracket is wider than the 1e-6 of line 85),
    and byte-valued colours at both ends. *)
Definition gradient (stops : list Stop) : Prop :=
  exists first mid last,
    stops = first :: mid ++ [last] /\
    stop_t first = 0 /\ stop_t last = 1 /\
    Forall (fun s => 0 < stop_t s <= 9 / 10) mid /\
    byte_rgb (stop_rgb first) /\ byte_rgb (stop_rgb last).

End Palette.

(* ================================================================== *)
(** * Application state, [src/state/types.ts] *)
(* ================================================================== *)

Module State.
Import GLSL.

Inductive FractalType := mandelbrot | julia | burning_ship.
Inductive ScaleMode := scale_linear | scale_log | scale_sqrt.

Record View := { cx : R; cy : R; scale : R }.

Record Adjustments := {
  brightness : R; contrast : R; gamma : R;
  saturation : R; hue : R; edgeGlow : R
}.

(** The fields of [RenderSettings] and of [mapping] that the renderer
    reads. *)
Record RenderSettings := {
  iterations : Z;
  power : R;
  bailout : R;
  fractal : FractalType;
  interiorSolid : bool
}.

Record Mapping := { scaleMode : ScaleMode }.

Record AppState := {
  view : View;
  juliaC : vec2;
  palette : Palette.PaletteConfig;
  adjust : Adjustments;
  mapping : Mapping;
  render : RenderSettings
}.

End State.

(* ================================================================== *)
(** * The tiled exporter, [GLRenderer.exportTiled] of [src/gl/renderer.ts] *)
(* ================================================================== *)

Module Renderer.
Import GLSL State.

Local Open Scope string_scope.

(** The renderer's own state that an export reads: the bound palette
    texture and its size. *)
Record GLRenderer := {
  paletteTex : vec2 -> vec4;
  paletteSize : R
}.

(** A canvas: its size and its pixels, [pixel x y] with [y] counted from
    the top row, as the 2D canvas API addresses them. *)
Record Canvas := {
  width : nat;
  height : nat;
  pixel : nat -> nat -> vec4
}.

(** [document.createElement('canvas')] with its size set: transparent
    black. *)
Definition createCanvas (w h : nat) : Canvas :=
  {| width := w; height := h; pixel := fun _ _ => (0, 0, 0, 0) |}.

(** The options of [exportTiled].  [signal], when present, is the abort
    flag as the export reads it: [aborted k] is the value of
    [opts.signal.aborted] at the read that follows [k] finished tiles.
    A tile size is at least 1. *)
Record ExportOpts := {
  opt_width : nat;
  opt_height : nat;
  opt_tile : option positive;
  opt_signal : option (nat -> bool)
}.

(** Lines 353-370: the uniforms set for the tile [(tx, ty)]. *)
Definition tile_uniforms (r : GLRenderer) (state : AppState)
    (opts : ExportOpts) (tile tx ty : nat) : Shader.Uniforms :=
  {| Shader.u_center := (cx (view state), cy (view state));
     Shader.u_scale := scale (view state);
     Shader.u_viewSize := (INR (opt_width opts), INR (opt_height opts));
     Shader.u_tileOffset := (INR (tx * tile), INR (ty * tile));
     Shader.u_maxIter := iterations (render state);
     Shader.u_power := power (render state);
     Shader.u_bailout := bailout (render state);
     Shader.u_type :=
       match fractal (render state) with
       | julia => 1%Z
       | burning_ship => 2%Z
       | mandelbrot => 0%Z
       end;
     Shader.u_juliaC := juliaC state;
     Shader.u_palette := paletteTex r;
     Shader.u_paletteSize := paletteSize r;
     Shader.u_paletteLength := Rmax 1 (Palette.length (palette state));
     Shader.u_paletteCycle := Palette.cycle (palette state);
     Shader.u_adjust := (brightness (adjust state), contrast (adjust state),
                         gamma (adjust state), saturation (adjust state));
     Shader.u_hue := hue (adjust state);
     Shader.u_edgeGlow := edgeGlow (adjust state);
     Shader.u_interiorSolid := if interiorSolid (render state) then 1%Z
                               else 0%Z;
     Shader.u_scaleMode :=
       match scaleMode (mapping state) with
       | scale_linear => 0%Z
       | scale_log => 1%Z
       | scale_sqrt => 2%Z
       end |}.

(** [gl.drawArrays] on the full-screen quad with the viewport [w] x [h]
    (lines 339-341 and 373): the shader runs once per pixel.  Window
    coordinates have their origin at the lower-left corner and
    [gl_FragCoord] is the pixel centre, so the pixel in column [x] of the
    row [y] from the top of the canvas is the fragment
    [(x + 0.5, (h - 1 - y) + 0.5)].  The convention is the one
    [posToComplex] of [src/components/CanvasView.tsx] relies on ("top of
    canvas is larger imaginary value"). *)
Definition drawArrays (u : Shader.Uniforms) (w h : nat) : Canvas :=
  {| width := w; height := h;
     pixel := fun x y =>
       Shader.main u (INR x + 1 / 2, INR (h - 1 - y) + 1 / 2) |}.

(** [ctx.drawImage(src, 0, 0, w, h, dx, dy, w, h)]: the [w] x [h] block at
    the top-left of [src] lands with its top-left corner at [(dx, dy)].
    The pixels the shader writes are opaque, so they replace what is
    below. *)
Definition drawImage (src : Canvas) (w h dx dy : nat) (dst : Canvas)
  : Canvas :=
  {| width := width dst; height := height dst;
     pixel := fun x y =>
       if ((dx <=? x) && (x <? dx + w) && (dy <=? y) && (y <? dy + h))%nat
       then pixel src (x - dx)%nat (y - dy)%nat
       else pixel dst x y |}.

(** [Math.ceil(a / tile)] for a tile of at least 1. *)
Definition ceil_div (a tile : nat) : nat := ((a + tile - 1) / tile)%nat.

(** The tiles in the order the two nested loops (lines 333-334) visit
    them. *)
Definition tile_order (tilesX tilesY : nat) : list (nat * nat) :=
  flat_map (fun ty => map (fun tx => (tx, ty)) (seq 0 tilesX))
           (seq 0 tilesY).

(** How the promise returned by [exportTiled] settles. *)
Inductive Outcome :=
| Resolved (off : Canvas)
| Rejected (message : string).

(** A run of [exportTiled]: how it settles, and the arguments of the calls
    of [opts.onProgress], in order. *)
Record Run := {
  outcome : Outcome;
  progress : list R
}.

Definition signal_aborted (opts : ExportOpts) (done : nat) : bool :=
  match opt_signal opts with
  | Some aborted => aborted done
  | None => false
  end.

(** Lines 336-377 for the tile [(tx, ty)]: render it and copy it, through
    [tmp], into [off]. *)
Definition export_tile (r : GLRenderer) (state : AppState)
    (opts : ExportOpts) (tile tx ty : nat) (off : Canvas) : Canvas :=
  let w := Nat.min tile (opt_width opts - tx * tile) in
  let h := Nat.min tile (opt_height opts - ty * tile) in
  let prevCanvas := drawArrays (tile_uniforms r state opts tile tx ty) w h in
  let tmp := drawImage prevCanvas w h 0 0 (createCanvas w h) in
  drawImage tmp w h (tx * tile) (ty * tile) off.

(** The two nested loops (lines 333-382), over the tiles still to do. *)
Fixpoint tiles_loop (r : GLRenderer) (state : AppState) (opts : ExportOpts)
    (tile total : nat) (todo : list (nat * nat)) (done : nat)
    (off : Canvas) (log : list R) : Run :=
  match todo with
  | [] => {| outcome := Resolved off; progress := log |}
  | (tx, ty) :: rest =>
    if signal_aborted opts done then
      {| outcome := Rejected "aborted"; progress := log |}
    else
      let off := export_tile r state opts tile tx ty off in
      let done := S done in
      tiles_loop r state opts tile total rest done off
                 (log ++ [INR done / INR total])
  end.

(** Line 318, [opts.tile ?? 512]. *)
Definition tile_size (opts : ExportOpts) : nat :=
  match opt_tile opts with
  | Some t => Pos.to_nat t
  | None => 512%nat
  end.

(** [exportTiled] (lines 317-384). *)
Definition exportTiled (r : GLRenderer) (state : AppState)
    (opts : ExportOpts) : Run :=
  let tile := tile_size opts in
  let off := createCanvas (opt_width opts) (opt_height opts) in
  let tilesX := ceil_div (opt_width opts) tile in
  let tilesY := ceil_div (opt_height opts) tile in
  tiles_loop r state opts tile (tilesX * tilesY)
             (tile_order tilesX tilesY) 0 off [].

(** The flag is never found set. *)
Definition never_aborted (opts : ExportOpts) : Prop :=
  forall k, signal_aborted opts k = false.

(** The colour the export gives to the pixel [(X, Y)] of the canvas, [Y]
    counted from the top: that of the fragment of its tile at its column
    and, within the tile, at its row counted from the bottom of the
    tile. *)
Definition tiled_pixel (r : GLRenderer) (state : AppState)
    (opts : ExportOpts) (tile X Y : nat) : vec4 :=
  let tx := (X / tile)%nat in
  let ty := (Y / tile)%nat in
  let h := Nat.min tile (opt_height opts - ty * tile) in
  Shader.main (tile_uniforms r state opts tile tx ty)
              (INR (X mod tile) + 1 / 2, INR (h - 1 - Y mod tile) + 1 / 2).

End Renderer.

(* ================================================================== *)
(** * The caller, [exportImage] of [src/components/Sidebar.tsx] *)
(* ================================================================== *)

Module Sidebar.
Import Renderer.

Local Open Scope string_scope.

(** What [exportImage] does with the settled promise (lines 34-45). *)
Inductive Effect :=
| Download (cnv : Canvas)          (* the blob is built and saved *)
| ConsoleError (message : string)  (* [console.error(e)] *)
| Silent.                          (* the catch block does nothing *)

Definition exportImage (o : Outcome) : Effect :=
  match o with
  | Resolved cnv => Download cnv
  | Rejected message =>
    if negb (String.eqb message "aborted") then ConsoleError message
    else Silent
  end.

End Sidebar.

(* ================================================================== *)
(** * The orbit of a point, and the specification's evaluator *)
(* ================================================================== *)

Module Orbit.
Import GLSL Shader State.

(** The sequence [z_0, z_1, ...] the loop of [main] walks along: [z_0] is
    the start value and [z_(n+1)] is [z_n] after one pass through the loop
    body. *)
Definition orbit (u : Uniforms) (c0 : vec2) (n : nat) : vec2 :=
  Nat.iter n (step (u_type u) (eff_power u) (init_c u c0)) (init_z u c0).

(** The bailout test succeeds in iteration [k] (counted from 0), that is
    on [z_(k+1)], the value after the power-and-add step of that
    iteration. *)
Definition escapes_at (u : Uniforms) (c0 : vec2) (k : nat) : Prop :=
  dot (orbit u c0 (S k)) (orbit u c0 (S k)) > eff_bailout u * eff_bailout u.

(** No iteration below [n] passes the bailout test. *)
Definition bounded_until (u : Uniforms) (c0 : vec2) (n : nat) : Prop :=
  forall j, (j < n)%nat -> ~ escapes_at u c0 j.

(** The smooth iteration count of the specification (section 4.2, step 3)
    for an escape in iteration [i] with final value [z]. *)
Definition smooth_count (power : R) (i : nat) (z : vec2) : R :=
  INR i + 1 - ln (ln (Rmax (sqrt (fst z * fst z + snd z * snd z))
                           (1 / 1000000))) / ln power.

(** Section 4.2, step 1, in the specification's words: the constant and
    the start value by fractal kind, and the step, which for the burning
    ship reflects [z] into the first quadrant before the power step. *)
Definition spec_c (kind : FractalType) (jc c0 : vec2) : vec2 :=
  match kind with
  | julia => jc
  | mandelbrot | burning_ship => c0
  end.

Definition spec_z0 (kind : FractalType) (c0 : vec2) : vec2 :=
  match kind with
  | julia => c0
  | mandelbrot | burning_ship => (0, 0)
  end.

Definition reflect (z : vec2) : vec2 := (Rabs (fst z), Rabs (snd z)).

Definition power_add (power : R) (c z : vec2) : vec2 :=
  let r := length z in
  let theta := atan2 (snd z) (fst z) in
  (pow r power * cos (power * theta) + fst c,
   pow r power * sin (power * theta) + snd c).

Definition spec_step (kind : FractalType) (power : R) (c z : vec2) : vec2 :=
  match kind with
  | burning_ship => power_add power c (reflect z)
  | mandelbrot | julia => power_add power c z
  end.

Definition spec_orbit (kind : FractalType) (power : R) (jc c0 : vec2)
    (n : nat) : vec2 :=
  Nat.iter n (spec_step kind power (spec_c kind jc c0)) (spec_z0 kind c0).

(** The bailout test on that sequence: it succeeds in iteration [k], that
    is on the value after the power step of iteration [k]. *)
Definition spec_escapes_at (kind : FractalType) (power bailout : R)
    (jc c0 : vec2) (k : nat) : Prop :=
  dot (spec_orbit kind power jc c0 (S k)) (spec_orbit kind power jc c0 (S k))
  > bailout * bailout.

(** The value of [u_type] the renderer sets for a fractal kind
    (renderer.ts, lines 293 and 361). *)
Definition type_code (kind : FractalType) : Z :=
  match kind with
  | julia => 1%Z
  | burning_ship => 2%Z
  | mandelbrot => 0%Z
  end.

(** Uniforms with one field replaced. *)
Definition with_power (p : R) (u : Uniforms) : Uniforms :=
  {| u_center := u_center u; u_scale := u_scale u;
     u_viewSize := u_viewSize u; u_tileOffset := u_tileOffset u;
     u_maxIter := u_maxIter u; u_power := p; u_bailout := u_bailout u;
     u_type := u_type u; u_juliaC := u_juliaC u; u_palette := u_palette u;
     u_paletteSize := u_paletteSize u;
     u_paletteLength := u_paletteLength u;
     u_paletteCycle := u_paletteCycle u; u_adjust := u_adjust u;
     u_hue := u_hue u; u_edgeGlow := u_edgeGlow u;
     u_interiorSolid := u_interiorSolid u; u_scaleMode := u_scaleMode u |}.

Definition with_bailout (b : R) (u : Uniforms) : Uniforms :=
  {| u_center := u_center u; u_scale := u_scale u;
     u_viewSize := u_viewSize u; u_tileOffset := u_tileOffset u;
     u_maxIter := u_maxIter u; u_power := u_power u; u_bailout := b;
     u_type := u_type u; u_juliaC := u_juliaC u; u_palette := u_palette u;
     u_paletteSize := u_paletteSize u;
     u_paletteLength := u_paletteLength u;
     u_paletteCycle := u_paletteCycle u; u_adjust := u_adjust u;
     u_hue := u_hue u; u_edgeGlow := u_edgeGlow u;
     u_interiorSolid := u_interiorSolid u; u_scaleMode := u_scaleMode u |}.

Definition with_maxIter (n : Z) (u : Uniforms) : Uniforms :=
  {| u_center := u_center u; u_scale := u_scale u;
     u_viewSize := u_viewSize u; u_tileOffset := u_tileOffset u;
     u_maxIter := n; u_power := u_power u; u_bailout := u_bailout u;
     u_type := u_type u; u_juliaC := u_juliaC u; u_palette := u_palette u;
     u_paletteSize := u_paletteSize u;
     u_paletteLength := u_paletteLength u;
     u_paletteCycle := u_paletteCycle u; u_adjust := u_adjust u;
     u_hue := u_hue u; u_edgeGlow := u_edgeGlow u;
     u_interiorSolid := u_interiorSolid u; u_scaleMode := u_scaleMode u |}.

Definition with_viewSize (v : vec2) (u : Uniforms) : Uniforms :=
  {| u_center := u_center u; u_scale := u_scale u;
     u_viewSize := v; u_tileOffset := u_tileOffset u;
     u_maxIter := u_maxIter u; u_power := u_power u;
     u_bailout := u_bailout u;
     u_type := u_type u; u_juliaC := u_juliaC u; u_palette := u_palette u;
     u_paletteSize := u_paletteSize u;
     u_paletteLength := u_paletteLength u;
     u_paletteCycle := u_paletteCycle u; u_adjust := u_adjust u;
     u_hue := u_hue u; u_edgeGlow := u_edgeGlow u;
     u_interiorSolid := u_interiorSolid u; u_scaleMode := u_scaleMode u |}.

End Orbit.

(* ================================================================== *)
(** * Concrete inputs used below *)
(* ================================================================== *)

Module Inputs.
Import GLSL Shader State Renderer.

Local Open Scope string_scope.

(** A palette texture that is white everywhere. *)
Definition white_texture : vec2 -> vec4 := fun _ => (1, 1, 1, 1).

(** The default adjustments of [src/state/useFractalState.ts]. *)
Definition default_adjust : Adjustments :=
  {| brightness := 0; contrast := 0; gamma := 1; saturation := 1;
     hue := 0; edgeGlow := 2 / 10 |}.

Definition default_palette : Palette.PaletteConfig :=
  {| Palette.preset := "electric-blue"; Palette.length := 256;
     Palette.cycle := 0; Palette.reverse := false;
     Palette.interpolation := Palette.cosine; Palette.seed := 1 |}.

(** A Mandelbrot view centred at [(center_re, center_im)], [scale] 4, with
    the given iteration budget, power 2 and bailout 2. *)
Definition mandel_state (center_re center_im : R) (budget : Z)
    (solid : bool) : AppState :=
  {| view := {| cx := center_re; cy := center_im; scale := 4 |};
     juliaC := (- 8 / 10, 156 / 1000);
     palette := default_palette;
     adjust := default_adjust;
     mapping := {| scaleMode := scale_linear |};
     render := {| iterations := budget; power := 2; bailout := 2;
                  fractal := mandelbrot; interiorSolid := solid |} |}.

Definition white_renderer : GLRenderer :=
  {| paletteTex := white_texture; paletteSize := 256 |}.

(** A canvas one pixel wide and two pixels high, exported in tiles of the
    given size. *)
Definition opts_1x2 (tile : positive) : ExportOpts :=
  {| opt_width := 1; opt_height := 2; opt_tile := Some tile;
     opt_signal := None |}.

(** A canvas two pixels wide and one pixel high. *)
Definition opts_2x1 (tile : positive) : ExportOpts :=
  {| opt_width := 2; opt_height := 1; opt_tile := Some tile;
     opt_signal := None |}.

(** The uniforms of a 1 x 1 render of [mandel_state 0 0 budget solid]: its
    only fragment, [(0.5, 0.5)], is the point 0. *)
Definition origin_uniforms (budget : Z) (solid : bool) : Uniforms :=
  tile_uniforms white_renderer (mandel_state 0 0 budget solid)
    {| opt_width := 1; opt_height := 1; opt_tile := None;
       opt_signal := None |} 512 0 0.

(** The fire preset, linear, not reversed. *)
Definition fire_linear : Palette.PaletteConfig :=
  {| Palette.preset := "fire"; Palette.length := 256;
     Palette.cycle := 0; Palette.reverse := false;
     Palette.interpolation := Palette.linear; Palette.seed := 1 |}.

(** A preset name that is not in the table. *)
Definition sunset_linear : Palette.PaletteConfig :=
  {| Palette.preset := "sunset"; Palette.length := 256;
     Palette.cycle := 0; Palette.reverse := false;
     Palette.interpolation := Palette.linear; Palette.seed := 1 |}.

(** The view of the seam example: centre [2i], so that the two rows of the
    1 x 2 canvas are the points 0 and [4i]; budget 1, solid interior. *)
Definition seam_state : AppState := mandel_state 0 2 1 true.

(** The same canvas with a signal that is set once [k] tiles are done. *)
Definition opts_abort_after (k : nat) : ExportOpts :=
  {| opt_width := 1; opt_height := 2; opt_tile := Some 1%positive;
     opt_signal := Some (fun done => (k <=? done)%nat) |}.

(** The same 1 x 1 render of a Julia set. *)
Definition julia_state : AppState :=
  {| view := {| cx := 0; cy := 0; scale := 4 |};
     juliaC := (- 8 / 10, 156 / 1000);
     palette := default_palette;
     adjust := default_adjust;
     mapping := {| scaleMode := scale_linear |};
     render := {| iterations := 200; power := 2; bailout := 4;
                  fractal := julia; interiorSolid := true |} |}.

Definition julia_uniforms : Uniforms :=
  tile_uniforms white_renderer julia_state
    {| opt_width := 1; opt_height := 1; opt_tile := None;
       opt_signal := None |} 512 0 0.

(** The same render of the burning ship, with bailout 2. *)
Definition ship_state : AppState :=
  {| view := {| cx := 0; cy := 0; scale := 4 |};
     juliaC := (- 8 / 10, 156 / 1000);
     palette := default_palette;
     adjust := default_adjust;
     mapping := {| scaleMode := scale_linear |};
     render := {| iterations := 200; power := 2; bailout := 2;
                  fractal := burning_ship; interiorSolid := true |} |}.

Definition ship_uniforms : Uniforms :=
  tile_uniforms white_renderer ship_state
    {| opt_width := 1; opt_height := 1; opt_tile := None;
       opt_signal := None |} 512 0 0.

End Inputs.

(* ================================================================== *)
(** * Uniform lookup by name, [getUniformIfExists] of [src/gl/renderer.ts] *)
(* ================================================================== *)

Module Uniform.

Local Open Scope char_scope.

(** The character classes [[a-z]] and [[A-Z]] of the two regular
    expressions, and the case conversions on them.  Uniform names are
    ASCII, so a character is an [ascii]. *)
Definition lower_case (c : ascii) : bool := ("a" <=? c) && (c <=? "z").
Definition upper_case (c : ascii) : bool := ("A" <=? c) && (c <=? "Z").

Definition toUpperCase (c : ascii) : ascii :=
  if lower_case c then ascii_of_nat (nat_of_ascii c - 32) else c.
Definition toLowerCase (c : ascii) : ascii :=
  if upper_case c then ascii_of_nat (nat_of_ascii c + 32) else c.

(** Line 188, [s.replace(/_([a-z])/g, (_, c) => c.toUpperCase())]: the
    matches are found from left to right and do not overlap. *)
Fixpoint toCamel (s : string) : string :=
  match s with
  | EmptyString => EmptyString
  | String c rest =>
    match rest with
    | String d rest' =>
      if (c =? "_") && lower_case d
      then String (toUpperCase d) (toCamel rest')
      else String c (toCamel rest)
    | EmptyString => String c EmptyString
    end
  end.

(** Line 189, [s.replace(/[A-Z]/g, (m) => `_${m.toLowerCase()}`)]. *)
Fixpoint toSnake (s : string) : string :=
  match s with
  | EmptyString => EmptyString
  | String c rest =>
    if upper_case c
    then String "_" (String (toLowerCase c) (toSnake rest))
    else String c (toSnake rest)
  end.

(** [s.includes(c)] for a one-character [c]. *)
Fixpoint includes (s : string) (c : ascii) : bool :=
  match s with
  | EmptyString => false
  | String d rest => (d =? c) || includes rest c
  end.

(** A linked program as the lookup sees it: whether [gl.isProgram] accepts
    it, and its active uniforms by name.  The location of a uniform is
    modelled by its index in the list. *)
Record Program := {
  isProgram : bool;
  activeUniforms : list string
}.

Fixpoint index_of (name : string) (names : list string) (i : nat)
  : option nat :=
  match names with
  | [] => None
  | n :: rest => if String.eqb n name then Some i
                 else index_of name rest (S i)
  end.

(** [gl.getUniformLocation(program, name)]: [null] for a name that is not
    an active uniform. *)
Definition getUniformLocation (program : Program) (name : string)
  : option nat :=
  index_of name (activeUniforms program) 0.

(** [getUniformIfExists] (lines 180-194). *)
Definition getUniformIfExists (program : Program) (name : string)
  : option nat :=
  if negb (isProgram program) then None
  else
    match getUniformLocation program name with
    | Some loc => Some loc
    | None =>
      let alt := if includes name "_" then toCamel name else toSnake name in
      getUniformLocation program alt
    end.

End Uniform.

(* ================================================================== *)
(** * The on-screen frame, [GLRenderer.render] of [src/gl/renderer.ts] *)
(* ================================================================== *)

Module Frame.
Import GLSL State Renderer.

(** What [render] reads from the browser: [window.devicePixelRatio]
    ([None] when it is undefined or NaN) and the CSS size of the canvas. *)
Record Display := {
  devicePixelRatio : option R;
  clientWidth : R;
  clientHeight : R
}.

(** The renderer with the fields [render] reads and writes: the palette
    texture, [previewScale], [paused], and the GL canvas. *)
Record Screen := {
  renderer : GLRenderer;
  previewScale : R;
  paused : bool;
  canvas : Canvas
}.

(** [x || 1] on a number: 0, NaN and [undefined] are falsy. *)
Definition or_one (x : option R) : R :=
  match x with
  | Some v => if Req_dec_T v 0 then 1 else v
  | None => 1
  end.

(** [withPreview] (lines 309-311) and [pause] (lines 313-315). *)
Definition withPreview (on : bool) (s : Screen) : Screen :=
  {| renderer := renderer s;
     previewScale := if on then 1 / 2 else 1;
     paused := paused s;
     canvas := canvas s |}.

Definition pause (p : bool) (s : Screen) : Screen :=
  {| renderer := renderer s;
     previewScale := previewScale s;
     paused := p;
     canvas := canvas s |}.

(** [setSize] (lines 243-250): a canvas whose size changes is cleared. *)
Definition setSize (w h : nat) (s : Screen) : Screen :=
  if negb (width (canvas s) =? w)%nat || negb (height (canvas s) =? h)%nat
  then {| renderer := renderer s;
          previewScale := previewScale s;
          paused := paused s;
          canvas := createCanvas w h |}
  else s.

(** Line 273, and lines 274-275 for one side of the canvas.  [detail] is
    [state.render.detail]. *)
Definition dpr (s : Screen) (d : Display) (detail : R) : R :=
  Rmax 1 (Rmin 3 (or_one (devicePixelRatio d))) * detail * previewScale s.

Definition frame_side (client dpr : R) : nat :=
  Z.to_nat (Int_part (client * dpr)).

(** Lines 286-302: the uniforms of a frame [w] x [h]. *)
Definition frame_uniforms (r : GLRenderer) (state : AppState) (w h : nat)
  : Shader.Uniforms :=
  {| Shader.u_center := (cx (view state), cy (view state));
     Shader.u_scale := scale (view state);
     Shader.u_viewSize := (INR w, INR h);
     Shader.u_tileOffset := (0, 0);
     Shader.u_maxIter := iterations (render state);
     Shader.u_power := power (render state);
     Shader.u_bailout := bailout (render state);
     Shader.u_type :=
       match fractal (render state) with
       | julia => 1%Z
       | burning_ship => 2%Z
       | mandelbrot => 0%Z
       end;
     Shader.u_juliaC := juliaC state;
     Shader.u_palette := paletteTex r;
     Shader.u_paletteSize := paletteSize r;
     Shader.u_paletteLength := Rmax 1 (Palette.length (palette state));
     Shader.u_paletteCycle := Palette.cycle (palette state);
     Shader.u_adjust := (brightness (adjust state), contrast (adjust state),
                         gamma (adjust state), saturation (adjust state));
     Shader.u_hue := hue (adjust state);
     Shader.u_edgeGlow := edgeGlow (adjust state);
     Shader.u_interiorSolid := if interiorSolid (render state) then 1%Z
                               else 0%Z;
     Shader.u_scaleMode :=
       match scaleMode (mapping state) with
       | scale_linear => 0%Z
       | scale_log => 1%Z
       | scale_sqrt => 2%Z
       end |}.

(** [render] (lines 266-307).  The constructor has bound a palette
    texture, so line 278 does nothing. *)
Definition render (s : Screen) (d : Display) (detail : R) (state : AppState)
  : Screen :=
  if paused s then s
  else
    let dpr := dpr s d detail in
    let w := frame_side (clientWidth d) dpr in
    let h := frame_side (clientHeight d) dpr in
    let s := setSize w h s in
    {| renderer := renderer s;
       previewScale := previewScale s;
       paused := paused s;
       canvas := drawArrays (frame_uniforms (renderer s) state w h) w h |}.

End Frame.

(* ================================================================== *)
(** * The store, [src/state/useFractalState.ts] *)
(* ================================================================== *)

(** The text of [useFractalState.ts] follows that of [src/state/types.ts]
    in one file of the source tree; the line numbers below are those of
    that file. *)

Module Store.
Import State.

Local Open Scope string_scope.

(** [Partial<View>], the argument of [setView]. *)
Record ViewPatch := {
  patch_cx : option R;
  patch_cy : option R;
  patch_scale : option R
}.

(** A bookmark, and the part of the store the functions below read and
    write: the state the renderer reads, the two stacks of views and the
    bookmarks, newest first. *)
Record Bookmark := {
  id : string;
  bm_view : View;
  iter : Z;
  pow : R;
  note : option string
}.

Record Store := {
  current : AppState;
  history : list View;
  redo : list View;
  bookmarks : list Bookmark
}.

(** [{ ...prev, ...v }]. *)
Definition merge_view (prev : View) (v : ViewPatch) : View :=
  {| cx := match patch_cx v with Some x => x | None => cx prev end;
     cy := match patch_cy v with Some y => y | None => cy prev end;
     scale := match patch_scale v with Some w => w | None => scale prev end |}.

(** A whole view passed where a [Partial<View>] is expected. *)
Definition whole (v : View) : ViewPatch :=
  {| patch_cx := Some (cx v); patch_cy := Some (cy v);
     patch_scale := Some (scale v) |}.

(** [set({ view: v })] and [set({ render: r })] on the state. *)
Definition with_view (v : View) (a : AppState) : AppState :=
  {| view := v; juliaC := juliaC a; palette := palette a;
     adjust := adjust a; mapping := mapping a; render := render a |}.

Definition with_render (r : RenderSettings) (a : AppState) : AppState :=
  {| view := view a; juliaC := juliaC a; palette := palette a;
     adjust := adjust a; mapping := mapping a; render := r |}.

(** A JavaScript number as a setter receives it: a real number, one of
    the two infinities, or NaN ([parseFloat] of an emptied field, line 83
    of [Sidebar.tsx]). *)
Inductive number := Num (x : R) | PlusInfinity | MinusInfinity | NaN.

(** [Math.max(a, v)] and [Math.min(b, v)] for a literal [a] or [b]: NaN
    when [v] is NaN. *)
Definition Math_max (a : R) (v : number) : number :=
  match v with
  | Num x => Num (Rmax a x)
  | PlusInfinity => PlusInfinity
  | MinusInfinity => Num a
  | NaN => NaN
  end.

Definition Math_min (b : R) (v : number) : number :=
  match v with
  | Num x => Num (Rmin b x)
  | PlusInfinity => Num b
  | MinusInfinity => MinusInfinity
  | NaN => NaN
  end.

(** [Math.floor]: the infinities and NaN are returned as they are. *)
Definition Math_floor (v : number) : number :=
  match v with
  | Num x => Num (IZR (Int_part x))
  | PlusInfinity => PlusInfinity
  | MinusInfinity => MinusInfinity
  | NaN => NaN
  end.

(** Line 76. *)
Definition clamp (v : number) (a b : R) : number :=
  Math_min b (Math_max a v).

(** [setView] (lines 106-112). *)
Definition setView (v : ViewPatch) (pushHist : bool) (s : Store) : Store :=
  let prev := view (current s) in
  let next := merge_view prev v in
  {| current := with_view next (current s);
     history := if pushHist then history s ++ [prev] else history s;
     redo := if pushHist then [] else redo s;
     bookmarks := bookmarks s |}.

(** [setIterations] (line 113) and [setPower] (line 114).  The settings
    of [RenderSettings] are real numbers, so the result is [None] when the
    value the setter stores is not one: it is then NaN, for neither
    infinity comes out of [clamp], and the store holds NaN as its
    iteration count or exponent. *)
Definition setIterations (n : number) (s : Store) : option Store :=
  let r := render (current s) in
  match Math_floor (clamp n 50 20000) with
  | Num v =>
    Some {| current :=
              with_render {| iterations := Int_part v;
                             power := power r; bailout := bailout r;
                             fractal := fractal r;
                             interiorSolid := interiorSolid r |} (current s);
            history := history s;
            redo := redo s;
            bookmarks := bookmarks s |}
  | _ => None
  end.

Definition setPower (p : number) (s : Store) : option Store :=
  let r := render (current s) in
  match clamp p 2 16 with
  | Num v =>
    Some {| current :=
              with_render {| iterations := iterations r;
                             power := v; bailout := bailout r;
                             fractal := fractal r;
                             interiorSolid := interiorSolid r |} (current s);
            history := history s;
            redo := redo s;
            bookmarks := bookmarks s |}
  | _ => None
  end.

(** [setRender({ interiorSolid: b })] (line 118), the call behind the
    "Solid interior" box of the sidebar ([Sidebar.tsx], line 111). *)
Definition setInteriorSolid (b : bool) (s : Store) : Store :=
  let r := render (current s) in
  {| current :=
       with_render {| iterations := iterations r;
                      power := power r; bailout := bailout r;
                      fractal := fractal r;
                      interiorSolid := b |} (current s);
     history := history s;
     redo := redo s;
     bookmarks := bookmarks s |}.

(** [undo] (lines 123-129). *)
Definition undo (s : Store) : Store :=
  match history s with
  | [] => s
  | h :: _ =>
    let prev := last (history s) h in
    {| current := with_view prev (current s);
       history := removelast (history s);
       redo := view (current s) :: redo s;
       bookmarks := bookmarks s |}
  end.

(** [redoPop] (lines 130-136). *)
Definition redoPop (s : Store) : Store :=
  match redo s with
  | [] => s
  | next :: rest =>
    {| current := with_view next (current s);
       history := history s ++ [view (current s)];
       redo := rest;
       bookmarks := bookmarks s |}
  end.

(** [addBookmark] (lines 137-144).  [id] is the identifier line 139 draws
    from the clock and the random generator. *)
Definition addBookmark (id : string) (note : option string) (s : Store)
  : Store :=
  let bm := {| id := id; bm_view := view (current s);
               iter := iterations (render (current s));
               pow := power (render (current s));
               note := note |} in
  {| current := current s;
     history := history s;
     redo := redo s;
     bookmarks := firstn 64 (bm :: bookmarks s) |}.

(** [removeBookmark] (lines 145-149). *)
Definition removeBookmark (id0 : string) (s : Store) : Store :=
  {| current := current s;
     history := history s;
     redo := redo s;
     bookmarks := filter (fun b => negb (String.eqb (id b) id0))
                         (bookmarks s) |}.

(** [loadBookmark] (lines 150-155). *)
Definition loadBookmark (id0 : string) (s : Store) : Store :=
  match find (fun x => String.eqb (id x) id0) (bookmarks s) with
  | None => s
  | Some b =>
    let s := setView (whole (bm_view b)) true s in
    let r := render (current s) in
    {| current :=
         with_render {| iterations := iter b; power := pow b;
                        bailout := bailout r; fractal := fractal r;
                        interiorSolid := interiorSolid r |} (current s);
       history := history s;
       redo := redo s;
       bookmarks := bookmarks s |}
  end.

End Store.

(* ================================================================== *)
(** * State from the URL, [src/utils/urlState.ts], and the first state of
      the store *)
(* ================================================================== *)

Module UrlState.
Import GLSL State.

Local Open Scope string_scope.

(** What [Number(v)] makes of the text of a parameter: a finite number, or
    one of NaN and the infinities. *)
Inductive JSNumber := Finite (x : R) | NotFinite.

(** The query string as [mergeInto] reads it: a key that is absent is
    [None]; a key that is present holds its text or, where the text only
    goes through [Number], the value of [Number] on it.  The keys
    [detail], [prec] and [alg] set fields the renderer does not read. *)
Record Query := {
  q_cx : option JSNumber;
  q_cy : option JSNumber;
  q_scale : option JSNumber;
  q_iter : option JSNumber;
  q_pow : option JSNumber;
  q_bail : option JSNumber;
  q_type : option string;
  q_palette : option string;
  q_cycle : option JSNumber;
  q_rev : option string;
  q_jx : option JSNumber;
  q_jy : option JSNumber
}.

(** The nested objects of an [AppState] that [mergeInto] writes to live
    on a heap and are held by reference; [adjust] and [mapping], which
    nothing writes to, are held by value. *)
Definition ref : Type := nat.

Record Heap := {
  views : ref -> View;
  juliaCs : ref -> vec2;
  palettes : ref -> Palette.PaletteConfig;
  renders : ref -> RenderSettings
}.

Record Object := {
  view_ref : ref;
  juliaC_ref : ref;
  palette_ref : ref;
  render_ref : ref;
  adjust_of : Adjustments;
  mapping_of : Mapping
}.

Definition update {A : Type} (h : ref -> A) (r : ref) (v : A) : ref -> A :=
  fun r' => if (r' =? r)%nat then v else h r'.

(** The state an object stands for in a heap. *)
Definition read (h : Heap) (o : Object) : AppState :=
  {| view := views h (view_ref o);
     juliaC := juliaCs h (juliaC_ref o);
     palette := palettes h (palette_ref o);
     adjust := adjust_of o;
     mapping := mapping_of o;
     render := renders h (render_ref o) |}.

(** [o.view = f(o.view)] and its like, field by field of the nested
    object. *)
Definition write_view (f : View -> View) (o : Object) (h : Heap) : Heap :=
  {| views := update (views h) (view_ref o) (f (views h (view_ref o)));
     juliaCs := juliaCs h; palettes := palettes h; renders := renders h |}.

Definition write_juliaC (f : vec2 -> vec2) (o : Object) (h : Heap) : Heap :=
  {| views := views h;
     juliaCs := update (juliaCs h) (juliaC_ref o)
                       (f (juliaCs h (juliaC_ref o)));
     palettes := palettes h; renders := renders h |}.

Definition write_palette (f : Palette.PaletteConfig -> Palette.PaletteConfig)
    (o : Object) (h : Heap) : Heap :=
  {| views := views h; juliaCs := juliaCs h;
     palettes := update (palettes h) (palette_ref o)
                        (f (palettes h (palette_ref o)));
     renders := renders h |}.

Definition write_render (f : RenderSettings -> RenderSettings)
    (o : Object) (h : Heap) : Heap :=
  {| views := views h; juliaCs := juliaCs h; palettes := palettes h;
     renders := update (renders h) (render_ref o)
                       (f (renders h (render_ref o))) |}.

(** Lines 36-39, [num(k, fallback)]. *)
Definition num (v : option JSNumber) (fallback : R) : R :=
  match v with
  | Some (Finite n) => n
  | Some NotFinite => fallback
  | None => fallback
  end.

(** [if (p.has(k)) write]. *)
Definition when_present {A : Type} (v : option A) (write : Heap -> Heap)
    (h : Heap) : Heap :=
  match v with
  | Some _ => write h
  | None => h
  end.

(** [if (p.has(k)) write(p.get(k))]. *)
Definition when_given {A : Type} (v : option A) (write : A -> Heap -> Heap)
    (h : Heap) : Heap :=
  match v with
  | Some x => write x h
  | None => h
  end.

(** Lines 50-53: the three names of a fractal kind. *)
Definition fractal_of (t : string) (old : FractalType) : FractalType :=
  if String.eqb t "mandelbrot" then mandelbrot
  else if String.eqb t "julia" then julia
  else if String.eqb t "burning-ship" then burning_ship
  else old.

(** [mergeInto] (lines 34-68).  [{ ...defaults }] is a new object with the
    properties of [defaults], which are references: [s] and [defaults]
    share their nested objects, and every assignment below writes to
    one of those. *)
Definition mergeInto (q : Query) (defaults : Object) (h : Heap)
  : Object * Heap :=
  let s := {| view_ref := view_ref defaults;
              juliaC_ref := juliaC_ref defaults;
              palette_ref := palette_ref defaults;
              render_ref := render_ref defaults;
              adjust_of := adjust_of defaults;
              mapping_of := mapping_of defaults |} in
  let h := when_present (q_cx q)
    (write_view (fun v => {| cx := num (q_cx q) (cx v);
                             cy := cy v; scale := scale v |}) s) h in
  let h := when_present (q_cy q)
    (write_view (fun v => {| cx := cx v;
                             cy := num (q_cy q) (cy v);
                             scale := scale v |}) s) h in
  let h := when_present (q_scale q)
    (write_view (fun v => {| cx := cx v; cy := cy v;
                             scale := num (q_scale q) (scale v) |}) s) h in
  let h := when_present (q_iter q)
    (write_render (fun r =>
       {| iterations := Int_part (num (q_iter q) (IZR (iterations r)));
          power := power r; bailout := bailout r; fractal := fractal r;
          interiorSolid := interiorSolid r |}) s) h in
  let h := when_present (q_pow q)
    (write_render (fun r =>
       {| iterations := iterations r;
          power := num (q_pow q) (power r);
          bailout := bailout r; fractal := fractal r;
          interiorSolid := interiorSolid r |}) s) h in
  let h := when_present (q_bail q)
    (write_render (fun r =>
       {| iterations := iterations r; power := power r;
          bailout := num (q_bail q) (bailout r);
          fractal := fractal r;
          interiorSolid := interiorSolid r |}) s) h in
  let h := when_given (q_type q)
    (fun t => write_render (fun r =>
       {| iterations := iterations r; power := power r;
          bailout := bailout r; fractal := fractal_of t (fractal r);
          interiorSolid := interiorSolid r |}) s) h in
  let h := when_given (q_palette q)
    (fun name => write_palette (fun c =>
       {| Palette.preset := name; Palette.length := Palette.length c;
          Palette.cycle := Palette.cycle c;
          Palette.reverse := Palette.reverse c;
          Palette.interpolation := Palette.interpolation c;
          Palette.seed := Palette.seed c |}) s) h in
  let h := when_present (q_cycle q)
    (write_palette (fun c =>
       {| Palette.preset := Palette.preset c;
          Palette.length := Palette.length c;
          Palette.cycle := num (q_cycle q) (Palette.cycle c);
          Palette.reverse := Palette.reverse c;
          Palette.interpolation := Palette.interpolation c;
          Palette.seed := Palette.seed c |}) s) h in
  let h := when_given (q_rev q)
    (fun v => write_palette (fun c =>
       {| Palette.preset := Palette.preset c;
          Palette.length := Palette.length c;
          Palette.cycle := Palette.cycle c;
          Palette.reverse := String.eqb v "1";
          Palette.interpolation := Palette.interpolation c;
          Palette.seed := Palette.seed c |}) s) h in
  let h := when_present (q_jx q)
    (write_juliaC (fun c => (num (q_jx q) (fst c), snd c)) s) h in
  let h := when_present (q_jy q)
    (write_juliaC (fun c => (fst c, num (q_jy q) (snd c))) s) h in
  (s, h).

(** The literal [defaults] of [src/state/useFractalState.ts] (lines
    62-74): the heap when the module has been evaluated, and the object
    the constant is bound to. *)
Definition default_state : AppState :=
  {| view := {| cx := - 3 / 4; cy := 0; scale := 3 |};
     juliaC := (- 8 / 10, 156 / 1000);
     palette := {| Palette.preset := "electric-blue";
                   Palette.length := 256; Palette.cycle := 0;
                   Palette.reverse := false;
                   Palette.interpolation := Palette.cosine;
                   Palette.seed := 1 |};
     adjust := {| brightness := 0; contrast := 0; gamma := 1;
                  saturation := 1; hue := 0; edgeGlow := 2 / 10 |};
     mapping := {| scaleMode := scale_linear |};
     render := {| iterations := 200; power := 2; bailout := 4;
                  fractal := mandelbrot; interiorSolid := true |} |}.

Definition first_heap : Heap :=
  {| views := fun _ => view default_state;
     juliaCs := fun _ => juliaC default_state;
     palettes := fun _ => palette default_state;
     renders := fun _ => render default_state |}.

Definition defaults : Object :=
  {| view_ref := 0%nat; juliaC_ref := 0%nat; palette_ref := 0%nat;
     render_ref := 0%nat;
     adjust_of := adjust default_state;
     mapping_of := mapping default_state |}.

(** The heap after line 98,
    [initial = { ...defaults, ...fromUrl.mergeInto(defaults) }], and the
    first state of the store; [saved] is the bookmark list found in the
    local storage, if any (lines 100-103). *)
Definition loaded_heap (q : Query) : Heap :=
  snd (mergeInto q defaults first_heap).

Definition create (q : Query) (saved : option (list Store.Bookmark))
  : Store.Store :=
  let '(s, h) := mergeInto q defaults first_heap in
  let initial := s in
  {| Store.current := read h initial;
     Store.history := [];
     Store.redo := [];
     Store.bookmarks := match saved with
                        | Some l => l
                        | None => []
                        end |}.

(** [reset] (line 122), [set({ ...defaults, history: [], redo: [] })], in
    the heap [h]: the properties of [defaults] are read as they are when
    [reset] runs. *)
Definition reset (h : Heap) (s : Store.Store) : Store.Store :=
  {| Store.current := read h defaults;
     Store.history := [];
     Store.redo := [];
     Store.bookmarks := [] |}.

End UrlState.

(* ================================================================== *)
(** * Pointer and wheel interactions, [src/components/CanvasView.tsx] *)
(* ================================================================== *)

Module CanvasView.
Import State Store.

(** [canvas.getBoundingClientRect()]. *)
Record DOMRect := {
  rect_left : R;
  rect_top : R;
  rect_width : R;
  rect_height : R
}.

(** Line 7. *)
Definition clamp (v a b : R) : R := Rmin b (Rmax a v).

Record Point := { re : R; im : R; x : R; y : R }.

(** [posToComplex] (lines 85-97); [shown] is the view of the last render
    of the component. *)
Definition posToComplex (rect : DOMRect) (shown : View)
    (clientX clientY : R) : Point :=
  let x := clientX - rect_left rect in
  let y := clientY - rect_top rect in
  let aspect := rect_width rect / Rmax 1 (rect_height rect) in
  let width := scale shown in
  let height := width / aspect in
  let re := (x / rect_width rect - 1 / 2) * width + cx shown in
  let im := cy shown - (y / rect_height rect - 1 / 2) * height in
  {| re := re; im := im; x := x; y := y |}.

(** [dragStart.current], set by [onPointerDown] (lines 105-106). *)
Record DragStart := { start_x : R; start_y : R; start_view : View }.

Definition onPointerDown (rect : DOMRect) (shown : View)
    (clientX clientY : R) : DragStart :=
  let p := posToComplex rect shown clientX clientY in
  {| start_x := x p; start_y := y p; start_view := shown |}.

(** [onPointerMove] (lines 115-133), without the cursor readout:
    [dragStart] is [None] outside a drag, and [boxStart] holds the corner
    of a box selection. *)
Definition onPointerMove (rect : DOMRect) (dragStart : option DragStart)
    (boxStart : option (R * R)) (clientX clientY : R) (s : Store) : Store :=
  match dragStart with
  | None => s
  | Some ds =>
    match boxStart with
    | Some _ => s
    | None =>
      let aspect := rect_width rect / Rmax 1 (rect_height rect) in
      let width := scale (start_view ds) in
      let height := width / aspect in
      let dx := (clientX - rect_left rect - start_x ds)
                / rect_width rect * width in
      let dy := (clientY - rect_top rect - start_y ds)
                / rect_height rect * height in
      setView {| patch_cx := Some (cx (start_view ds) - dx);
                 patch_cy := Some (cy (start_view ds) + dy);
                 patch_scale := None |} false s
    end
  end.

(** [onPointerUp] (lines 135-174): the box zoom. *)
Definition onPointerUp (rect : DOMRect) (shown : View)
    (boxStart : option (R * R)) (clientX clientY : R) (s : Store) : Store :=
  match boxStart with
  | None => s
  | Some (x0, y0) =>
    let p0 := posToComplex rect shown x0 y0 in
    let p1 := posToComplex rect shown clientX clientY in
    let widthC0 := Rabs (re p1 - re p0) in
    let heightC0 := Rabs (im p1 - im p0) in
    if Rlt_dec 0 widthC0 then
      if Rlt_dec 0 heightC0 then
        let cRe := (re p0 + re p1) * (1 / 2) in
        let cIm := (im p0 + im p1) * (1 / 2) in
        let aspect := rect_width rect / Rmax 1 (rect_height rect) in
        let selAspect := widthC0 / heightC0 in
        let widthC :=
          if Rgt_dec selAspect aspect then widthC0
          else heightC0 * aspect in
        let newScale := widthC in
        setView {| patch_cx := Some cRe; patch_cy := Some cIm;
                   patch_scale := Some newScale |} true s
      else s
    else s
  end.

(** [wheelZoom] (lines 177-204). *)
Definition wheelZoom (rect : DOMRect) (clientX clientY deltaY : R)
    (ctrlKey : bool) (s : Store) : Store :=
  let x := clientX - rect_left rect in
  let y := clientY - rect_top rect in
  let aspect := rect_width rect / Rmax 1 (rect_height rect) in
  let widthOld := scale (view (current s)) in
  let heightOld := widthOld / aspect in
  let factor := if ctrlKey then 103 / 100 else 11 / 10 in
  let z := if Rlt_dec deltaY 0 then 1 / factor else factor in
  let scale := clamp (widthOld * z) (1 / 1000000000000000) 8 in
  let widthNew := scale in
  let heightNew := widthNew / aspect in
  let nx := x / rect_width rect - 1 / 2 in
  let ny := y / rect_height rect - 1 / 2 in
  let re := (x / rect_width rect - 1 / 2) * widthOld
            + cx (view (current s)) in
  let im := cy (view (current s))
            - (y / rect_height rect - 1 / 2) * heightOld in
  let cx := re - nx * widthNew in
  let cy := im + ny * heightNew in
  setView {| patch_cx := Some cx; patch_cy := Some cy;
             patch_scale := Some scale |} true s.

End CanvasView.

(* ================================================================== *)
(** * Further notions and concrete inputs *)
(* ================================================================== *)

Module Examples.
Import GLSL Shader State Renderer Inputs.

Local Open Scope string_scope.

(** A colour a canvas can show as it is: every channel within [0, 1], and
    opaque. *)
Definition unit_range (v : R) : Prop := 0 <= v <= 1.


(** A gray: three equal channels. *)
Definition gray (c : vec3) : Prop :=
  let '(r, g, b) := c in r = g /\ g = b.

(** Lines 37-40 of the shader on one channel: brightness, contrast and
    gamma. *)
Definition tone (u : Uniforms) (v : R) : R :=
  let '(brightness, contrast, gamma, _) := u_adjust u in
  pow (max ((v + brightness - 1 / 2) * (contrast + 1) + 1 / 2) 0)
      (1 / max (1 / 10) gamma).

(** A store holding the default Mandelbrot view, with empty stacks and no
    bookmark. *)
Definition fresh_store : Store.Store :=
  {| Store.current := mandel_state (- 3 / 4) 0 200 true;
     Store.history := [];
     Store.redo := [];
     Store.bookmarks := [] |}.

(** A canvas element 800 x 600 at the top-left of the page. *)
Definition rect_800x600 : CanvasView.DOMRect :=
  {| CanvasView.rect_left := 0; CanvasView.rect_top := 0;
     CanvasView.rect_width := 800; CanvasView.rect_height := 600 |}.


(** A patch that moves the centre to [(x, 0)]. *)
Definition move_to (x : R) : Store.ViewPatch :=
  {| Store.patch_cx := Some x; Store.patch_cy := Some 0;
     Store.patch_scale := None |}.

(** A program whose uniforms are named in either convention. *)
Definition shader_program : Uniform.Program :=
  {| Uniform.isProgram := true;
     Uniform.activeUniforms := ["u_center"; "u_scale"; "uResolution"] |}.

(** Uniforms with the hue replaced. *)
Definition with_hue (h : R) (u : Uniforms) : Uniforms :=
  {| u_center := u_center u; u_scale := u_scale u;
     u_viewSize := u_viewSize u; u_tileOffset := u_tileOffset u;
     u_maxIter := u_maxIter u; u_power := u_power u;
     u_bailout := u_bailout u;
     u_type := u_type u; u_juliaC := u_juliaC u; u_palette := u_palette u;
     u_paletteSize := u_paletteSize u;
     u_paletteLength := u_paletteLength u;
     u_paletteCycle := u_paletteCycle u; u_adjust := u_adjust u;
     u_hue := h; u_edgeGlow := u_edgeGlow u;
     u_interiorSolid := u_interiorSolid u; u_scaleMode := u_scaleMode u |}.

(** A colour whose channels lie between the channels of two colours. *)
Definition between (a b v : Z) : Prop := (Z.min a b <= v <= Z.max a b)%Z.

Definition rgb_between (a b c : Z * Z * Z) : Prop :=
  let '(a0, a1, a2) := a in
  let '(b0, b1, b2) := b in
  let '(c0, c1, c2) := c in
  between a0 b0 c0 /\ between a1 b1 c1 /\ between a2 b2 c2.

(** A palette configuration with the preset name replaced. *)
Definition with_preset (name : string) (cfg : Palette.PaletteConfig)
  : Palette.PaletteConfig :=
  {| Palette.preset := name;
     Palette.length := Palette.length cfg;
     Palette.cycle := Palette.cycle cfg;
     Palette.reverse := Palette.reverse cfg;
     Palette.interpolation := Palette.interpolation cfg;
     Palette.seed := Palette.seed cfg |}.

(** A screen that is not paused, at full resolution, and a display of
    800 x 600 CSS pixels with a device pixel ratio of 2. *)
Definition screen : Frame.Screen :=
  {| Frame.renderer := white_renderer; Frame.previewScale := 1;
     Frame.paused := false; Frame.canvas := createCanvas 300 150 |}.

Definition display_2x : Frame.Display :=
  {| Frame.devicePixelRatio := Some 2;
     Frame.clientWidth := 800; Frame.clientHeight := 600 |}.

(** A query string without any key, and one that only gives the centre
    [cx=1]. *)
Definition empty_query : UrlState.Query :=
  {| UrlState.q_cx := None; UrlState.q_cy := None;
     UrlState.q_scale := None; UrlState.q_iter := None;
     UrlState.q_pow := None; UrlState.q_bail := None;
     UrlState.q_type := None; UrlState.q_palette := None;
     UrlState.q_cycle := None; UrlState.q_rev := None;
     UrlState.q_jx := None; UrlState.q_jy := None |}.

Definition query_cx_1 : UrlState.Query :=
  {| UrlState.q_cx := Some (UrlState.Finite 1); UrlState.q_cy := None;
     UrlState.q_scale := None; UrlState.q_iter := None;
     UrlState.q_pow := None; UrlState.q_bail := None;
     UrlState.q_type := None; UrlState.q_palette := None;
     UrlState.q_cycle := None; UrlState.q_rev := None;
     UrlState.q_jx := None; UrlState.q_jy := None |}.

(** The query string [?cx=0&iter=n]: the view is centred on the point 0
    and the iteration budget is [n]. *)
Definition query_centre (n : R) : UrlState.Query :=
  {| UrlState.q_cx := Some (UrlState.Finite 0); UrlState.q_cy := None;
     UrlState.q_scale := None;
     UrlState.q_iter := Some (UrlState.Finite n);
     UrlState.q_pow := None; UrlState.q_bail := None;
     UrlState.q_type := None; UrlState.q_palette := None;
     UrlState.q_cycle := None; UrlState.q_rev := None;
     UrlState.q_jx := None; UrlState.q_jy := None |}.

(** The uniforms of a frame of 800 x 600 pixels for the state the
    application starts with under that query, the "Solid interior" box
    set as given. *)
Definition loaded_frame (r : GLRenderer) (n : R) (solid : bool) : Uniforms :=
  Frame.frame_uniforms r
    (Store.current
       (Store.setInteriorSolid solid (UrlState.create (query_centre n) None)))
    800 600.

(** The fragment next to the centre of that frame, and the point it
    stands for. *)
Definition centre_fragment : vec2 := (400 + 1 / 2, 300 + 1 / 2).
Definition centre_point : vec2 := (3 / 1600, 3 / 1600).

(** A display of 1 x 1 CSS pixels that reports no ratio. *)
Definition display_1x1 : Frame.Display :=
  {| Frame.devicePixelRatio := None;
     Frame.clientWidth := 1; Frame.clientHeight := 1 |}.

(** Some character of the name is an upper-case letter. *)
Fixpoint any_upper (s : string) : bool :=
  match s with
  | EmptyString => false
  | String c rest => Uniform.upper_case c || any_upper rest
  end.

End Examples.

(* ================================================================== *)
(** * Facts about the built-ins *)
(* ================================================================== *)

(** Decide the comparisons of reals that a goal branches on. *)
Ltac real_cases :=
  repeat match goal with
  | |- context [Rlt_dec ?a ?b] => destruct (Rlt_dec a b); try lra
  | |- context [Rgt_dec ?a ?b] => destruct (Rgt_dec a b); try lra
  | |- context [Rge_dec ?a ?b] => destruct (Rge_dec a b); try lra
  | |- context [Rle_dec ?a ?b] => destruct (Rle_dec a b); try lra
  | |- context [Req_dec_T ?a ?b] => destruct (Req_dec_T a b); try lra
  end.

Module GLSLFacts.
Import GLSL.

Lemma max_left (x y : R) : y <= x -> max x y = x.
Proof. intros H. unfold max. real_cases. Qed.

Lemma max_right (x y : R) : x <= y -> max x y = y.
Proof. intros H. unfold max. real_cases. Qed.

Lemma min_left (x y : R) : x <= y -> min x y = x.
Proof. intros H. unfold min. real_cases. Qed.

Lemma max_ge_left (x y : R) : x <= max x y.
Proof. unfold max. real_cases. Qed.

Lemma clamp_id (x : R) : 0 <= x <= 1 -> clamp x 0 1 = x.
Proof.
  intros H. unfold clamp. rewrite (max_left x 0), (min_left x 1); lra.
Qed.

Lemma length_origin : length (0, 0) = 0.
Proof.
  unfold length, dot. simpl.
  replace (0 * 0 + 0 * 0) with 0 by ring. apply sqrt_0.
Qed.

Lemma atan2_origin : atan2 0 0 = 0.
Proof. unfold atan2. real_cases. Qed.

Lemma pow_zero (y : R) : pow 0 y = 0.
Proof. unfold pow. real_cases. Qed.

Lemma pow_one (y : R) : pow 1 y = 1.
Proof.
  unfold pow. real_cases. unfold Rpower. rewrite ln_1, Rmult_0_r. apply exp_0.
Qed.

Lemma mix_same (x a : R) : mix x x a = x.
Proof. unfold mix. ring. Qed.

Lemma mix_zero (x y : R) : mix x y 0 = x.
Proof. unfold mix. ring. Qed.

Lemma fract_zero : fract 0 = 0.
Proof.
  unfold fract, floor.
  replace (Int_part 0) with 0%Z; [ring|].
  apply Int_part_spec. simpl. lra.
Qed.

End GLSLFacts.

(* ================================================================== *)
(** * The escape-time loop *)
(* ================================================================== *)

Module LoopFacts.
Import GLSL Shader Orbit GLSLFacts.

Lemma bailed_true (b : R) (z : vec2) :
  bailed b z = true <-> dot z z > b * b.
Proof.
  unfold bailed. destruct (Rgt_dec (dot z z) (b * b)); split;
    intros; try assumption; try reflexivity; try discriminate; contradiction.
Qed.

Lemma bailed_false (b : R) (z : vec2) :
  bailed b z = false <-> ~ dot z z > b * b.
Proof.
  unfold bailed. destruct (Rgt_dec (dot z z) (b * b)); split;
    intros; try assumption; try reflexivity; try discriminate; contradiction.
Qed.

Section Loop.

Variables (maxIter type : Z) (power bailout : R) (c : vec2).

(** The counter never decreases, and moves by at most the fuel. *)
Lemma iterate_counter_ge (fuel i : nat) (z : vec2) :
  (i <= fst (iterate maxIter type power bailout c fuel i z))%nat.
Proof.
  revert i z. induction fuel as [|fuel IH]; intros i z; simpl.
  - lia.
  - destruct (maxIter <=? Z.of_nat i)%Z; simpl; [lia|].
    destruct (bailed bailout (step type power c z)); simpl; [lia|].
    specialize (IH (S i) (step type power c z)). lia.
Qed.

Lemma iterate_counter_le (fuel i : nat) (z : vec2) :
  (fst (iterate maxIter type power bailout c fuel i z) <= i + fuel)%nat.
Proof.
  revert i z. induction fuel as [|fuel IH]; intros i z; simpl.
  - lia.
  - destruct (maxIter <=? Z.of_nat i)%Z; simpl; [lia|].
    destruct (bailed bailout (step type power c z)); simpl; [lia|].
    specialize (IH (S i) (step type power c z)). lia.
Qed.

(** The value of [z] when the loop is left is a point of the sequence
    started at [z]: the one at the distance the counter moved, or the
    next one when the bailout test ended the loop. *)
Lemma iterate_on_orbit (fuel i : nat) (z : vec2) :
  let r := iterate maxIter type power bailout c fuel i z in
  snd r = Nat.iter (fst r - i) (step type power c) z \/
  (snd r = Nat.iter (S (fst r - i)) (step type power c) z /\
   bailed bailout (snd r) = true).
Proof.
  revert i z. induction fuel as [|fuel IH]; intros i z; simpl.
  - left. now rewrite Nat.sub_diag.
  - destruct (maxIter <=? Z.of_nat i)%Z; simpl.
    + left. now rewrite Nat.sub_diag.
    + destruct (bailed bailout (step type power c z)) eqn:Hb; simpl.
      * right. rewrite Nat.sub_diag. simpl. auto.
      * pose proof (iterate_counter_ge fuel (S i) (step type power c z)) as Hge.
        destruct (IH (S i) (step type power c z)) as [H | [H Hb']].
        -- left. rewrite H.
           replace (fst (iterate maxIter type power bailout c fuel (S i)
                           (step type power c z)) - i)%nat
             with (S (fst (iterate maxIter type power bailout c fuel (S i)
                           (step type power c z)) - S i))%nat by lia.
           now rewrite Nat.iter_succ_r.
        -- right. split; [|exact Hb']. rewrite H.
           replace (fst (iterate maxIter type power bailout c fuel (S i)
                           (step type power c z)) - i)%nat
             with (S (fst (iterate maxIter type power bailout c fuel (S i)
                           (step type power c z)) - S i))%nat by lia.
           now rewrite <- !Nat.iter_succ_r.
Qed.

(** The loop stops at the first iteration whose bailout test succeeds,
    when the budget and the fuel reach that far. *)
Lemma iterate_escape (fuel i : nat) (z : vec2) (e : nat) :
  (e < fuel)%nat ->
  (Z.of_nat (i + e) < maxIter)%Z ->
  (forall j, (j < e)%nat ->
     bailed bailout (Nat.iter (S j) (step type power c) z) = false) ->
  bailed bailout (Nat.iter (S e) (step type power c) z) = true ->
  iterate maxIter type power bailout c fuel i z
  = ((i + e)%nat, Nat.iter (S e) (step type power c) z).
Proof.
  revert i z e. induction fuel as [|fuel IH]; intros i z e Hf Hm Hno Hesc.
  - lia.
  - simpl. destruct (Z.leb_spec maxIter (Z.of_nat i)); [lia|].
    destruct e as [|e].
    + simpl in Hesc. rewrite Hesc. now rewrite Nat.add_0_r.
    + pose proof (Hno 0%nat ltac:(lia)) as H0. simpl in H0. rewrite H0.
      rewrite (IH (S i) (step type power c z) e).
      * f_equal; [lia|]. now rewrite <- !Nat.iter_succ_r.
      * lia.
      * lia.
      * intros j Hj. specialize (Hno (S j) ltac:(lia)).
        now rewrite <- !Nat.iter_succ_r.
      * now rewrite <- !Nat.iter_succ_r.
Qed.

(** Without a successful bailout test the loop runs [n] iterations, where
    the budget or the fuel ends it. *)
Lemma iterate_no_escape (fuel i : nat) (z : vec2) (n : nat) :
  (n <= fuel)%nat ->
  (forall j, (j < n)%nat ->
     bailed bailout (Nat.iter (S j) (step type power c) z) = false) ->
  (forall j, (j < n)%nat -> (Z.of_nat (i + j) < maxIter)%Z) ->
  (n = fuel \/ (maxIter <= Z.of_nat (i + n))%Z) ->
  iterate maxIter type power bailout c fuel i z
  = ((i + n)%nat, Nat.iter n (step type power c) z).
Proof.
  revert i z n. induction fuel as [|fuel IH]; intros i z n Hf Hno Hm Hend.
  - assert (n = 0%nat) by lia. subst n. simpl. now rewrite Nat.add_0_r.
  - simpl. destruct n as [|n].
    + destruct Hend as [Hend | Hend]; [discriminate|].
      rewrite Nat.add_0_r in Hend.
      destruct (Z.leb_spec maxIter (Z.of_nat i)); [|lia].
      now rewrite Nat.add_0_r.
    + pose proof (Hm 0%nat ltac:(lia)) as Hm0. rewrite Nat.add_0_r in Hm0.
      destruct (Z.leb_spec maxIter (Z.of_nat i)); [lia|].
      pose proof (Hno 0%nat ltac:(lia)) as H0. simpl in H0. rewrite H0.
      rewrite (IH (S i) (step type power c z) n).
      * f_equal; [lia|]. now rewrite <- Nat.iter_succ_r.
      * lia.
      * intros j Hj. specialize (Hno (S j) ltac:(lia)).
        now rewrite <- !Nat.iter_succ_r.
      * intros j Hj. specialize (Hm (S j) ltac:(lia)).
        replace (S i + j)%nat with (i + S j)%nat by lia. exact Hm.
      * destruct Hend as [Hend | Hend]; [left; lia | right].
        replace (S i + n)%nat with (i + S n)%nat by lia. exact Hend.
Qed.

End Loop.

(** Two budgets, everything else equal: a run that leaves the loop below
    the smaller budget is the same under the larger one, and a run that
    reaches the smaller budget gets at least as far under the larger. *)
Lemma iterate_budget_mono (N1 N2 type : Z) (power bailout : R) (c : vec2) :
  (N1 <= N2)%Z ->
  forall (fuel i : nat) (z : vec2),
  let r1 := iterate N1 type power bailout c fuel i z in
  let r2 := iterate N2 type power bailout c fuel i z in
  ((N1 <=? Z.of_nat (fst r1))%Z = false -> r2 = r1) /\
  ((N1 <=? Z.of_nat (fst r1))%Z = true -> (fst r1 <= fst r2)%nat).
Proof.
  intros HN. induction fuel as [|fuel IH]; intros i z; simpl.
  - split; intros; [reflexivity|lia].
  - destruct (Z.leb_spec N1 (Z.of_nat i)) as [H1|H1].
    + simpl. split.
      * intros Hgt. apply Z.leb_gt in Hgt. lia.
      * intros _.
        destruct (Z.leb_spec N2 (Z.of_nat i)) as [H2|H2]; simpl; [lia|].
        destruct (bailed bailout (step type power c z)); simpl; [lia|].
        pose proof (iterate_counter_ge N2 type power bailout c fuel (S i)
                      (step type power c z)). lia.
    + destruct (Z.leb_spec N2 (Z.of_nat i)) as [H2|H2]; [lia|].
      destruct (bailed bailout (step type power c z)); simpl.
      * split; [reflexivity|]. intros Hle. apply Z.leb_le in Hle. lia.
      * apply IH.
Qed.

End LoopFacts.

(* ================================================================== *)
(** * The evaluator *)
(* ================================================================== *)

Module EvaluatorFacts.
Import GLSL Shader Orbit GLSLFacts LoopFacts.

(** Reduce the projections of a record of uniforms, and nothing else. *)
Ltac uniforms_simpl :=
  cbn [u_center u_scale u_viewSize u_tileOffset u_maxIter u_power u_bailout
       u_type u_juliaC u_palette u_paletteSize u_paletteLength
       u_paletteCycle u_adjust u_hue u_edgeGlow u_interiorSolid u_scaleMode
       with_power with_bailout with_maxIter with_viewSize].

Lemma eff_power_floor (p : R) (u : Uniforms) :
  p <= 2 -> eff_power (with_power p u) = 2.
Proof. intros H. unfold eff_power. uniforms_simpl. now apply max_left. Qed.

Lemma eff_bailout_floor (b : R) (u : Uniforms) :
  b <= 2 -> eff_bailout (with_bailout b u) = 2.
Proof. intros H. unfold eff_bailout. uniforms_simpl. now apply max_left. Qed.

(** [main] reads [u_power] only through the floored value. *)
Lemma main_power (p q : R) (u : Uniforms) (fragCoord : vec2) :
  max 2 p = max 2 q ->
  main (with_power p u) fragCoord = main (with_power q u) fragCoord.
Proof.
  intros H.
  unfold main, escape_time, run, eff_power, eff_bailout, init_c, init_z,
    palette_color, edge_glow, adjust_color, pixelToComplex.
  uniforms_simpl. rewrite H. reflexivity.
Qed.

Lemma main_bailout (p q : R) (u : Uniforms) (fragCoord : vec2) :
  max 2 p = max 2 q ->
  main (with_bailout p u) fragCoord = main (with_bailout q u) fragCoord.
Proof.
  intros H.
  unfold main, escape_time, run, eff_power, eff_bailout, init_c, init_z,
    palette_color, edge_glow, adjust_color, pixelToComplex.
  uniforms_simpl. rewrite H. reflexivity.
Qed.

Lemma evaluate_power (p q : R) (u : Uniforms) (c0 : vec2) :
  max 2 p = max 2 q ->
  evaluate (with_power p u) c0 = evaluate (with_power q u) c0 /\
  escape_time (with_power p u) c0 = escape_time (with_power q u) c0.
Proof.
  intros H.
  unfold evaluate, escape_time, run, eff_power, eff_bailout, init_c, init_z.
  uniforms_simpl. rewrite H. split; reflexivity.
Qed.

Lemma evaluate_bailout (p q : R) (u : Uniforms) (c0 : vec2) :
  max 2 p = max 2 q ->
  evaluate (with_bailout p u) c0 = evaluate (with_bailout q u) c0 /\
  escape_time (with_bailout p u) c0 = escape_time (with_bailout q u) c0.
Proof.
  intros H.
  unfold evaluate, escape_time, run, eff_power, eff_bailout, init_c, init_z.
  uniforms_simpl. rewrite H. split; reflexivity.
Qed.

Lemma floor_two_zero : max 2 0 = max 2 2.
Proof. rewrite !max_left; lra. Qed.

Lemma floor_two_one : max 2 1 = max 2 2.
Proof. rewrite !max_left; lra. Qed.

(** C3.  Parameter floors: with [power = 0] the evaluator and the whole
    shader give what they give with [power = 2], and with [bailout = 1]
    what they give with [bailout = 2]: the escape flag, the iteration
    count, the final [z], the smooth count and the colour of the pixel are
    equal, for every point and every other parameter. *)
Theorem parameter_floors (u : Uniforms) (fragCoord c0 : vec2) :
  (evaluate (with_power 0 u) c0 = evaluate (with_power 2 u) c0 /\
   escape_time (with_power 0 u) c0 = escape_time (with_power 2 u) c0 /\
   main (with_power 0 u) fragCoord = main (with_power 2 u) fragCoord) /\
  (evaluate (with_bailout 1 u) c0 = evaluate (with_bailout 2 u) c0 /\
   escape_time (with_bailout 1 u) c0 = escape_time (with_bailout 2 u) c0 /\
   main (with_bailout 1 u) fragCoord = main (with_bailout 2 u) fragCoord).
Proof.
  split.
  - destruct (evaluate_power 0 2 u c0 floor_two_zero) as [He Ht].
    split; [exact He | split; [exact Ht |]].
    apply main_power, floor_two_zero.
  - destruct (evaluate_bailout 1 2 u c0 floor_two_one) as [He Ht].
    split; [exact He | split; [exact Ht |]].
    apply main_bailout, floor_two_one.
Qed.

(** C9.  Two iteration budgets [N1 <= N2], everything else fixed: a point
    that does not escape within [N1] has, under [N2], an iteration count
    that is at least its count under [N1]; a point that escapes within
    [N1] has the same outcome under [N2], with the same iteration count
    and the same final [z]. *)
Theorem budget_monotone (u : Uniforms) (c0 : vec2) (N1 N2 : Z) :
  (N1 <= N2)%Z ->
  let r1 := evaluate (with_maxIter N1 u) c0 in
  let r2 := evaluate (with_maxIter N2 u) c0 in
  (escaped r1 = false ->
     (iterationCount r1 <= iterationCount r2)%nat) /\
  (escaped r1 = true ->
     escaped r2 = true /\ iterationCount r2 = iterationCount r1 /\
     finalZ r2 = finalZ r1).
Proof.
  intros HN.
  pose proof (iterate_budget_mono N1 N2 (u_type u) (eff_power u)
                (eff_bailout u) (init_c u c0) HN loop_cap 0%nat
                (init_z u c0)) as [Hsame Hge].
  unfold evaluate, run, eff_power, eff_bailout, init_c, init_z in *.
  uniforms_simpl.
  destruct (iterate N1 (u_type u) (max 2 (u_power u)) (max 2 (u_bailout u))
              (if (u_type u =? 1)%Z then u_juliaC u else c0) loop_cap 0
              (if (u_type u =? 1)%Z then c0 else (0, 0))) as [i1 z1] eqn:E1.
  destruct (iterate N2 (u_type u) (max 2 (u_power u)) (max 2 (u_bailout u))
              (if (u_type u =? 1)%Z then u_juliaC u else c0) loop_cap 0
              (if (u_type u =? 1)%Z then c0 else (0, 0))) as [i2 z2] eqn:E2.
  cbn [escaped iterationCount finalZ fst snd] in *.
  split.
  - intros H. apply negb_false_iff in H. now apply Hge.
  - intros H. apply negb_true_iff in H. specialize (Hsame H).
    injection Hsame as -> ->.
    split; [|split; reflexivity].
    apply negb_true_iff. apply Z.leb_gt. apply Z.leb_gt in H. lia.
Qed.

(** The evaluator against the orbit. *)

Lemma escapes_at_bailed (u : Uniforms) (c0 : vec2) (k : nat) :
  escapes_at u c0 k <->
  bailed (eff_bailout u) (orbit u c0 (S k)) = true.
Proof. unfold escapes_at. symmetry. apply bailed_true. Qed.

Lemma bounded_until_bailed (u : Uniforms) (c0 : vec2) (n : nat) :
  bounded_until u c0 n ->
  forall j, (j < n)%nat ->
  bailed (eff_bailout u)
         (Nat.iter (S j) (step (u_type u) (eff_power u) (init_c u c0))
                   (init_z u c0)) = false.
Proof.
  intros H j Hj. apply bailed_false. exact (H j Hj).
Qed.

Lemma loop_cap_value : Z.of_nat loop_cap = 100000%Z.
Proof. unfold loop_cap. now rewrite Z2Nat.id by lia. Qed.

Lemma INR_loop_cap : INR loop_cap = 100000.
Proof. now rewrite INR_IZR_INZ, loop_cap_value. Qed.

Lemma loop_cap_lt (i : nat) : (Z.of_nat i < 100000)%Z -> (i < loop_cap)%nat.
Proof.
  pose proof loop_cap_value as Hv. revert Hv. generalize loop_cap.
  intros cap Hv H. lia.
Qed.

Global Opaque loop_cap.

(** An escape in iteration [i], below the budget and the cap, and none
    before: the loop is left there, with [z_(i+1)]. *)
Lemma run_escape (u : Uniforms) (c0 : vec2) (i : nat) :
  (Z.of_nat i < u_maxIter u)%Z -> (i < loop_cap)%nat ->
  bounded_until u c0 i -> escapes_at u c0 i ->
  run u c0 = (i, orbit u c0 (S i)).
Proof.
  intros Hm Hc Hno Hesc. unfold run. revert Hc.
  generalize loop_cap. intros cap Hc.
  rewrite (iterate_escape _ _ _ _ _ cap 0 (init_z u c0) i).
  - reflexivity.
  - exact Hc.
  - rewrite Nat.add_0_l. exact Hm.
  - now apply bounded_until_bailed.
  - now apply escapes_at_bailed.
Qed.

(** No escape in the first [n] iterations, where [n] is the budget (at
    most the cap): the loop is left at [i = n] with [z_n]. *)
Lemma run_budget (u : Uniforms) (c0 : vec2) :
  (u_maxIter u <= 100000)%Z ->
  bounded_until u c0 (Z.to_nat (u_maxIter u)) ->
  run u c0 = (Z.to_nat (u_maxIter u), orbit u c0 (Z.to_nat (u_maxIter u))).
Proof.
  intros Hm Hno. unfold run.
  pose proof loop_cap_value as Hv. revert Hv.
  generalize loop_cap. intros cap Hv.
  rewrite (iterate_no_escape _ _ _ _ _ cap 0 (init_z u c0)
             (Z.to_nat (u_maxIter u))).
  - reflexivity.
  - lia.
  - now apply bounded_until_bailed.
  - intros j Hj. rewrite Nat.add_0_l. lia.
  - right. rewrite Nat.add_0_l. lia.
Qed.

(** No escape in the first 100000 iterations and a budget beyond them:
    the loop is left by its own bound, at [i = 100000]. *)
Lemma run_cap (u : Uniforms) (c0 : vec2) :
  (100000 <= u_maxIter u)%Z ->
  bounded_until u c0 loop_cap ->
  run u c0 = (loop_cap, orbit u c0 loop_cap).
Proof.
  intros Hm Hno. unfold run.
  pose proof loop_cap_value as Hv. revert Hno Hv.
  generalize loop_cap. intros cap Hno Hv.
  rewrite (iterate_no_escape _ _ _ _ _ cap 0 (init_z u c0) cap).
  - reflexivity.
  - apply Nat.le_refl.
  - now apply bounded_until_bailed.
  - intros j Hj. rewrite Nat.add_0_l. lia.
  - now left.
Qed.

Lemma max_Rmax (x y : R) : max x y = Rmax x y.
Proof.
  unfold max, Rmax. destruct (Rlt_dec x y), (Rle_dec x y); lra.
Qed.

Lemma smooth_count_code (p : R) (i : nat) (z : vec2) :
  INR i + 1 - log (log (max (length z) (1 / 1000000))) / log p
  = smooth_count p i z.
Proof.
  unfold smooth_count, log, length, dot. now rewrite max_Rmax.
Qed.

(** The smooth count reported for an escape in iteration [i]. *)
Lemma escape_time_escape (u : Uniforms) (c0 : vec2) (i : nat) :
  (Z.of_nat i < u_maxIter u)%Z -> (i < loop_cap)%nat ->
  bounded_until u c0 i -> escapes_at u c0 i ->
  exists nu,
    escape_time u c0
    = Some (smooth_count (eff_power u) i (orbit u c0 (S i)), nu).
Proof.
  intros Hi Hc Hno Hesc.
  pose proof (run_escape u c0 i Hi Hc Hno Hesc) as Hrun.
  unfold escape_time. rewrite Hrun.
  assert (Hlt : (u_maxIter u <=? Z.of_nat i)%Z = false)
    by (apply Z.leb_gt; lia).
  rewrite Hlt. eexists. rewrite smooth_count_code. reflexivity.
Qed.

(** The evaluator's report.  When the bailout test first succeeds in an
    iteration [i] below the budget and below the 100000 of the loop, the
    evaluator stops there, reports an escape at [i] with the value of [z]
    after that iteration's power-and-add step, and the smooth count
    [i + 1 - log(log(max(r, 1e-6))) / log(power)] with [r] the modulus of
    that [z], whatever the budget is.  For a budget of at most 100000,
    when no iteration within the budget passes the test, the point is
    classified as interior with the budget as its iteration count and,
    outside solid mode, [t] is the budget. *)
Lemma escape_report (u : Uniforms) (c0 : vec2) :
  (forall i : nat,
     (Z.of_nat i < u_maxIter u)%Z -> (Z.of_nat i < 100000)%Z ->
     bounded_until u c0 i -> escapes_at u c0 i ->
     evaluate u c0 = {| escaped := true; iterationCount := i;
                        finalZ := orbit u c0 (S i) |} /\
     exists nu,
       escape_time u c0
       = Some (smooth_count (eff_power u) i (orbit u c0 (S i)), nu)) /\
  ((0 <= u_maxIter u <= 100000)%Z ->
   bounded_until u c0 (Z.to_nat (u_maxIter u)) ->
   evaluate u c0 = {| escaped := false;
                      iterationCount := Z.to_nat (u_maxIter u);
                      finalZ := orbit u c0 (Z.to_nat (u_maxIter u)) |} /\
   (u_interiorSolid u <> 1%Z ->
    escape_time u c0 = Some (IZR (u_maxIter u), 0))).
Proof.
  split.
  - intros i Hi Hcap Hno Hesc.
    assert (Hc : (i < loop_cap)%nat) by (apply loop_cap_lt; lia).
    split; [|now apply escape_time_escape].
    unfold evaluate. rewrite (run_escape u c0 i Hi Hc Hno Hesc).
    assert (Hlt : (u_maxIter u <=? Z.of_nat i)%Z = false)
      by (apply Z.leb_gt; lia).
    now rewrite Hlt.
  - intros [Hpos Hcap] Hno.
    pose proof (run_budget u c0 Hcap Hno) as Hrun.
    unfold evaluate, escape_time. rewrite Hrun.
    assert (Hle : (u_maxIter u <=? Z.of_nat (Z.to_nat (u_maxIter u)))%Z = true)
      by (apply Z.leb_le; lia).
    rewrite Hle. split; [reflexivity|].
    intros Hsolid. apply Z.eqb_neq in Hsolid. rewrite Hsolid.
    rewrite INR_IZR_INZ, Z2Nat.id by lia. reflexivity.
Qed.

End EvaluatorFacts.

(* ================================================================== *)
(** * The colour of a pixel *)
(* ================================================================== *)

Module PixelFacts.
Import GLSL Shader Orbit State Renderer Inputs.
Import GLSLFacts LoopFacts EvaluatorFacts.

(** The point 0 of the Mandelbrot set never moves. *)
Lemma step_origin (p : R) : step 0 p (0, 0) (0, 0) = (0, 0).
Proof.
  unfold step. cbn [Z.eqb fst snd].
  rewrite length_origin, atan2_origin, pow_zero. f_equal; ring.
Qed.

Lemma orbit_origin_fixed (u : Uniforms) (n : nat) :
  u_type u = 0%Z -> orbit u (0, 0) n = (0, 0).
Proof.
  intros H. unfold orbit, init_c, init_z. rewrite H. cbn [Z.eqb].
  induction n as [|n IH].
  - reflexivity.
  - rewrite Nat.iter_succ, IH. apply step_origin.
Qed.

Lemma bounded_origin (u : Uniforms) (n : nat) :
  u_type u = 0%Z -> bounded_until u (0, 0) n.
Proof.
  intros H j _. unfold escapes_at. rewrite (orbit_origin_fixed u _ H).
  unfold dot. cbn [fst snd].
  pose proof (Rle_0_sqr (eff_bailout u)) as Hsq. unfold Rsqr in Hsq. lra.
Qed.

Lemma orbit_origin (budget : Z) (solid : bool) (n : nat) :
  orbit (origin_uniforms budget solid) (0, 0) n = (0, 0).
Proof. now apply orbit_origin_fixed. Qed.

Lemma origin_eff_bailout (budget : Z) (solid : bool) :
  eff_bailout (origin_uniforms budget solid) = 2.
Proof.
  unfold eff_bailout.
  change (u_bailout (origin_uniforms budget solid)) with 2.
  apply max_left; lra.
Qed.

Lemma origin_eff_power (budget : Z) (solid : bool) :
  eff_power (origin_uniforms budget solid) = 2.
Proof.
  unfold eff_power.
  change (u_power (origin_uniforms budget solid)) with 2.
  apply max_left; lra.
Qed.

Lemma origin_bounded (budget : Z) (solid : bool) (n : nat) :
  bounded_until (origin_uniforms budget solid) (0, 0) n.
Proof. now apply bounded_origin. Qed.

(** The only fragment of the 1 x 1 render is the point 0. *)
Lemma origin_pixel (budget : Z) (solid : bool) :
  pixelToComplex (origin_uniforms budget solid) (1 / 2, 1 / 2) = (0, 0).
Proof.
  unfold pixelToComplex, origin_uniforms, tile_uniforms, mandel_state.
  cbn [u_center u_scale u_viewSize u_tileOffset opt_width opt_height
       view cx cy scale fst snd Nat.mul INR].
  rewrite (max_left 1 1) by lra. f_equal; field.
Qed.

(** With the default adjustments, white stays white. *)
Lemma adjust_white (u : Uniforms) :
  u_adjust u = (0, 0, 1, 1) -> u_hue u = 0 ->
  adjust_color u (1, 1, 1) = (1, 1, 1).
Proof.
  intros Ha Hh. unfold adjust_color. rewrite Ha, Hh.
  cbn [map3].
  replace ((1 + 0 - 1 / 2) * (0 + 1) + 1 / 2) with 1 by lra.
  rewrite (max_left 1 0) by lra.
  rewrite pow_one.
  rewrite !(max_left 1 1), !(min_left 1 1) by lra.
  destruct (Req_dec_T 1 1) as [_|Hne]; [|contradiction].
  replace (0 + 0 / 360) with 0 by lra. rewrite fract_zero.
  replace ((1 - 1) / (1 - abs (2 * ((1 + 1) * (1 / 2)) - 1) + 1 / 1000000) * 1)
    with 0 by (unfold Rdiv; ring).
  unfold hsv2rgb. cbn [map3].
  rewrite (clamp_id 0) by lra.
  rewrite !mix_zero.
  replace ((1 + 1) * (1 / 2) * 1) with 1 by lra.
  now rewrite !(clamp_id 1) by lra.
Qed.

(** A pixel that takes the colour path (lines 110-125). *)
Lemma main_shaded (u : Uniforms) (fragCoord : vec2) (t nu : R) :
  escape_time u (pixelToComplex u fragCoord) = Some (t, nu) ->
  main u fragCoord
  = (let '(r, g, b) := adjust_color u (edge_glow u nu (palette_color u t))
     in (r, g, b, 1)).
Proof. intros H. unfold main. now rewrite H. Qed.

(** With a white palette and the default adjustments it is white. *)
Lemma main_white (u : Uniforms) (fragCoord : vec2) (t nu : R) :
  u_palette u = white_texture ->
  u_adjust u = (0, 0, 1, 1) -> u_hue u = 0 ->
  escape_time u (pixelToComplex u fragCoord) = Some (t, nu) ->
  main u fragCoord = (1, 1, 1, 1).
Proof.
  intros Hp Ha Hh He. rewrite (main_shaded u fragCoord t nu He).
  unfold palette_color, edge_glow. rewrite Hp. unfold white_texture.
  cbn [map3]. rewrite !mix_same. now rewrite adjust_white.
Qed.

(** A pixel with no escape within a budget of at most 100000, in solid
    mode (lines 96-99). *)
Lemma main_interior (u : Uniforms) (fragCoord : vec2) :
  (u_maxIter u <= 100000)%Z ->
  u_interiorSolid u = 1%Z ->
  bounded_until u (pixelToComplex u fragCoord) (Z.to_nat (u_maxIter u)) ->
  main u fragCoord = interior_color.
Proof.
  intros Hcap Hsolid Hno. unfold main, escape_time.
  rewrite (run_budget u _ Hcap Hno).
  assert (Hle : (u_maxIter u <=? Z.of_nat (Z.to_nat (u_maxIter u)))%Z = true)
    by (apply Z.leb_le; lia).
  now rewrite Hle, Hsolid.
Qed.

Lemma escaped_escape_time (u : Uniforms) (c0 : vec2) :
  escaped (evaluate u c0) = true ->
  exists t nu, escape_time u c0 = Some (t, nu).
Proof.
  unfold evaluate, escape_time. destruct (run u c0) as [i z].
  cbn [escaped]. intros H. apply negb_true_iff in H. rewrite H.
  eexists. eexists. reflexivity.
Qed.

(** The point [4i] leaves the disc of radius 2 in the first iteration. *)
Lemma escapes_4i (u : Uniforms) :
  u_type u = 0%Z -> u_bailout u = 2 -> escapes_at u (0, 4) 0.
Proof.
  intros Ht Hb. unfold escapes_at.
  change (orbit u (0, 4) 1)
    with (step (u_type u) (eff_power u) (init_c u (0, 4))
               (init_z u (0, 4))).
  unfold init_c, init_z, eff_bailout. rewrite Ht, Hb. cbn [Z.eqb].
  unfold step. cbn [Z.eqb fst snd]. rewrite length_origin, pow_zero.
  rewrite (max_left 2 2) by lra. unfold dot. cbn [fst snd]. lra.
Qed.

Lemma run_4i (u : Uniforms) :
  u_type u = 0%Z -> u_bailout u = 2 -> (0 < u_maxIter u)%Z ->
  run u (0, 4) = (0%nat, orbit u (0, 4) 1).
Proof.
  intros Ht Hb Hm. apply run_escape.
  - exact Hm.
  - apply loop_cap_lt. lia.
  - intros j Hj. lia.
  - now apply escapes_4i.
Qed.

Lemma escape_time_4i (u : Uniforms) :
  u_type u = 0%Z -> u_bailout u = 2 -> (0 < u_maxIter u)%Z ->
  exists t nu, escape_time u (0, 4) = Some (t, nu).
Proof.
  intros Ht Hb Hm.
  destruct (escape_time_escape u (0, 4) 0) as [nu Hnu].
  - exact Hm.
  - apply loop_cap_lt. lia.
  - intros j Hj. lia.
  - now apply escapes_4i.
  - eexists. eexists. exact Hnu.
Qed.

(** The colour of a pixel by the evaluator's verdict.  In solid mode,
    for a budget of at most 100000, a pixel with no escape within the
    budget gets the fixed interior colour, whatever the scale mode, the
    palette, the edge glow and the adjustments are; and, for every
    budget, a pixel the evaluator reports as escaped gets the adjusted
    colour [adjust_color(mix(palette sample, white, glow))]. *)
Lemma interior_bypass (u : Uniforms) (fragCoord : vec2) :
  ((u_maxIter u <= 100000)%Z ->
   u_interiorSolid u = 1%Z ->
   bounded_until u (pixelToComplex u fragCoord) (Z.to_nat (u_maxIter u)) ->
   main u fragCoord = interior_color) /\
  (escaped (evaluate u (pixelToComplex u fragCoord)) = true ->
   exists t nu,
     escape_time u (pixelToComplex u fragCoord) = Some (t, nu) /\
     main u fragCoord
     = (let '(r, g, b) := adjust_color u (edge_glow u nu (palette_color u t))
        in (r, g, b, 1))).
Proof.
  split.
  - intros Hcap Hsolid Hno. now apply main_interior.
  - intros He. destruct (escaped_escape_time u _ He) as (t & nu & Ht).
    exists t, nu. split; [exact Ht|]. now apply main_shaded.
Qed.

(** The budgets 100 and 200: the point 0 escapes under neither, and its
    count does not go down; the point [4i] escapes under both, in the same
    iteration and with the same [z]. *)
Lemma budget_monotone_witness :
  Nat.le
    (iterationCount
       (evaluate (with_maxIter 100 (origin_uniforms 0 true)) (0, 0)))
    (iterationCount
       (evaluate (with_maxIter 200 (origin_uniforms 0 true)) (0, 0))) /\
  (escaped (evaluate (with_maxIter 200 (origin_uniforms 0 true)) (0, 4))
   = true /\
   iterationCount (evaluate (with_maxIter 200 (origin_uniforms 0 true)) (0, 4))
   = iterationCount
       (evaluate (with_maxIter 100 (origin_uniforms 0 true)) (0, 4)) /\
   finalZ (evaluate (with_maxIter 200 (origin_uniforms 0 true)) (0, 4))
   = finalZ (evaluate (with_maxIter 100 (origin_uniforms 0 true)) (0, 4))).
Proof.
  split.
  - destruct (budget_monotone (origin_uniforms 0 true) (0, 0) 100 200)
      as [Hkeep _].
    + lia.
    + apply Hkeep. unfold evaluate.
      rewrite (run_budget (with_maxIter 100 (origin_uniforms 0 true)) (0, 0)).
      * reflexivity.
      * apply Z.leb_le. reflexivity.
      * now apply bounded_origin.
  - destruct (budget_monotone (origin_uniforms 0 true) (0, 4) 100 200)
      as [_ Hsame].
    + lia.
    + apply Hsame. unfold evaluate.
      rewrite (run_4i (with_maxIter 100 (origin_uniforms 0 true)));
        reflexivity.
Defined.

End PixelFacts.

(* ================================================================== *)
(** * Fractal kinds and the coordinate mapper *)
(* ================================================================== *)

Module MapperFacts.
Import GLSL Shader Orbit State Renderer Inputs.
Import GLSLFacts LoopFacts EvaluatorFacts.

Lemma step_spec (kind : FractalType) (power : R) (c z : vec2) :
  step (type_code kind) power c z = spec_step kind power c z.
Proof.
  destruct kind; unfold step, spec_step, power_add, reflect, abs;
    cbn [type_code Z.eqb Pos.eqb fst snd];
    rewrite (Rmult_comm power); reflexivity.
Qed.

Lemma init_spec (kind : FractalType) (u : Uniforms) (c0 : vec2) :
  u_type u = type_code kind ->
  init_c u c0 = spec_c kind (u_juliaC u) c0 /\
  init_z u c0 = spec_z0 kind c0.
Proof.
  intros H. unfold init_c, init_z. rewrite H.
  destruct kind; split; reflexivity.
Qed.

Lemma orbit_spec (kind : FractalType) (u : Uniforms) (c0 : vec2) (n : nat) :
  u_type u = type_code kind ->
  orbit u c0 n = spec_orbit kind (eff_power u) (u_juliaC u) c0 n.
Proof.
  intros H. unfold orbit, spec_orbit.
  destruct (init_spec kind u c0 H) as [-> ->]. rewrite H.
  induction n as [|n IH]; [reflexivity|].
  rewrite !Nat.iter_succ, IH. apply step_spec.
Qed.

(** The final [z] of the evaluator is a point of the orbit: the one at
    the iteration count, or the next one. *)
Lemma finalZ_on_orbit (u : Uniforms) (c0 : vec2) :
  exists n : nat,
    (iterationCount (evaluate u c0) <= n
     <= S (iterationCount (evaluate u c0)))%nat
    /\ finalZ (evaluate u c0) = orbit u c0 n.
Proof.
  pose proof (iterate_on_orbit (u_maxIter u) (u_type u) (eff_power u)
                (eff_bailout u) (init_c u c0) loop_cap 0 (init_z u c0)) as H.
  unfold evaluate, orbit. fold (run u c0) in H.
  destruct (run u c0) as [i z]. cbn [fst snd iterationCount finalZ] in *.
  rewrite Nat.sub_0_r in H. destruct H as [H | [H _]].
  - exists i. split; [lia | exact H].
  - exists (S i). split; [lia | exact H].
Qed.

Lemma escapes_spec (kind : FractalType) (u : Uniforms) (c0 : vec2) (k : nat) :
  u_type u = type_code kind ->
  escapes_at u c0 k
  <-> spec_escapes_at kind (eff_power u) (eff_bailout u) (u_juliaC u) c0 k.
Proof.
  intros H. unfold escapes_at, spec_escapes_at.
  now rewrite (orbit_spec kind u c0 (S k) H).
Qed.

(** The evaluator against the sequence of the specification. *)
Lemma evaluate_spec_escape (kind : FractalType) (u : Uniforms) (c0 : vec2)
    (i : nat) :
  u_type u = type_code kind ->
  (Z.of_nat i < u_maxIter u)%Z -> (Z.of_nat i < 100000)%Z ->
  (forall j, (j < i)%nat ->
     ~ spec_escapes_at kind (eff_power u) (eff_bailout u) (u_juliaC u) c0 j) ->
  spec_escapes_at kind (eff_power u) (eff_bailout u) (u_juliaC u) c0 i ->
  evaluate u c0
  = {| escaped := true; iterationCount := i;
       finalZ := spec_orbit kind (eff_power u) (u_juliaC u) c0 (S i) |}.
Proof.
  intros H Hi Hc Hno Hesc. unfold evaluate.
  rewrite (run_escape u c0 i Hi (loop_cap_lt i Hc)).
  - assert (Hlt : (u_maxIter u <=? Z.of_nat i)%Z = false)
      by (apply Z.leb_gt; lia).
    rewrite Hlt. cbn [negb]. now rewrite (orbit_spec kind u c0 (S i) H).
  - intros j Hj He. apply (Hno j Hj). now apply (escapes_spec kind).
  - now apply (escapes_spec kind).
Qed.

Lemma evaluate_spec_budget (kind : FractalType) (u : Uniforms) (c0 : vec2) :
  u_type u = type_code kind ->
  (u_maxIter u <= 100000)%Z ->
  (forall j, (j < Z.to_nat (u_maxIter u))%nat ->
     ~ spec_escapes_at kind (eff_power u) (eff_bailout u) (u_juliaC u) c0 j) ->
  evaluate u c0
  = {| escaped := false; iterationCount := Z.to_nat (u_maxIter u);
       finalZ := spec_orbit kind (eff_power u) (u_juliaC u) c0
                            (Z.to_nat (u_maxIter u)) |}.
Proof.
  intros H Hcap Hno. unfold evaluate.
  rewrite (run_budget u c0 Hcap).
  - assert (Hle : (u_maxIter u <=? Z.of_nat (Z.to_nat (u_maxIter u)))%Z = true)
      by (apply Z.leb_le; lia).
    rewrite Hle. cbn [negb]. now rewrite (orbit_spec kind u c0 _ H).
  - intros j Hj He. apply (Hno j Hj). now apply (escapes_spec kind).
Qed.

Lemma evaluate_spec_cap (kind : FractalType) (u : Uniforms) (c0 : vec2) :
  u_type u = type_code kind ->
  (100000 < u_maxIter u)%Z ->
  (forall j, (j < loop_cap)%nat ->
     ~ spec_escapes_at kind (eff_power u) (eff_bailout u) (u_juliaC u) c0 j) ->
  evaluate u c0
  = {| escaped := true; iterationCount := loop_cap;
       finalZ := spec_orbit kind (eff_power u) (u_juliaC u) c0 loop_cap |}.
Proof.
  intros H Hcap Hno. unfold evaluate.
  rewrite (run_cap u c0 ltac:(lia)).
  - assert (Hlt : (u_maxIter u <=? Z.of_nat loop_cap)%Z = false)
      by (rewrite loop_cap_value; apply Z.leb_gt; lia).
    rewrite Hlt. cbn [negb]. now rewrite (orbit_spec kind u c0 _ H).
  - intros j Hj He. apply (Hno j Hj). now apply (escapes_spec kind).
Qed.

(** C7.  A shader whose [u_type] is the code of a fractal kind iterates
    the sequence the specification gives for that kind.  Mandelbrot and
    burning ship take [c = c0] and [z0 = 0], Julia takes [c] to be the
    configured constant and [z0 = c0]; the burning ship reflects [z] into
    the first quadrant before each power step and the others do not.  The
    evaluator walks along that sequence and nothing else decides its
    result: when the bailout test first succeeds in an iteration [i]
    within the budget (and below the 100000 of the loop), the evaluator
    reports an escape at [i] with the [z] of the sequence after iteration
    [i]; when no iteration within a budget of at most 100000 passes the
    test, it reports no escape, the budget as the count and the [z] of
    the sequence after that many iterations; and when the budget is
    larger and none of the first 100000 iterations passes the test, it
    stops at the count 100000 with the [z] of the sequence after 100000
    iterations. *)
Theorem kind_initialisation (kind : FractalType) (u : Uniforms) (c0 : vec2) :
  u_type u = type_code kind ->
  (init_c u c0 = spec_c kind (u_juliaC u) c0 /\
   init_z u c0 = spec_z0 kind c0 /\
   (forall z, step (u_type u) (eff_power u) (init_c u c0) z
              = spec_step kind (eff_power u) (spec_c kind (u_juliaC u) c0) z)) /\
  (forall i : nat,
     (Z.of_nat i < u_maxIter u)%Z -> (Z.of_nat i < 100000)%Z ->
     (forall j, (j < i)%nat ->
        ~ spec_escapes_at kind (eff_power u) (eff_bailout u) (u_juliaC u)
            c0 j) ->
     spec_escapes_at kind (eff_power u) (eff_bailout u) (u_juliaC u) c0 i ->
     evaluate u c0
     = {| escaped := true; iterationCount := i;
          finalZ := spec_orbit kind (eff_power u) (u_juliaC u) c0 (S i) |}) /\
  ((u_maxIter u <= 100000)%Z ->
   (forall j, (j < Z.to_nat (u_maxIter u))%nat ->
      ~ spec_escapes_at kind (eff_power u) (eff_bailout u) (u_juliaC u)
          c0 j) ->
   evaluate u c0
   = {| escaped := false; iterationCount := Z.to_nat (u_maxIter u);
        finalZ := spec_orbit kind (eff_power u) (u_juliaC u) c0
                             (Z.to_nat (u_maxIter u)) |}) /\
  ((100000 < u_maxIter u)%Z ->
   (forall j, (j < loop_cap)%nat ->
      ~ spec_escapes_at kind (eff_power u) (eff_bailout u) (u_juliaC u)
          c0 j) ->
   Z.of_nat (iterationCount (evaluate u c0)) = 100000%Z /\
   finalZ (evaluate u c0)
   = spec_orbit kind (eff_power u) (u_juliaC u) c0
                (iterationCount (evaluate u c0))).
Proof.
  intros H. destruct (init_spec kind u c0 H) as [Hc Hz].
  split; [|split; [|split]].
  - split; [exact Hc|]. split; [exact Hz|].
    intros z. rewrite Hc, H. apply step_spec.
  - intros i. now apply evaluate_spec_escape.
  - now apply evaluate_spec_budget.
  - intros Hcap Hno. rewrite (evaluate_spec_cap kind u c0 H Hcap Hno).
    cbn [iterationCount finalZ]. split; [apply loop_cap_value | reflexivity].
Qed.

(** The built-ins at the points of the two examples below. *)
Lemma pow_two (x : R) : 0 <= x -> pow x 2 = x * x.
Proof.
  intros Hx. unfold pow. destruct (Req_dec_T x 0) as [->|Hne]; [ring|].
  change 2 with (INR 2). rewrite Rpower_pow by lra. simpl. ring.
Qed.

Lemma length_sqr (z : vec2) : length z * length z = dot z z.
Proof.
  unfold length. apply sqrt_sqrt. unfold dot.
  pose proof (Rle_0_sqr (fst z)). pose proof (Rle_0_sqr (snd z)).
  unfold Rsqr in *. lra.
Qed.

Lemma length_nonneg (z : vec2) : 0 <= length z.
Proof. unfold length. apply sqrt_pos. Qed.

(** One step of the Julia mode from the point 3. *)
Lemma julia_step_3 :
  power_add 2 (- 8 / 10, 156 / 1000) (3, 0) = (82 / 10, 156 / 1000).
Proof.
  unfold power_add. cbn [fst snd].
  rewrite (pow_two _ (length_nonneg _)), length_sqr.
  assert (Ha : atan2 0 3 = 0).
  { unfold atan2. destruct (Rlt_dec 0 3) as [_|Hn]; [|exfalso; lra].
    replace (0 / 3) with 0 by lra. apply atan_0. }
  rewrite Ha, Rmult_0_r, cos_0, sin_0. unfold dot. cbn [fst snd].
  f_equal; lra.
Qed.

(** One step of the burning ship from the point [1.4 - 1.4i]: the
    reflection takes it to [1.4 + 1.4i], whose square is [3.92i]. *)
Lemma ship_step :
  power_add 2 (7 / 5, - 7 / 5) (reflect (7 / 5, - 7 / 5)) = (7 / 5, 63 / 25).
Proof.
  unfold power_add, reflect. cbn [fst snd].
  rewrite (Rabs_pos_eq (7 / 5)) by lra.
  rewrite (Rabs_left (- 7 / 5)) by lra.
  replace (- (- 7 / 5)) with (7 / 5) by lra.
  rewrite (pow_two _ (length_nonneg _)), length_sqr.
  assert (Ha : atan2 (7 / 5) (7 / 5) = PI / 4).
  { unfold atan2. destruct (Rlt_dec 0 (7 / 5)) as [_|Hn]; [|exfalso; lra].
    replace (7 / 5 / (7 / 5)) with 1 by (field; lra). apply atan_1. }
  rewrite Ha. replace (2 * (PI / 4)) with (PI / 2) by lra.
  rewrite cos_PI2, sin_PI2. unfold dot. cbn [fst snd].
  f_equal; lra.
Qed.

Lemma ship_start :
  power_add 2 (7 / 5, - 7 / 5) (reflect (0, 0)) = (7 / 5, - 7 / 5).
Proof.
  unfold power_add, reflect. cbn [fst snd]. rewrite Rabs_R0.
  rewrite (pow_two _ (length_nonneg _)), length_sqr.
  unfold dot. cbn [fst snd]. f_equal; lra.
Qed.

Lemma julia_eff : eff_power julia_uniforms = 2 /\ eff_bailout julia_uniforms = 4.
Proof.
  unfold eff_power, eff_bailout.
  change (u_power julia_uniforms) with 2.
  change (u_bailout julia_uniforms) with 4.
  split; [apply max_left | apply max_right]; lra.
Qed.

Lemma ship_eff : eff_power ship_uniforms = 2 /\ eff_bailout ship_uniforms = 2.
Proof.
  unfold eff_power, eff_bailout.
  change (u_power ship_uniforms) with 2.
  change (u_bailout ship_uniforms) with 2.
  split; apply max_left; lra.
Qed.

(** Two runs of the evaluator.  In the Julia mode the point 3 escapes in
    iteration 0 with [z = 3^2 + c] for the configured constant
    [c = -0.8 + 0.156i]: the pixel's point is the start value.  In the
    burning-ship mode the point [1.4 - 1.4i] escapes in iteration 1 with
    [z = (1.4 + 1.4i)^2 + c0 = 1.4 + 2.52i]: [z] starts at 0 and is
    reflected before it is squared. *)
Lemma kind_initialisation_witness :
  evaluate julia_uniforms (3, 0)
  = {| escaped := true; iterationCount := 0;
       finalZ := (82 / 10, 156 / 1000) |} /\
  evaluate ship_uniforms (7 / 5, - 7 / 5)
  = {| escaped := true; iterationCount := 1;
       finalZ := (7 / 5, 63 / 25) |}.
Proof.
  destruct julia_eff as [Hjp Hjb]. destruct ship_eff as [Hsp Hsb].
  split.
  - destruct (kind_initialisation julia julia_uniforms (3, 0) eq_refl)
      as (_ & Hesc & _).
    rewrite (Hesc 0%nat).
    + rewrite Hjp. cbn [spec_orbit Nat.iter nat_rect spec_step spec_c spec_z0].
      change (u_juliaC julia_uniforms) with (- 8 / 10, 156 / 1000).
      now rewrite julia_step_3.
    + apply Z.ltb_lt. reflexivity.
    + apply Z.ltb_lt. reflexivity.
    + intros j Hj. lia.
    + unfold spec_escapes_at. rewrite Hjp, Hjb.
      cbn [spec_orbit Nat.iter nat_rect spec_step spec_c spec_z0].
      change (u_juliaC julia_uniforms) with (- 8 / 10, 156 / 1000).
      rewrite julia_step_3. unfold dot. cbn [fst snd]. lra.
  - destruct (kind_initialisation burning_ship ship_uniforms (7 / 5, - 7 / 5)
                eq_refl) as (_ & Hesc & _).
    rewrite (Hesc 1%nat).
    + rewrite Hsp. cbn [spec_orbit Nat.iter nat_rect spec_step spec_c spec_z0].
      now rewrite ship_start, ship_step.
    + apply Z.ltb_lt. reflexivity.
    + apply Z.ltb_lt. reflexivity.
    + intros j Hj. assert (j = 0%nat) as -> by lia.
      unfold spec_escapes_at. rewrite Hsp, Hsb.
      cbn [spec_orbit Nat.iter nat_rect spec_step spec_c spec_z0].
      rewrite ship_start. unfold dot. cbn [fst snd]. lra.
    + unfold spec_escapes_at. rewrite Hsp, Hsb.
      cbn [spec_orbit Nat.iter nat_rect spec_step spec_c spec_z0].
      rewrite ship_start, ship_step. unfold dot. cbn [fst snd]. lra.
Defined.

(** The instrumented mapper agrees with the mapper. *)
Lemma pixelToComplex_checked_sound (u : Uniforms) (fragPx v : vec2) :
  pixelToComplex_checked u fragPx = Some v -> pixelToComplex u fragPx = v.
Proof.
  unfold pixelToComplex_checked, pixelToComplex, checked_div.
  destruct (Req_dec_T (max 1 (snd (u_viewSize u))) 0); [discriminate|].
  destruct (Req_dec_T (fst (u_viewSize u) / max 1 (snd (u_viewSize u))) 0);
    [discriminate|].
  destruct (Req_dec_T (fst (u_viewSize u)) 0); [discriminate|].
  destruct (Req_dec_T (snd (u_viewSize u)) 0); [discriminate|].
  intros H. now injection H.
Qed.








End MapperFacts.

Module ExportFacts.
Import GLSL Shader Orbit State Renderer Inputs.
Import GLSLFacts LoopFacts EvaluatorFacts PixelFacts.

Local Open Scope string_scope.

Lemma tile_order_length (tilesX tilesY : nat) :
  List.length (tile_order tilesX tilesY) = (tilesX * tilesY)%nat.
Proof.
  unfold tile_order. generalize 0%nat at 2.
  induction tilesY as [|n IH]; intros s; simpl.
  - lia.
  - rewrite length_app, length_map, length_seq, IH. lia.
Qed.

Section TilesLoop.

Variables (r : GLRenderer) (state : AppState) (opts : ExportOpts).
Variables (tile total : nat).

(** The flag is read once per tile, before the tile is rendered: when it
    is first found set after [k] tiles, the loop ends there. *)
Lemma tiles_loop_aborted (todo : list (nat * nat)) (done k : nat)
    (off : Canvas) (log : list R) :
  (done <= k)%nat -> (k - done < List.length todo)%nat ->
  signal_aborted opts k = true ->
  (forall j, (done <= j < k)%nat -> signal_aborted opts j = false) ->
  outcome (tiles_loop r state opts tile total todo done off log)
  = Rejected "aborted" /\
  List.length (progress (tiles_loop r state opts tile total todo done off log))
  = (List.length log + (k - done))%nat.
Proof.
  revert done off log.
  induction todo as [|[tx ty] rest IH]; intros done off log Hk Hlen Hab Hno.
  - simpl in Hlen. lia.
  - cbn [tiles_loop]. destruct (Nat.eq_dec done k) as [->|Hne].
    + rewrite Hab. cbn [outcome progress]. split; [reflexivity | lia].
    + rewrite (Hno done) by lia.
      destruct (IH (S done) (export_tile r state opts tile tx ty off)
                  (log ++ [INR (S done) / INR total])%list) as [Ho Hp].
      * lia.
      * simpl in Hlen. lia.
      * exact Hab.
      * intros j Hj. apply Hno. lia.
      * split; [exact Ho|]. rewrite Hp, length_app. simpl. lia.
Qed.

(** When the flag is never found set, every tile is rendered, in order. *)
Lemma tiles_loop_completed (todo : list (nat * nat)) (done : nat)
    (off : Canvas) (log : list R) :
  (forall j, (done <= j < done + List.length todo)%nat ->
             signal_aborted opts j = false) ->
  outcome (tiles_loop r state opts tile total todo done off log)
  = Resolved (fold_left (fun c t => export_tile r state opts tile
                                              (fst t) (snd t) c) todo off).
Proof.
  revert done off log.
  induction todo as [|[tx ty] rest IH]; intros done off log Hno.
  - reflexivity.
  - cbn [tiles_loop fold_left fst snd]. rewrite (Hno done) by (simpl; lia).
    apply IH. intros j Hj. apply Hno. simpl. lia.
Qed.

End TilesLoop.

(** C5.  Cancellation.  [exportTiled] reads the abort flag before each
    tile.  When the flag is first found set after [k] tiles, with tiles
    still to do, the promise is rejected with the error "aborted": no
    canvas reaches the caller, exactly [k] tiles were rendered and
    reported, and [exportImage] tells the three ways of settling apart: it
    saves the canvas of a resolved promise, stays silent on "aborted", and
    logs every other error. *)
Theorem cancellation (r : GLRenderer) (state : AppState) (opts : ExportOpts)
    (k : nat) :
  (k < ceil_div (opt_width opts) (tile_size opts)
       * ceil_div (opt_height opts) (tile_size opts))%nat ->
  signal_aborted opts k = true ->
  (forall j, (j < k)%nat -> signal_aborted opts j = false) ->
  outcome (exportTiled r state opts) = Rejected "aborted" /\
  List.length (progress (exportTiled r state opts)) = k /\
  Sidebar.exportImage (outcome (exportTiled r state opts)) = Sidebar.Silent /\
  (forall cnv, Sidebar.exportImage (Resolved cnv) = Sidebar.Download cnv) /\
  (forall message, message <> "aborted" ->
     Sidebar.exportImage (Rejected message) = Sidebar.ConsoleError message).
Proof.
  intros Hk Hab Hno.
  destruct (tiles_loop_aborted r state opts (tile_size opts)
              (ceil_div (opt_width opts) (tile_size opts)
               * ceil_div (opt_height opts) (tile_size opts))
              (tile_order (ceil_div (opt_width opts) (tile_size opts))
                          (ceil_div (opt_height opts) (tile_size opts)))
              0 k (createCanvas (opt_width opts) (opt_height opts)) [])
    as [Ho Hp].
  - lia.
  - rewrite tile_order_length. lia.
  - exact Hab.
  - intros j Hj. apply Hno. lia.
  - unfold exportTiled. rewrite Ho, Hp.
    split; [reflexivity|]. split; [simpl; lia|]. split; [reflexivity|].
    split; [reflexivity|].
    intros message Hm. unfold Sidebar.exportImage.
    apply String.eqb_neq in Hm. now rewrite Hm.
Qed.

(** The 1 x 2 canvas in tiles of 1, cancelled after the first tile. *)
Lemma cancellation_witness :
  outcome (exportTiled white_renderer seam_state (opts_abort_after 1))
  = Rejected "aborted" /\
  List.length (progress (exportTiled white_renderer seam_state
                                     (opts_abort_after 1))) = 1%nat.
Proof.
  destruct (cancellation white_renderer seam_state (opts_abort_after 1) 1)
    as (Ho & Hp & _).
  - apply Nat.ltb_lt. reflexivity.
  - reflexivity.
  - intros j Hj. destruct j; [reflexivity | lia].
  - split; [exact Ho | exact Hp].
Defined.


(** The seam example. *)

Ltac seam_simpl :=
  unfold pixelToComplex, tile_uniforms, seam_state, mandel_state, opts_1x2;
  cbn [u_center u_scale u_viewSize u_tileOffset opt_width opt_height
       view cx cy scale fst snd Nat.mul Nat.add];
  try change (INR 0) with 0; try change (INR 1) with 1;
  try change (INR 2) with 2.

Lemma seam_point_tiled_top :
  pixelToComplex (tile_uniforms white_renderer seam_state (opts_1x2 1) 1 0 0)
                 (0 + 1 / 2, 0 + 1 / 2) = (0, 0).
Proof.
  seam_simpl. rewrite (max_right 1 2) by lra. f_equal; field.
Qed.

Lemma seam_point_tiled_bottom :
  pixelToComplex (tile_uniforms white_renderer seam_state (opts_1x2 1) 1 0 1)
                 (0 + 1 / 2, 0 + 1 / 2) = (0, 4).
Proof.
  seam_simpl. rewrite (max_right 1 2) by lra. f_equal; field.
Qed.

Lemma seam_point_single_top :
  pixelToComplex (tile_uniforms white_renderer seam_state (opts_1x2 2) 2 0 0)
                 (0 + 1 / 2, 1 + 1 / 2) = (0, 4).
Proof.
  seam_simpl. rewrite (max_right 1 2) by lra. f_equal; field.
Qed.

Lemma seam_point_single_bottom :
  pixelToComplex (tile_uniforms white_renderer seam_state (opts_1x2 2) 2 0 0)
                 (0 + 1 / 2, 0 + 1 / 2) = (0, 0).
Proof.
  seam_simpl. rewrite (max_right 1 2) by lra. f_equal; field.
Qed.

Lemma seam_tiled_outcome :
  outcome (exportTiled white_renderer seam_state (opts_1x2 1))
  = Resolved
      (export_tile white_renderer seam_state (opts_1x2 1) 1 0 1
         (export_tile white_renderer seam_state (opts_1x2 1) 1 0 0
            (createCanvas 1 2))).
Proof. reflexivity. Qed.

Lemma seam_single_outcome :
  outcome (exportTiled white_renderer seam_state (opts_1x2 2))
  = Resolved
      (export_tile white_renderer seam_state (opts_1x2 2) 2 0 0
         (createCanvas 1 2)).
Proof. reflexivity. Qed.

Lemma seam_interior (tile : positive) (n tx ty : nat) (fragCoord : vec2) :
  pixelToComplex (tile_uniforms white_renderer seam_state (opts_1x2 tile)
                                n tx ty) fragCoord = (0, 0) ->
  main (tile_uniforms white_renderer seam_state (opts_1x2 tile) n tx ty)
       fragCoord = interior_color.
Proof.
  intros Hp. apply main_interior.
  - apply Z.leb_le. reflexivity.
  - reflexivity.
  - rewrite Hp. now apply bounded_origin.
Qed.

Lemma seam_white (tile : positive) (n tx ty : nat) (fragCoord : vec2) :
  pixelToComplex (tile_uniforms white_renderer seam_state (opts_1x2 tile)
                                n tx ty) fragCoord = (0, 4) ->
  main (tile_uniforms white_renderer seam_state (opts_1x2 tile) n tx ty)
       fragCoord = (1, 1, 1, 1).
Proof.
  intros Hp.
  destruct (escape_time_4i
              (tile_uniforms white_renderer seam_state (opts_1x2 tile)
                             n tx ty)) as (t & nu & He);
    try reflexivity.
  apply (main_white _ _ t nu); try reflexivity. now rewrite Hp.
Qed.

(** C1, at its failing input.  A canvas 1 pixel wide and 2 pixels high,
    centred at [2i]: exported as one tile, its top pixel shows the point
    [4i] (escaped, white) and its bottom pixel the point 0 (interior);
    exported in two tiles of height 1, the two pixels are swapped.  Each
    tile is rendered with the rows of the image counted upwards from the
    bottom ([gl_FragCoord]) and is placed at the row offset counted
    downwards from the top ([drawImage]). *)
Theorem tile_rows_misplaced :
  exists tiled single : Canvas,
    outcome (exportTiled white_renderer seam_state (opts_1x2 1))
    = Resolved tiled /\
    outcome (exportTiled white_renderer seam_state (opts_1x2 2))
    = Resolved single /\
    pixel tiled 0 0 = interior_color /\
    pixel single 0 0 = (1, 1, 1, 1) /\
    pixel tiled 0 1 = (1, 1, 1, 1) /\
    pixel single 0 1 = interior_color.
Proof.
  eexists. eexists.
  split; [apply seam_tiled_outcome|].
  split; [apply seam_single_outcome|].
  split; [|split; [|split]].
  - change (main (tile_uniforms white_renderer seam_state (opts_1x2 1) 1 0 0)
                 (0 + 1 / 2, 0 + 1 / 2) = interior_color).
    apply seam_interior, seam_point_tiled_top.
  - change (main (tile_uniforms white_renderer seam_state (opts_1x2 2) 2 0 0)
                 (0 + 1 / 2, 1 + 1 / 2) = (1, 1, 1, 1)).
    apply seam_white, seam_point_single_top.
  - change (main (tile_uniforms white_renderer seam_state (opts_1x2 1) 1 0 1)
                 (0 + 1 / 2, 0 + 1 / 2) = (1, 1, 1, 1)).
    apply seam_white, seam_point_tiled_bottom.
  - change (main (tile_uniforms white_renderer seam_state (opts_1x2 2) 2 0 0)
                 (0 + 1 / 2, 0 + 1 / 2) = interior_color).
    apply seam_interior, seam_point_single_bottom.
Qed.

End ExportFacts.

(* ================================================================== *)
(** * The palette builder *)
(* ================================================================== *)

Module PaletteFacts.
Import Palette.

Lemma Math_round_integer (z : Z) : Math_round (IZR z) = z.
Proof.
  unfold Math_round. symmetry. apply Int_part_spec. lra.
Qed.

Lemma to_uint8_byte (v : Z) : (0 <= v <= 255)%Z -> to_uint8 v = v.
Proof. intros H. unfold to_uint8. apply Z.mod_small. lia. Qed.

Lemma clamp01_id (x : R) : 0 <= x <= 1 -> clamp01 x = x.
Proof.
  intros H. unfold clamp01. rewrite (Rmax_right 0 x) by lra.
  apply Rmin_right. lra.
Qed.

Lemma lerp_start (a b : R) : lerp a b 0 = a.
Proof. unfold lerp. ring. Qed.

Lemma lerp_end (a b : R) : lerp a b 1 = b.
Proof. unfold lerp. ring. Qed.

Lemma cosine_start (a b : R) : cosineInterpolate a b 0 = a.
Proof.
  unfold cosineInterpolate. rewrite Rmult_0_r, cos_0. field.
Qed.

Lemma cosine_end (a b : R) : cosineInterpolate a b 1 = b.
Proof.
  unfold cosineInterpolate. rewrite Rmult_1_r, cos_PI. field.
Qed.

(** Lifting a byte to linear light and back gives the byte. *)
Lemma perceptual_roundtrip (v : Z) :
  (0 <= v <= 255)%Z ->
  Math_round (clamp01 (Math_pow (Math_pow (IZR v / 255) 2.2) (1 / 2.2)) * 255)
  = v.
Proof.
  intros Hv. destruct (Z.eq_dec v 0) as [->|Hne].
  - unfold Math_pow.
    destruct (Req_dec_T (0 / 255) 0) as [_|E]; [|exfalso; apply E; lra].
    destruct (Req_dec_T 0 0) as [_|E]; [|contradiction].
    rewrite clamp01_id by lra.
    replace (0 * 255) with (IZR 0) by lra. apply Math_round_integer.
  - assert (Hx : 0 < IZR v / 255 <= 1).
    { assert (1 <= IZR v) by (apply IZR_le; lia).
      assert (IZR v <= 255) by (apply IZR_le; lia).
      split; [apply Rdiv_lt_0_compat; lra|].
      apply Rmult_le_reg_r with 255; [lra|]. 
      replace (IZR v / 255 * 255) with (IZR v) by (field; lra). lra. }
    unfold Math_pow.
    destruct (Req_dec_T (IZR v / 255) 0) as [E|_]; [lra|].
    assert (Hp : 0 < Rpower (IZR v / 255) 2.2) by apply exp_pos.
    destruct (Req_dec_T (Rpower (IZR v / 255) 2.2) 0) as [E|_]; [lra|].
    rewrite Rpower_mult.
    replace (2.2 * (1 / 2.2)) with 1 by lra.
    rewrite Rpower_1 by lra. rewrite clamp01_id by lra.
    replace (IZR v / 255 * 255) with (IZR v) by (field; lra).
    apply Math_round_integer.
Qed.

Lemma interpRGB_start (a b : Z * Z * Z) (mode : Interpolation) :
  byte_rgb a -> interpRGB a b 0 mode = a.
Proof.
  destruct a as [[a0 a1] a2], b as [[b0 b1] b2]. intros (H0 & H1 & H2).
  destruct mode; cbn [interpRGB].
  - now rewrite !lerp_start, !Math_round_integer.
  - now rewrite !cosine_start, !Math_round_integer.
  - now rewrite !lerp_start, !perceptual_roundtrip.
Qed.

Lemma interpRGB_end (a b : Z * Z * Z) (mode : Interpolation) :
  byte_rgb b -> interpRGB a b 1 mode = b.
Proof.
  destruct a as [[a0 a1] a2], b as [[b0 b1] b2]. intros (H0 & H1 & H2).
  destruct mode; cbn [interpRGB].
  - now rewrite !lerp_end, !Math_round_integer.
  - now rewrite !cosine_end, !Math_round_integer.
  - now rewrite !lerp_end, !perceptual_roundtrip.
Qed.


(** [findIndex] skips the stops that fail the test and stops at the first
    that passes it. *)
Lemma findIndex_from_app (p : Stop -> bool) (before : list Stop) (s : Stop)
    (after : list Stop) (i : Z) :
  Forall (fun x => p x = false) before -> p s = true ->
  findIndex_from p (before ++ s :: after) i
  = (i + Z.of_nat (List.length before))%Z.
Proof.
  revert i. induction before as [|x before IH]; intros i Hb Hs; simpl.
  - rewrite Hs. lia.
  - inversion Hb as [|? ? Hx Hrest]; subst. rewrite Hx.
    rewrite IH by assumption. lia.
Qed.

Lemma findIndex_from_bound (p : Stop -> bool) (stops : list Stop) (i : Z) :
  (0 <= i)%Z ->
  (findIndex_from p stops i < i + Z.of_nat (List.length stops))%Z
  /\ (findIndex_from p stops i = -1 \/ i <= findIndex_from p stops i)%Z.
Proof.
  revert i. induction stops as [|s stops IH]; intros i Hi; simpl.
  - lia.
  - destruct (p s); [lia|]. specialize (IH (i + 1)%Z ltac:(lia)). lia.
Qed.

(** On a table that is not empty, the loop body never fails. *)
Lemma sample_at_defined (stops : list Stop) (mode : Interpolation)
    (t : option R) :
  stops <> [] -> exists c, sample_at stops mode t = Some c.
Proof.
  intros Hne. unfold sample_at, findIndex.
  pose proof (findIndex_from_bound (fun s => ge_num (stop_t s) t) stops 0
                ltac:(lia)) as [Hlt Hge].
  set (idx := findIndex_from (fun s => ge_num (stop_t s) t) stops 0) in *.
  clearbody idx.
  assert (Hlen : (0 < List.length stops)%nat)
    by (destruct stops; [contradiction | simpl; lia]).
  destruct (nth_error stops (Z.to_nat (Z.max 1 idx - 1))) as [s0|] eqn:E.
  - destruct t; eexists; reflexivity.
  - apply nth_error_None in E. lia.
Qed.

Lemma ge_num_true (a t : R) : a >= t -> ge_num a (Some t) = true.
Proof. intros H. unfold ge_num. now destruct (Rge_dec a t). Qed.

Lemma ge_num_false (a t : R) : a < t -> ge_num a (Some t) = false.
Proof.
  intros H. unfold ge_num. destruct (Rge_dec a t); [lra | reflexivity].
Qed.

(** At position 0 the sample is the colour of the first stop. *)
Lemma sample_at_start (stops : list Stop) (mode : Interpolation) :
  gradient stops ->
  sample_at stops mode (Some 0) = Some (first_color stops).
Proof.
  intros (s_first & mid & s_last & -> & Hf & Hl & Hmid & Hbf & Hbl).
  unfold sample_at, findIndex. cbn [findIndex_from].
  rewrite ge_num_true by lra.
  cbn [Z.max Z.compare Z.sub Z.add Z.opp Z.pos_sub Z.to_nat nth_error
       first_color].
  match goal with |- context [Rmax ?a ?b] => generalize (Rmax a b) end.
  intros m. rewrite Hf.
  replace ((0 - 0) / m) with 0 by (unfold Rdiv; ring).
  rewrite clamp01_id by lra. now rewrite interpRGB_start.
Qed.

Lemma last_snoc (l : list Stop) (s d : Stop) : last (l ++ [s]) d = s.
Proof. apply last_last. Qed.

(** At position 1 it is the colour of the last stop. *)
Lemma sample_at_end (stops : list Stop) (mode : Interpolation) :
  gradient stops ->
  sample_at stops mode (Some 1) = Some (last_color stops).
Proof.
  intros (s_first & mid & s_last & -> & Hf & Hl & Hmid & Hbf & Hbl).
  assert (Hidx : findIndex (fun s => ge_num (stop_t s) (Some 1))
                           (s_first :: mid ++ [s_last])
                 = Z.of_nat (S (List.length mid))).
  { unfold findIndex.
    rewrite (findIndex_from_app _ (s_first :: mid) s_last [] 0).
    - simpl List.length. lia.
    - constructor; [apply ge_num_false; lra|].
      eapply Forall_impl; [|exact Hmid]. intros s Hs.
      apply ge_num_false. lra.
    - apply ge_num_true. lra. }
  unfold sample_at. rewrite Hidx.
  replace (Z.to_nat (Z.max 1 (Z.of_nat (S (List.length mid))) - 1))
    with (List.length mid) by lia.
  replace (Z.to_nat (Z.max 1 (Z.of_nat (S (List.length mid)))))
    with (S (List.length mid)) by lia.
  assert (Hlast : nth_error (s_first :: mid ++ [s_last])
                            (S (List.length mid)) = Some s_last).
  { cbn [nth_error]. rewrite nth_error_app2 by lia.
    now rewrite Nat.sub_diag. }
  rewrite Hlast.
  assert (Hprev : exists s0,
             nth_error (s_first :: mid ++ [s_last]) (List.length mid)
             = Some s0 /\ stop_t s0 <= 9 / 10).
  { destruct mid as [|m mid'] using rev_ind.
    - exists s_first. split; [reflexivity | lra].
    - exists m. split.
      + change (s_first :: (mid' ++ [m]) ++ [s_last])
          with ((s_first :: mid' ++ [m]) ++ [s_last]).
        rewrite nth_error_app1 by (simpl; rewrite !length_app; simpl; lia).
        rewrite length_app. simpl List.length.
        replace (List.length mid' + 1)%nat with (S (List.length mid')) by lia.
        cbn [nth_error]. rewrite nth_error_app2 by lia.
        now rewrite Nat.sub_diag.
      + apply Forall_app in Hmid. destruct Hmid as [_ Hm].
        inversion Hm; subst. lra. }
  destruct Hprev as (s0 & -> & Hs0).
  unfold last_color.
  change (s_first :: mid ++ [s_last]) with ((s_first :: mid) ++ [s_last]).
  rewrite last_snoc.
  rewrite Hl, (Rmax_right (1 / 1000000) (1 - stop_t s0)) by lra.
  replace ((1 - stop_t s0) / (1 - stop_t s0)) with 1 by (field; lra).
  rewrite clamp01_id by lra. now rewrite interpRGB_end.
Qed.


(** The positions of the first and of the last sample. *)
Lemma INR_ge_2 (n : nat) : 2 <= INR (S (S n)).
Proof.
  change 2 with (INR 2). apply le_INR. lia.
Qed.

Lemma position_first (cfg : PaletteConfig) (n : nat) :
  position cfg (S (S n)) 0 = Some (if reverse cfg then 1 else 0).
Proof.
  pose proof (INR_ge_2 n) as H2.
  unfold position, js_div. change (INR 0) with 0.
  destruct (Req_dec_T (INR (S (S n)) - 1) 0) as [E|_]; [lra|].
  destruct (reverse cfg); cbn [option_map]; f_equal; field; lra.
Qed.

Lemma position_last (cfg : PaletteConfig) (n : nat) :
  position cfg (S (S n)) (S n) = Some (if reverse cfg then 0 else 1).
Proof.
  pose proof (INR_ge_2 n) as H2.
  unfold position, js_div.
  replace (INR (S n)) with (INR (S (S n)) - 1)
    by (rewrite (S_INR (S n)); ring).
  destruct (Req_dec_T (INR (S (S n)) - 1) 0) as [E|_]; [lra|].
  destruct (reverse cfg); cbn [option_map]; f_equal; field; lra.
Qed.

(** The loop writes four bytes per sample, the fourth of them 255. *)
Lemma fill_defined (stops : list Stop) (cfg : PaletteConfig) (size i n : nat) :
  stops <> [] -> exists out, fill stops cfg size i n = Some out.
Proof.
  intros Hne. revert i. induction n as [|n IH]; intros i; cbn [fill].
  - eexists. reflexivity.
  - destruct (sample_at_defined stops (interpolation cfg)
                (position cfg size i) Hne) as [[[r g] b] Hs].
    unfold sample. rewrite Hs.
    destruct (IH (S i)) as [rest Hrest]. rewrite Hrest.
    eexists. reflexivity.
Qed.

Lemma fill_length (stops : list Stop) (cfg : PaletteConfig) (size i n : nat)
    (out : list Z) :
  fill stops cfg size i n = Some out -> List.length out = (4 * n)%nat.
Proof.
  revert i out. induction n as [|n IH]; intros i out; cbn [fill].
  - intros H. injection H as <-. reflexivity.
  - destruct (sample stops cfg size i) as [[[r g] b]|]; [|discriminate].
    destruct (fill stops cfg size (S i) n) as [rest|] eqn:E; [|discriminate].
    intros H. injection H as <-. simpl List.length.
    rewrite (IH (S i) rest E). lia.
Qed.

Lemma texel_skip (a b c d : Z) (rest : list Z) (k : nat) :
  texel (a :: b :: c :: d :: rest) (S k) = texel rest k.
Proof.
  unfold texel. replace (4 * S k)%nat with (S (S (S (S (4 * k))))) by lia.
  reflexivity.
Qed.

Lemma fill_texel (stops : list Stop) (cfg : PaletteConfig) (size i n : nat)
    (out : list Z) (k : nat) :
  fill stops cfg size i n = Some out -> (k < n)%nat ->
  exists r g b,
    sample stops cfg size (i + k) = Some (r, g, b) /\
    texel out k = [to_uint8 r; to_uint8 g; to_uint8 b; 255%Z].
Proof.
  revert i out k. induction n as [|n IH]; intros i out k; cbn [fill].
  - intros _ Hk. lia.
  - destruct (sample stops cfg size i) as [[[r g] b]|] eqn:Es; [|discriminate].
    destruct (fill stops cfg size (S i) n) as [rest|] eqn:E; [|discriminate].
    intros H Hk. injection H as <-. destruct k as [|k].
    + exists r, g, b. rewrite Nat.add_0_r. split; [exact Es | reflexivity].
    + rewrite texel_skip.
      destruct (IH (S i) rest k E ltac:(lia)) as (r' & g' & b' & Hs & Ht).
      exists r', g', b'. split; [|exact Ht].
      replace (i + S k)%nat with (S i + k)%nat by lia. exact Hs.
Qed.

Lemma opaque_bytes (c : Z * Z * Z) :
  byte_rgb c ->
  (let '(r, g, b) := c in [to_uint8 r; to_uint8 g; to_uint8 b; 255%Z])
  = opaque c.
Proof.
  destruct c as [[r g] b]. intros (Hr & Hg & Hb). unfold opaque.
  now rewrite !to_uint8_byte.
Qed.

Lemma gradient_colors (stops : list Stop) :
  gradient stops ->
  stops <> [] /\ byte_rgb (first_color stops) /\ byte_rgb (last_color stops).
Proof.
  intros (s_first & mid & s_last & -> & _ & _ & _ & Hbf & Hbl).
  split; [discriminate|]. split; [exact Hbf|].
  unfold last_color.
  change (s_first :: mid ++ [s_last]) with ((s_first :: mid) ++ [s_last]).
  now rewrite last_snoc.
Qed.

(** The two ends of a texture built from a gradient. *)
Lemma fill_ends (stops : list Stop) (cfg : PaletteConfig) (n : nat) :
  gradient stops ->
  exists out,
    fill stops cfg (S (S n)) 0 (S (S n)) = Some out /\
    texel out 0
    = opaque (if reverse cfg then last_color stops else first_color stops) /\
    texel out (S n)
    = opaque (if reverse cfg then first_color stops else last_color stops).
Proof.
  intros Hg. destruct (gradient_colors stops Hg) as (Hne & Hbf & Hbl).
  destruct (fill_defined stops cfg (S (S n)) 0 (S (S n)) Hne) as [out Hout].
  exists out. split; [exact Hout|].
  destruct (fill_texel _ _ _ _ _ _ 0 Hout ltac:(lia))
    as (r0 & g0 & b0 & Hs0 & Ht0).
  destruct (fill_texel _ _ _ _ _ _ (S n) Hout ltac:(lia))
    as (r1 & g1 & b1 & Hs1 & Ht1).
  rewrite Ht0, Ht1. cbn [Nat.add] in Hs0, Hs1.
  unfold sample in Hs0, Hs1.
  rewrite position_first in Hs0. rewrite position_last in Hs1.
  destruct (reverse cfg).
  - rewrite sample_at_end in Hs0 by assumption.
    rewrite sample_at_start in Hs1 by assumption.
    injection Hs0 as E0. injection Hs1 as E1.
    split.
    + rewrite <- (opaque_bytes _ Hbl), E0. reflexivity.
    + rewrite <- (opaque_bytes _ Hbf), E1. reflexivity.
  - rewrite sample_at_start in Hs0 by assumption.
    rewrite sample_at_end in Hs1 by assumption.
    injection Hs0 as E0. injection Hs1 as E1.
    split.
    + rewrite <- (opaque_bytes _ Hbf), E0. reflexivity.
    + rewrite <- (opaque_bytes _ Hbl), E1. reflexivity.
Qed.


(** Every table of the file is a gradient. *)
Ltac gradient_tac :=
  match goal with
  | |- gradient ?l =>
    exists (hd (mkStop 0 0 0 0) l), (removelast (tl l)),
           (last l (mkStop 0 0 0 0));
    cbv beta iota delta [electric_blue classic_blue fire viridis magma plasma
                         rainbow grayscale hd tl removelast last app];
    cbn [stop_t stop_rgb mkStop byte_rgb];
    repeat split; try reflexivity; try lia;
    repeat constructor; cbn [stop_t mkStop]; lra
  end.

Lemma presets_gradient (name : string) (stops : list Stop) :
  In (name, stops) presets ->
  gradient stops /\ get_property presets name = Stops stops.
Proof.
  unfold presets. cbn [In].
  intros [H|[H|[H|[H|[H|[H|[H|[H|[]]]]]]]]]; injection H as <- <-;
    (split; [gradient_tac | reflexivity]).
Qed.

Local Open Scope string_scope.

(** The texture built for a preset whose table is found and is a
    gradient. *)
Lemma build_gradient (cfg : PaletteConfig) (stops : list Stop) (n : nat) :
  get_property presets (preset cfg) = Stops stops -> gradient stops ->
  exists out,
    buildPaletteTexture cfg (S (S n)) = Returned out /\
    texel out 0
    = opaque (if reverse cfg then last_color stops else first_color stops) /\
    texel out (S n)
    = opaque (if reverse cfg then first_color stops else last_color stops).
Proof.
  intros Hget Hg. destruct (fill_ends stops cfg n Hg) as (out & Hout & H0 & H1).
  exists out. unfold buildPaletteTexture. rewrite Hget. cbn [js_or].
  rewrite Hout. auto.
Qed.

(** C4, amended.  For every built-in preset, every interpolation mode,
    either setting of [reverse] and every size of at least 2: the first
    sample of the texture is the colour of the first stop of the gradient
    and the last sample is the colour of its last stop, the two swapped
    when [reverse] is set; both are opaque, and they are equal when the
    first and the last stop have the same colour. *)
Theorem palette_ends (name : string) (stops : list Stop)
    (cfg : PaletteConfig) (n : nat) :
  In (name, stops) presets -> preset cfg = name ->
  exists out,
    buildPaletteTexture cfg (S (S n)) = Returned out /\
    texel out 0
    = opaque (if reverse cfg then last_color stops else first_color stops) /\
    texel out (S n)
    = opaque (if reverse cfg then first_color stops else last_color stops) /\
    (first_color stops = last_color stops -> texel out 0 = texel out (S n)).
Proof.
  intros Hin Hname. destruct (presets_gradient name stops Hin) as [Hg Hget].
  destruct (build_gradient cfg stops n) as (out & Ho & H0 & H1);
    [now rewrite Hname | exact Hg |].
  exists out. split; [exact Ho|]. split; [exact H0|]. split; [exact H1|].
  intros Hsame. rewrite H0, H1, Hsame. now destruct (reverse cfg).
Qed.

(** The presets that end on the colour they start with. *)
Lemma cyclic_presets :
  first_color electric_blue = last_color electric_blue /\
  first_color classic_blue = last_color classic_blue.
Proof. split; reflexivity. Qed.


(** The fire preset at size 2. *)
Lemma palette_ends_witness :
  exists out,
    buildPaletteTexture Inputs.fire_linear 2 = Returned out /\
    texel out 0 = [0; 0; 0; 255]%Z /\
    texel out 1 = [255; 255; 255; 255]%Z.
Proof.
  destruct (palette_ends "fire" fire Inputs.fire_linear 0)
    as (out & Ho & H0 & H1 & _).
  - right. right. left. reflexivity.
  - reflexivity.
  - exists out. split; [exact Ho|]. split; [exact H0 | exact H1].
Defined.

(** C4 as stated fails on the fire preset: at size 2, linear and not
    reversed, the first sample is the black of the first stop and the last
    sample is the white of the last stop, not the colour of the first. *)
Lemma fire_ends_differ :
  exists out,
    buildPaletteTexture Inputs.fire_linear 2 = Returned out /\
    texel out 0 = opaque (first_color fire) /\
    texel out 1 = [255; 255; 255; 255]%Z /\
    texel out 1 <> opaque (first_color fire) /\
    texel out 1 <> texel out 0.
Proof.
  destruct (presets_gradient "fire" fire) as [Hg Hget].
  { right. right. left. reflexivity. }
  destruct (build_gradient Inputs.fire_linear fire 0 Hget Hg)
    as (out & Ho & H0 & H1).
  cbn [reverse Inputs.fire_linear] in H0, H1.
  exists out. split; [exact Ho|]. split; [exact H0|].
  split; [exact H1|]. rewrite H0, H1. split; discriminate.
Qed.

(** A name that is no key of an object is not an own property of it. *)
Lemma own_property_absent (name : string) (o : list (string * list Stop)) :
  ~ In name (map fst o) -> own_property name o = None.
Proof.
  induction o as [|[k v] o IH]; intros H; [reflexivity|].
  cbn [own_property]. destruct (String.eqb_spec k name) as [E|_].
  - exfalso. apply H. left. exact E.
  - apply IH. intros Hin. apply H. right. exact Hin.
Qed.

Lemma existsb_absent (name : string) (names : list string) :
  ~ In name names -> existsb (String.eqb name) names = false.
Proof.
  induction names as [|k names IH]; intros H; [reflexivity|].
  cbn [existsb]. destruct (String.eqb_spec name k) as [E|_].
  - exfalso. apply H. left. now symmetry.
  - apply IH. intros Hin. apply H. right. exact Hin.
Qed.

(** The loop reads [reverse] and [interpolation] of the configuration,
    not its preset name. *)
Lemma fill_preset (name : string) (stops : list Stop) (cfg : PaletteConfig)
    (size i n : nat) :
  fill stops (Examples.with_preset name cfg) size i n
  = fill stops cfg size i n.
Proof.
  revert i. induction n as [|n IH]; intros i; [reflexivity|].
  cbn [fill]. rewrite IH. reflexivity.
Qed.

(** X5.  A preset name that is neither a key of the table of presets nor
    a member of [Object.prototype] falls back to electric-blue: the
    builder returns a texture, of [size] samples, and it is the texture
    it returns for the same configuration with the preset
    "electric-blue". *)
Theorem unknown_preset_falls_back (cfg : PaletteConfig) (size : nat) :
  ~ In (preset cfg) listPalettePresets ->
  ~ In (preset cfg) object_prototype_names ->
  exists out,
    buildPaletteTexture cfg size = Returned out /\
    buildPaletteTexture (Examples.with_preset "electric-blue" cfg) size
    = Returned out /\
    List.length out = (4 * size)%nat.
Proof.
  intros Hown Hproto.
  assert (Hget : get_property presets (preset cfg) = Undefined).
  { unfold get_property.
    rewrite (own_property_absent _ _ Hown), (existsb_absent _ _ Hproto).
    reflexivity. }
  unfold buildPaletteTexture. rewrite Hget.
  change (get_property presets
            (preset (Examples.with_preset "electric-blue" cfg)))
    with (Stops electric_blue).
  change (get_property presets "electric-blue") with (Stops electric_blue).
  cbn [js_or]. destruct size as [|size].
  - exists []. split; [reflexivity|]. split; reflexivity.
  - rewrite fill_preset.
    destruct (fill_defined electric_blue cfg (S size) 0 (S size)
                ltac:(discriminate)) as [out Hout].
    rewrite Hout. exists out. split; [reflexivity|]. split; [reflexivity|].
    now apply (fill_length electric_blue cfg (S size) 0).
Qed.

(** The preset "sunset" is not a table. *)
Lemma unknown_preset_falls_back_witness :
  exists out,
    buildPaletteTexture Inputs.sunset_linear 2 = Returned out /\
    buildPaletteTexture
      (Examples.with_preset "electric-blue" Inputs.sunset_linear) 2
    = Returned out /\
    List.length out = 8%nat.
Proof.
  apply (unknown_preset_falls_back Inputs.sunset_linear 2).
  - cbn. intros H. repeat destruct H as [H|H]; try discriminate H; exact H.
  - cbn. intros H. repeat destruct H as [H|H]; try discriminate H; exact H.
Defined.

(** X4.  Whenever the preset resolves to a table that is not empty, the
    builder returns [size] samples of four bytes, each with alpha 255. *)
Theorem texture_shape (cfg : PaletteConfig) (stops : list Stop) (size : nat) :
  js_or (get_property presets (preset cfg))
        (get_property presets "electric-blue") = Stops stops ->
  stops <> [] ->
  exists out,
    buildPaletteTexture cfg size = Returned out /\
    List.length out = (4 * size)%nat /\
    forall i, (i < size)%nat -> nth 3 (texel out i) 0%Z = 255%Z.
Proof.
  intros Hget Hne. unfold buildPaletteTexture. rewrite Hget.
  destruct size as [|size].
  - exists []. split; [reflexivity|]. split; [reflexivity|]. intros i Hi. lia.
  - destruct (fill_defined stops cfg (S size) 0 (S size) Hne) as [out Hout].
    rewrite Hout. exists out. split; [reflexivity|].
    split; [now apply (fill_length stops cfg (S size) 0)|].
    intros i Hi.
    destruct (fill_texel _ _ _ _ _ _ i Hout Hi) as (r & g & b & _ & Ht).
    now rewrite Ht.
Qed.

(** The fire preset at size 3. *)
Lemma texture_shape_witness :
  exists out,
    buildPaletteTexture Inputs.fire_linear 3 = Returned out /\
    List.length out = 12%nat /\
    forall i, (i < 3)%nat -> nth 3 (texel out i) 0%Z = 255%Z.
Proof.
  apply (texture_shape Inputs.fire_linear fire 3); [reflexivity | discriminate].
Defined.

(** C10, at its failing input.  [presets] is a plain object, so the
    lookup [presets[cfg.preset]] also finds what the object inherits:
    for the preset name "constructor" it yields a function, which is
    truthy, the fallback to electric-blue is not taken, and the first
    pass through the loop throws on [stops.findIndex]. *)
Theorem inherited_preset_throws (len cyc : R) (rev : bool)
    (mode : Interpolation) (sd : R) (n : nat) :
  buildPaletteTexture
    {| preset := "constructor"; length := len; cycle := cyc;
       reverse := rev; interpolation := mode; seed := sd |} (S n)
  = TypeError "stops.findIndex is not a function".
Proof. reflexivity. Qed.

End PaletteFacts.

Module RasterFacts.
Import GLSL Shader Orbit State Renderer Inputs.
Import GLSLFacts LoopFacts EvaluatorFacts PixelFacts ExportFacts.

(** The tile [(tx, ty)] covers the pixel [(X, Y)] of the canvas. *)
Lemma export_tile_pixel (r : GLRenderer) (state : AppState)
    (opts : ExportOpts) (tile tx ty : nat) (off : Canvas) (X Y : nat) :
  let w := Nat.min tile (opt_width opts - tx * tile) in
  let h := Nat.min tile (opt_height opts - ty * tile) in
  pixel (export_tile r state opts tile tx ty off) X Y
  = if ((tx * tile <=? X) && (X <? tx * tile + w)
        && (ty * tile <=? Y) && (Y <? ty * tile + h))%nat
    then main (tile_uniforms r state opts tile tx ty)
              (INR (X - tx * tile) + 1 / 2,
               INR (h - 1 - (Y - ty * tile)) + 1 / 2)
    else pixel off X Y.
Proof.
  intros w h. unfold export_tile, drawImage. cbn [pixel].
  fold w. fold h.
  destruct ((tx * tile <=? X) && (X <? tx * tile + w)
            && (ty * tile <=? Y) && (Y <? ty * tile + h))%nat eqn:E;
    [|reflexivity].
  apply andb_prop in E. destruct E as [E E4].
  apply andb_prop in E. destruct E as [E E3].
  apply andb_prop in E. destruct E as [E1 E2].
  apply Nat.leb_le in E1, E3. apply Nat.ltb_lt in E2, E4.
  assert (Hin : ((0 <=? X - tx * tile) && (X - tx * tile <? 0 + w)
                 && (0 <=? Y - ty * tile) && (Y - ty * tile <? 0 + h))%nat
                = true).
  { repeat (apply andb_true_intro; split);
      try (apply Nat.leb_le; lia); apply Nat.ltb_lt; lia. }
  rewrite Hin. unfold drawArrays. cbn [pixel].
  now rewrite !Nat.sub_0_r.
Qed.


Lemma tile_order_In (tilesX tilesY tx ty : nat) :
  In (tx, ty) (tile_order tilesX tilesY) <->
  (tx < tilesX)%nat /\ (ty < tilesY)%nat.
Proof.
  unfold tile_order. rewrite in_flat_map. split.
  - intros (y & Hy & Hin). apply in_map_iff in Hin.
    destruct Hin as (x & Hx & Hin). injection Hx as <- <-.
    apply in_seq in Hy, Hin. lia.
  - intros [Hx Hy]. exists ty. split; [apply in_seq; lia|].
    apply in_map_iff. exists tx. split; [reflexivity | apply in_seq; lia].
Qed.

Lemma ceil_div_covers (a tile x : nat) :
  (0 < tile)%nat -> (x < a)%nat -> (x / tile < ceil_div a tile)%nat.
Proof.
  intros Ht Hx. unfold ceil_div.
  replace (a + tile - 1)%nat with ((a - 1) + 1 * tile)%nat by lia.
  rewrite Nat.div_add by lia.
  assert (x / tile <= (a - 1) / tile)%nat
    by (apply Nat.Div0.div_le_mono; lia).
  lia.
Qed.

Section Raster.

Variables (r : GLRenderer) (state : AppState) (opts : ExportOpts).
Variable tile : nat.
Hypothesis tile_pos : (0 < tile)%nat.

Lemma tiles_fold_pixel (todo : list (nat * nat)) (off : Canvas) (X Y : nat) :
  (X < opt_width opts)%nat -> (Y < opt_height opts)%nat ->
  pixel off X Y = tiled_pixel r state opts tile X Y \/
  In ((X / tile)%nat, (Y / tile)%nat) todo ->
  pixel (fold_left (fun c t => export_tile r state opts tile (fst t) (snd t) c)
                   todo off) X Y
  = tiled_pixel r state opts tile X Y.
Proof.
  intros HX HY. revert off.
  pose proof (Nat.div_mod_eq X tile) as HdX.
  pose proof (Nat.div_mod_eq Y tile) as HdY.
  pose proof (Nat.mod_upper_bound X tile ltac:(lia)) as HmX.
  pose proof (Nat.mod_upper_bound Y tile ltac:(lia)) as HmY.
  induction todo as [|[tx ty] rest IH]; intros off Hinv.
  - destruct Hinv as [H|[]]. exact H.
  - cbn [fold_left fst snd]. apply IH.
    rewrite export_tile_pixel.
    destruct ((tx * tile <=? X)
              && (X <? tx * tile + Nat.min tile (opt_width opts - tx * tile))
              && (ty * tile <=? Y)
              && (Y <? ty * tile
                       + Nat.min tile (opt_height opts - ty * tile)))%nat
      eqn:E.
    + left.
      apply andb_prop in E. destruct E as [E E4].
      apply andb_prop in E. destruct E as [E E3].
      apply andb_prop in E. destruct E as [E1 E2].
      apply Nat.leb_le in E1, E3. apply Nat.ltb_lt in E2, E4.
      assert (Htx : (X / tile)%nat = tx).
      { symmetry. apply (Nat.div_unique X tile tx (X - tx * tile)); lia. }
      assert (Hty : (Y / tile)%nat = ty).
      { symmetry. apply (Nat.div_unique Y tile ty (Y - ty * tile)); lia. }
      unfold tiled_pixel. rewrite Htx, Hty.
      replace (X mod tile)%nat with (X - tx * tile)%nat by (subst tx; lia).
      replace (Y mod tile)%nat with (Y - ty * tile)%nat by (subst ty; lia).
      reflexivity.
    + destruct Hinv as [H|[H|H]].
      * now left.
      * exfalso. injection H as H1 H2. subst tx ty.
        assert (Hc : ((X / tile * tile <=? X)
              && (X <? X / tile * tile
                       + Nat.min tile (opt_width opts - X / tile * tile))
              && (Y / tile * tile <=? Y)
              && (Y <? Y / tile * tile
                       + Nat.min tile (opt_height opts - Y / tile * tile)))%nat
              = true).
        { repeat (apply andb_true_intro; split);
            try (apply Nat.leb_le; lia); apply Nat.ltb_lt; lia. }
        rewrite Hc in E. discriminate.
      * now right.
Qed.

End Raster.


Lemma tile_size_pos (opts : ExportOpts) : (0 < tile_size opts)%nat.
Proof. unfold tile_size. destruct (opt_tile opts); lia. Qed.

(** An export that is not cancelled resolves with a canvas whose pixels
    are the [tiled_pixel]s. *)
Lemma exportTiled_pixel (r : GLRenderer) (state : AppState)
    (opts : ExportOpts) :
  never_aborted opts ->
  exists off,
    outcome (exportTiled r state opts) = Resolved off /\
    forall X Y, (X < opt_width opts)%nat -> (Y < opt_height opts)%nat ->
      pixel off X Y = tiled_pixel r state opts (tile_size opts) X Y.
Proof.
  intros Hno. unfold exportTiled. eexists. split.
  - apply tiles_loop_completed. intros j _. apply Hno.
  - intros X Y HX HY. pose proof (tile_size_pos opts) as Hpos.
    apply tiles_fold_pixel; try assumption.
    right. apply tile_order_In. split; now apply ceil_div_covers.
Qed.

(** The shader sees a fragment of a tile only through its position on the
    whole canvas, fragment plus tile offset. *)
Lemma main_tile_offset (r : GLRenderer) (state : AppState)
    (opts single : ExportOpts) (tile tile' tx ty : nat) (fx fy gx gy : R) :
  opt_width single = opt_width opts ->
  opt_height single = opt_height opts ->
  gx = fx + INR (tx * tile) -> gy = fy + INR (ty * tile) ->
  main (tile_uniforms r state opts tile tx ty) (fx, fy)
  = main (tile_uniforms r state single tile' 0 0) (gx, gy).
Proof.
  intros HW HH -> ->.
  unfold main, pixelToComplex, escape_time, run, eff_power, eff_bailout,
    init_c, init_z, palette_color, edge_glow, adjust_color, tile_uniforms.
  uniforms_simpl. cbn [fst snd Nat.mul]. rewrite HW, HH.
  change (INR 0) with 0. rewrite !Rplus_0_r. reflexivity.
Qed.


(** A tiled export against the export of the same canvas as one tile. *)
Lemma tiled_pixel_in_whole (r : GLRenderer) (state : AppState)
    (opts single : ExportOpts) (X Y : nat) :
  opt_width single = opt_width opts ->
  opt_height single = opt_height opts ->
  never_aborted opts -> never_aborted single ->
  (opt_width opts <= tile_size single)%nat ->
  (opt_height opts <= tile_size single)%nat ->
  (X < opt_width opts)%nat -> (Y < opt_height opts)%nat ->
  let tile := tile_size opts in
  let ty := (Y / tile)%nat in
  let h := Nat.min tile (opt_height opts - ty * tile) in
  exists tiled whole,
    outcome (exportTiled r state opts) = Resolved tiled /\
    outcome (exportTiled r state single) = Resolved whole /\
    pixel tiled X Y
    = pixel whole X (opt_height opts - (ty * tile + h) + Y mod tile)%nat.
Proof.
  intros HW HH Hno Hno1 HtW HtH HX HY tile ty h.
  destruct (exportTiled_pixel r state opts Hno) as (tiled & Ho & Hp).
  destruct (exportTiled_pixel r state single Hno1) as (whole & Ho1 & Hp1).
  exists tiled, whole. split; [exact Ho|]. split; [exact Ho1|].
  pose proof (tile_size_pos opts) as Hpos. fold tile in Hpos.
  pose proof (Nat.div_mod_eq X tile) as HdX.
  pose proof (Nat.div_mod_eq Y tile) as HdY.
  pose proof (Nat.mod_upper_bound X tile ltac:(lia)) as HmX.
  pose proof (Nat.mod_upper_bound Y tile ltac:(lia)) as HmY.
  fold ty in HdY.
  assert (Hym : (Y mod tile < h)%nat) by (unfold h; lia).
  assert (Hband : (ty * tile + h <= opt_height opts)%nat) by (unfold h; lia).
  set (Y' := (opt_height opts - (ty * tile + h) + Y mod tile)%nat).
  assert (HY' : (Y' < opt_height opts)%nat) by (unfold Y'; lia).
  rewrite (Hp X Y HX HY), (Hp1 X Y') by (rewrite ?HW, ?HH; assumption).
  unfold tiled_pixel. fold tile. fold ty. fold h.
  rewrite (Nat.div_small X (tile_size single)) by lia.
  rewrite (Nat.div_small Y' (tile_size single)) by lia.
  rewrite (Nat.mod_small X (tile_size single)) by lia.
  rewrite (Nat.mod_small Y' (tile_size single)) by lia.
  rewrite HH. cbn [Nat.mul]. rewrite Nat.sub_0_r.
  rewrite (Nat.min_r (tile_size single) (opt_height opts)) by lia.
  apply main_tile_offset; try assumption.
  - replace (INR X) with (INR (X mod tile) + INR (X / tile * tile)); [ring|].
    rewrite <- plus_INR. f_equal. lia.
  - replace (INR (opt_height opts - 1 - Y'))
      with (INR (h - 1 - Y mod tile) + INR (ty * tile)); [ring|].
    rewrite <- plus_INR. f_equal. unfold Y'. lia.
Qed.

(** X1.  A tiled export against the export of the same canvas as one tile: the
    pixel [(X, Y)] of the tiled raster is the pixel of the one-tile raster
    in the same column and in the row that lies as far above the bottom
    of the canvas as [(X, Y)] lies above the bottom of its tile, the tile
    being counted from the bottom instead of from the top.  The bands of
    tiles come out in reverse vertical order. *)
Theorem tiled_rows_reversed (r : GLRenderer) (state : AppState)
    (opts single : ExportOpts) (X Y : nat) :
  opt_width single = opt_width opts ->
  opt_height single = opt_height opts ->
  never_aborted opts -> never_aborted single ->
  (opt_width opts <= tile_size single)%nat ->
  (opt_height opts <= tile_size single)%nat ->
  (X < opt_width opts)%nat -> (Y < opt_height opts)%nat ->
  let tile := tile_size opts in
  let ty := (Y / tile)%nat in
  let h := Nat.min tile (opt_height opts - ty * tile) in
  exists tiled whole,
    outcome (exportTiled r state opts) = Resolved tiled /\
    outcome (exportTiled r state single) = Resolved whole /\
    pixel tiled X Y
    = pixel whole X (opt_height opts - (ty * tile + h) + Y mod tile)%nat.
Proof. exact (tiled_pixel_in_whole r state opts single X Y). Qed.

(** The top pixel of the 1 x 2 canvas in tiles of 1 is the bottom pixel of
    the same canvas as one tile. *)
Lemma tiled_rows_reversed_witness :
  exists tiled whole,
    outcome (exportTiled white_renderer seam_state (opts_1x2 1))
    = Resolved tiled /\
    outcome (exportTiled white_renderer seam_state (opts_1x2 2))
    = Resolved whole /\
    pixel tiled 0 0 = pixel whole 0 1.
Proof.
  apply (tiled_rows_reversed white_renderer seam_state (opts_1x2 1)
           (opts_1x2 2) 0 0);
    try reflexivity; try (intros k; reflexivity);
    cbn [opt_width opt_height opts_1x2 tile_size opt_tile Pos.to_nat
         Pos.iter_op Nat.add]; lia.
Defined.

(** X2.  The seam invariant across columns: when the tile is at least as high
    as the canvas, so that there is one row of tiles, the tiled raster is
    the one-tile raster, pixel for pixel. *)
Theorem one_row_seamless (r : GLRenderer) (state : AppState)
    (opts single : ExportOpts) :
  opt_width single = opt_width opts ->
  opt_height single = opt_height opts ->
  never_aborted opts -> never_aborted single ->
  (opt_width opts <= tile_size single)%nat ->
  (opt_height opts <= tile_size single)%nat ->
  (opt_height opts <= tile_size opts)%nat ->
  exists tiled whole,
    outcome (exportTiled r state opts) = Resolved tiled /\
    outcome (exportTiled r state single) = Resolved whole /\
    forall X Y, (X < opt_width opts)%nat -> (Y < opt_height opts)%nat ->
      pixel tiled X Y = pixel whole X Y.
Proof.
  intros HW HH Hno Hno1 HtW HtH Hrow.
  destruct (exportTiled_pixel r state opts Hno) as (tiled & Ho & Hp).
  destruct (exportTiled_pixel r state single Hno1) as (whole & Ho1 & Hp1).
  exists tiled, whole. split; [exact Ho|]. split; [exact Ho1|].
  intros X Y HX HY.
  destruct (tiled_pixel_in_whole r state opts single X Y HW HH Hno Hno1 HtW HtH
              HX HY) as (tiled' & whole' & Ho' & Ho1' & Heq).
  rewrite Ho in Ho'. rewrite Ho1 in Ho1'.
  injection Ho' as <-. injection Ho1' as <-.
  rewrite Heq. f_equal.
  rewrite (Nat.div_small Y (tile_size opts)) by lia.
  rewrite (Nat.mod_small Y (tile_size opts)) by lia.
  cbn [Nat.mul]. rewrite Nat.sub_0_r.
  rewrite (Nat.min_r (tile_size opts) (opt_height opts)) by lia. lia.
Qed.

(** A canvas 2 pixels wide and 1 pixel high, in two tiles and in one. *)
Lemma one_row_seamless_witness :
  exists tiled whole,
    outcome (exportTiled white_renderer seam_state (opts_2x1 1))
    = Resolved tiled /\
    outcome (exportTiled white_renderer seam_state (opts_2x1 2))
    = Resolved whole /\
    forall X Y, (X < 2)%nat -> (Y < 1)%nat -> pixel tiled X Y = pixel whole X Y.
Proof.
  apply (one_row_seamless white_renderer seam_state (opts_2x1 1) (opts_2x1 2));
    try reflexivity; try (intros k; reflexivity);
    cbn [opt_width opt_height opts_2x1 tile_size opt_tile Pos.to_nat
         Pos.iter_op Nat.add]; lia.
Defined.

End RasterFacts.

(* ================================================================== *)
(** * The colour adjustment and the colours of an export *)
(* ================================================================== *)

Module ColourFacts.
Import GLSL Shader Orbit State Renderer Inputs Examples.
Import GLSLFacts LoopFacts EvaluatorFacts PixelFacts ExportFacts RasterFacts.

Lemma clamp_unit (v : R) : unit_range (clamp v 0 1).
Proof.
  unfold unit_range, clamp, min, max.
  destruct (Rlt_dec v 0); [destruct (Rlt_dec 1 0); lra|].
  destruct (Rlt_dec 1 v); lra.
Qed.

Lemma clamp_le (v : R) : 0 <= v -> clamp v 0 1 <= v.
Proof.
  intros H. unfold clamp, min, max.
  destruct (Rlt_dec v 0); [lra|]. destruct (Rlt_dec 1 v); lra.
Qed.

Lemma max_idem (x : R) : max x x = x.
Proof. unfold max. real_cases. Qed.

Lemma min_idem (x : R) : min x x = x.
Proof. unfold min. real_cases. Qed.






(** The hue is an angle in degrees. *)

Lemma floor_plus_int (x : R) (k : Z) : floor (x + IZR k) = floor x + IZR k.
Proof.
  unfold floor. rewrite <- plus_IZR. f_equal. symmetry.
  apply Int_part_spec. rewrite plus_IZR.
  destruct (base_Int_part x) as [H1 H2]. lra.
Qed.

Lemma fract_plus_int (x : R) (k : Z) : fract (x + IZR k) = fract x.
Proof. unfold fract. rewrite floor_plus_int. ring. Qed.

Lemma adjust_color_turn (u : Uniforms) (k : Z) (color : vec3) :
  adjust_color (with_hue (u_hue u + 360 * IZR k) u) color
  = adjust_color u color.
Proof.
  unfold adjust_color, with_hue. uniforms_simpl.
  destruct (u_adjust u) as [[[ax ay] az] aw].
  destruct color as [[c1 c2] c3]. cbn [map3].
  match goal with
  | |- context [fract (?h + (u_hue u + 360 * IZR k) / 360)] =>
    replace (h + (u_hue u + 360 * IZR k) / 360)
      with (h + u_hue u / 360 + IZR k) by field
  end.
  now rewrite fract_plus_int.
Qed.

(** X7.  The hue adjustment is periodic: adding any whole number of turns
    of 360 degrees to [u_hue] changes no pixel.  In particular the two
    ends of the hue slider, -180 and 180, give the same picture. *)
Theorem hue_full_turn (u : Uniforms) (k : Z) (fragCoord : vec2) :
  main (with_hue (u_hue u + 360 * IZR k) u) fragCoord = main u fragCoord.
Proof.
  unfold main.
  change (pixelToComplex (with_hue (u_hue u + 360 * IZR k) u) fragCoord)
    with (pixelToComplex u fragCoord).
  change (escape_time (with_hue (u_hue u + 360 * IZR k) u))
    with (escape_time u).
  destruct (escape_time u (pixelToComplex u fragCoord)) as [[t nu]|];
    [|reflexivity].
  change (palette_color (with_hue (u_hue u + 360 * IZR k) u))
    with (palette_color u).
  change (edge_glow (with_hue (u_hue u + 360 * IZR k) u))
    with (edge_glow u).
  now rewrite adjust_color_turn.
Qed.

(** Grays. *)

Lemma hsv2rgb_unsaturated (h v : R) : hsv2rgb (h, 0, v) = (v, v, v).
Proof.
  unfold hsv2rgb. cbn [map3]. rewrite !mix_zero.
  repeat f_equal; ring.
Qed.

Lemma adjust_color_gray (u : Uniforms) (c : R) :
  adjust_color u (c, c, c)
  = (clamp (tone u c) 0 1, clamp (tone u c) 0 1, clamp (tone u c) 0 1).
Proof.
  unfold adjust_color, tone.
  destruct (u_adjust u) as [[[ax ay] az] aw]. cbn [map3].
  set (m := pow (max ((c + ax - 1 / 2) * (ay + 1) + 1 / 2) 0)
                (1 / max (1 / 10) az)).
  rewrite !max_idem, !min_idem.
  destruct (Req_dec_T m m) as [_|Hne]; [|exfalso; now apply Hne].
  replace ((m - m) / (1 - abs (2 * ((m + m) * (1 / 2)) - 1) + 1 / 1000000))
    with 0 by (unfold Rdiv; ring).
  rewrite Rmult_0_l.
  rewrite (clamp_id 0) by lra.
  rewrite hsv2rgb_unsaturated. cbn [map3].
  replace ((m + m) * (1 / 2)) with m by field. reflexivity.
Qed.

(** X8.  A gray stays a gray: on a colour with three equal channels the
    adjustment acts on each channel by brightness, contrast and gamma
    alone, and neither the saturation nor the hue setting has any effect
    on the result. *)
Theorem gray_stays_gray (u : Uniforms) (c : R) :
  gray (adjust_color u (c, c, c)) /\
  adjust_color u (c, c, c)
  = (clamp (tone u c) 0 1, clamp (tone u c) 0 1, clamp (tone u c) 0 1).
Proof.
  rewrite adjust_color_gray. split; [|reflexivity].
  unfold gray. split; reflexivity.
Qed.

(** The adjustment hands the lightness [(max + min) / 2] of the toned
    colour to [hsv2rgb] as its value, so no channel of the result exceeds
    that lightness. *)

Lemma pow_nonneg (x y : R) : 0 <= pow x y.
Proof.
  unfold pow. destruct (Req_dec_T x 0); [lra|].
  left. unfold Rpower. apply exp_pos.
Qed.

Lemma shade_le (l q s : R) :
  0 <= l -> unit_range q -> unit_range s -> clamp (l * mix 1 q s) 0 1 <= l.
Proof.
  unfold unit_range, mix. intros Hl Hq Hs.
  assert (0 <= 1 * (1 - s) + q * s <= 1) by nra.
  assert (0 <= l * (1 * (1 - s) + q * s) <= l) by nra.
  pose proof (clamp_le (l * (1 * (1 - s) + q * s))). lra.
Qed.

Lemma max3_cases (a b c : R) :
  let m := max (max a b) c in
  a <= m /\ b <= m /\ c <= m /\ (m = a \/ m = b \/ m = c).
Proof.
  unfold max. cbv zeta.
  destruct (Rlt_dec a b); [destruct (Rlt_dec b c) | destruct (Rlt_dec a c)];
    repeat split; try lra; auto.
Qed.

Lemma min3_cases (a b c : R) :
  let m := min (min a b) c in
  m <= a /\ m <= b /\ m <= c /\ (m = a \/ m = b \/ m = c).
Proof.
  unfold min. cbv zeta.
  destruct (Rlt_dec b a); [destruct (Rlt_dec c b) | destruct (Rlt_dec c a)];
    repeat split; try lra; auto.
Qed.

Lemma adjust_color_le_lightness (u : Uniforms) (c1 c2 c3 : R) :
  let l := (max (max (tone u c1) (tone u c2)) (tone u c3)
            + min (min (tone u c1) (tone u c2)) (tone u c3)) * (1 / 2) in
  let '(r, g, b) := adjust_color u (c1, c2, c3) in
  r <= l /\ g <= l /\ b <= l.
Proof.
  unfold adjust_color, tone.
  destruct (u_adjust u) as [[[ax ay] az] aw]. cbn [map3].
  set (t1 := pow (max ((c1 + ax - 1 / 2) * (ay + 1) + 1 / 2) 0)
                 (1 / max (1 / 10) az)).
  set (t2 := pow (max ((c2 + ax - 1 / 2) * (ay + 1) + 1 / 2) 0)
                 (1 / max (1 / 10) az)).
  set (t3 := pow (max ((c3 + ax - 1 / 2) * (ay + 1) + 1 / 2) 0)
                 (1 / max (1 / 10) az)).
  assert (H1 : 0 <= t1) by apply pow_nonneg.
  assert (H2 : 0 <= t2) by apply pow_nonneg.
  assert (H3 : 0 <= t3) by apply pow_nonneg.
  destruct (max3_cases t1 t2 t3) as (_ & _ & _ & Hmax).
  destruct (min3_cases t1 t2 t3) as (_ & _ & _ & Hmin).
  set (maxc := max (max t1 t2) t3) in *.
  set (minc := min (min t1 t2) t3) in *.
  assert (Hl : 0 <= (maxc + minc) * (1 / 2))
    by (destruct Hmax as [->|[->| ->]], Hmin as [->|[->| ->]]; lra).
  unfold hsv2rgb. cbn [map3]. cbv zeta.
  repeat split; apply shade_le; try exact Hl; apply clamp_unit.
Qed.

Lemma tone_neutral (u : Uniforms) (sat v : R) :
  u_adjust u = (0, 0, 1, sat) -> 0 <= v -> tone u v = v.
Proof.
  intros Hu Hv. unfold tone. rewrite Hu.
  replace ((v + 0 - 1 / 2) * (0 + 1) + 1 / 2) with v by ring.
  rewrite (max_left v 0) by lra.
  rewrite (max_right (1 / 10) 1) by lra.
  replace (1 / 1) with 1 by field.
  unfold pow. destruct (Req_dec_T v 0) as [->|Hne]; [reflexivity|].
  apply Rpower_1. lra.
Qed.

(** X9.  With brightness 0, contrast 0 and gamma 1 (the defaults), and for
    every saturation and hue setting: a colour with its channels in
    [0, 1] comes out of the adjustment unchanged exactly when it is a
    gray.  Every other colour is changed, because the adjustment passes
    the lightness [(max + min) / 2] of a colour to [hsv2rgb] as its value,
    which bounds every channel of the result. *)
Theorem neutral_adjust_identity (u : Uniforms) (sat r g b : R) :
  u_adjust u = (0, 0, 1, sat) ->
  unit_range r -> unit_range g -> unit_range b ->
  (adjust_color u (r, g, b) = (r, g, b) <-> gray (r, g, b)).
Proof.
  unfold unit_range. intros Hu Hr Hg Hb. split.
  - intros Heq.
    pose proof (adjust_color_le_lightness u r g b) as Hle.
    cbv zeta in Hle. rewrite Heq in Hle.
    rewrite !(tone_neutral u sat) in Hle by (assumption || lra).
    destruct (max3_cases r g b) as (Ha & Hb' & Hc & Hmax).
    destruct (min3_cases r g b) as (Ha' & Hb'' & Hc' & _).
    cbv zeta in *.
    set (maxc := max (max r g) b) in *.
    set (minc := min (min r g) b) in *.
    unfold gray. destruct Hmax as [Hm|[Hm|Hm]]; split; lra.
  - unfold gray. intros [-> ->].
    rewrite adjust_color_gray, (tone_neutral u sat) by (assumption || lra).
    rewrite clamp_id by lra. reflexivity.
Qed.

(** Under the default adjustments the gray [(1/2, 1/2, 1/2)] is kept. *)
Lemma neutral_adjust_identity_witness :
  adjust_color (origin_uniforms 1 true) (1 / 2, 1 / 2, 1 / 2)
  = (1 / 2, 1 / 2, 1 / 2).
Proof.
  apply (neutral_adjust_identity (origin_uniforms 1 true) 1
           (1 / 2) (1 / 2) (1 / 2)).
  - reflexivity.
  - unfold unit_range. lra.
  - unfold unit_range. lra.
  - unfold unit_range. lra.
  - unfold gray. split; reflexivity.
Defined.

End ColourFacts.

(* ================================================================== *)
(** * What the evaluator's verdict means *)
(* ================================================================== *)

Module VerdictFacts.
Import GLSL Shader Orbit State Renderer Inputs Examples.
Import GLSLFacts LoopFacts EvaluatorFacts PixelFacts.

Section Exit.

Variables (maxIter type : Z) (power bailout : R) (c : vec2).

(** How the loop is left: the counter never passes the budget, no bailout
    test before the last iteration succeeded, and the loop ends either on
    a successful bailout test, below the budget and the fuel, or without
    one, at the budget or out of fuel. *)
Lemma iterate_exit (fuel i : nat) (z : vec2) :
  let r := iterate maxIter type power bailout c fuel i z in
  (i <= fst r)%nat /\
  (Z.of_nat (fst r) <= Z.max (Z.of_nat i) maxIter)%Z /\
  (forall j, (j < fst r - i)%nat ->
     bailed bailout (Nat.iter (S j) (step type power c) z) = false) /\
  ((bailed bailout (snd r) = true /\
    snd r = Nat.iter (S (fst r - i)) (step type power c) z /\
    (Z.of_nat (fst r) < maxIter)%Z /\ (fst r < i + fuel)%nat)
   \/
   (snd r = Nat.iter (fst r - i) (step type power c) z /\
    ((maxIter <= Z.of_nat (fst r))%Z \/ fst r = (i + fuel)%nat))).
Proof.
  revert i z. induction fuel as [|fuel IH]; intros i z; cbn [iterate].
  - cbn [fst snd]. rewrite Nat.sub_diag.
    split; [lia|]. split; [lia|]. split; [intros j Hj; lia|].
    right. split; [reflexivity|]. right. lia.
  - destruct (Z.leb_spec maxIter (Z.of_nat i)) as [Hm|Hm].
    + cbn [fst snd]. rewrite Nat.sub_diag.
      split; [lia|]. split; [lia|]. split; [intros j Hj; lia|].
      right. split; [reflexivity|]. left. exact Hm.
    + destruct (bailed bailout (step type power c z)) eqn:Hb.
      * cbn [fst snd]. rewrite Nat.sub_diag.
        split; [lia|]. split; [lia|]. split; [intros j Hj; lia|].
        left. split; [exact Hb|]. split; [reflexivity|]. lia.
      * specialize (IH (S i) (step type power c z)).
        cbv zeta in IH.
        destruct (iterate maxIter type power bailout c fuel (S i)
                    (step type power c z)) as [i' z'].
        cbn [fst snd] in *.
        destruct IH as (Hge & Hle & Hno & Hend).
        assert (Hs : (i' - i = S (i' - S i))%nat) by lia.
        split; [lia|]. split; [lia|]. split.
        -- intros j Hj. destruct j as [|j]; [exact Hb|].
           rewrite Nat.iter_succ_r. apply Hno. lia.
        -- rewrite Hs.
           destruct Hend as [(Hb' & Hz & Hlt & Hf) | (Hz & Hor)].
           ++ left. split; [exact Hb'|]. split; [|lia].
              rewrite Hz. now rewrite <- !Nat.iter_succ_r.
           ++ right. split.
              ** rewrite Hz. now rewrite <- Nat.iter_succ_r.
              ** destruct Hor as [Hor|Hor]; [left; exact Hor | right; lia].
Qed.

End Exit.

Lemma run_exit (u : Uniforms) (c0 : vec2) :
  let r := run u c0 in
  (Z.of_nat (fst r) <= Z.max 0 (u_maxIter u))%Z /\
  (Z.of_nat (fst r) <= 100000)%Z /\
  bounded_until u c0 (fst r) /\
  ((escapes_at u c0 (fst r) /\ snd r = orbit u c0 (S (fst r)) /\
    (Z.of_nat (fst r) < u_maxIter u)%Z /\ (Z.of_nat (fst r) < 100000)%Z)
   \/
   (snd r = orbit u c0 (fst r) /\
    ((u_maxIter u <= Z.of_nat (fst r))%Z \/ Z.of_nat (fst r) = 100000%Z))).
Proof.
  unfold run, bounded_until, escapes_at, orbit.
  pose proof loop_cap_value as Hv. revert Hv. generalize loop_cap.
  intros cap Hv.
  pose proof (iterate_exit (u_maxIter u) (u_type u) (eff_power u)
                (eff_bailout u) (init_c u c0) cap 0 (init_z u c0)) as H.
  pose proof (iterate_counter_le (u_maxIter u) (u_type u) (eff_power u)
                (eff_bailout u) (init_c u c0) cap 0 (init_z u c0)) as Hfuel.
  cbv zeta in *.
  destruct (iterate (u_maxIter u) (u_type u) (eff_power u) (eff_bailout u)
              (init_c u c0) cap 0 (init_z u c0)) as [i z].
  cbn [fst snd] in *. rewrite Nat.sub_0_r in H.
  destruct H as (_ & Hle & Hno & Hend).
  split; [exact Hle|]. split; [lia|]. split.
  - intros j Hj. apply bailed_false. now apply Hno.
  - destruct Hend as [(Hb & Hz & Hlt & Hf) | (Hz & Hor)].
    + left. split; [now apply bailed_true; rewrite <- Hz|].
      split; [exact Hz|]. split; [exact Hlt | lia].
    + right. split; [exact Hz|].
      destruct Hor as [Hor|Hor]; [left; exact Hor | right; lia].
Qed.

(** X10.  The cost of a pixel is bounded: the loop runs at most 100000
    iterations, and never more than the iteration budget (none at all
    when the budget is zero or negative), whatever the point and the
    parameters. *)
Theorem iteration_bound (u : Uniforms) (c0 : vec2) :
  (Z.of_nat (iterationCount (evaluate u c0)) <= 100000)%Z /\
  (Z.of_nat (iterationCount (evaluate u c0)) <= Z.max 0 (u_maxIter u))%Z.
Proof.
  pose proof (run_exit u c0) as H. cbv zeta in H. unfold evaluate.
  destruct (run u c0) as [i z]. cbn [fst snd iterationCount] in *.
  destruct H as (Hm & Hc & _). split; assumption.
Qed.

(** X11.  The verdict of the evaluator is sound.  No iteration before the
    reported count passed the bailout test.  When an escape is reported
    with a count below 100000, the bailout test did succeed in that
    iteration and the final [z] is the value after its power-and-add
    step, so [|z|^2] exceeds the squared bailout.  When no escape is
    reported, the final [z] is the value after the counted iterations and
    the count has reached the budget. *)
Theorem verdict_sound (u : Uniforms) (c0 : vec2) :
  let r := evaluate u c0 in
  bounded_until u c0 (iterationCount r) /\
  (escaped r = true -> (Z.of_nat (iterationCount r) < 100000)%Z ->
     escapes_at u c0 (iterationCount r) /\
     finalZ r = orbit u c0 (S (iterationCount r)) /\
     dot (finalZ r) (finalZ r) > eff_bailout u * eff_bailout u) /\
  (escaped r = false ->
     finalZ r = orbit u c0 (iterationCount r) /\
     (u_maxIter u <= Z.of_nat (iterationCount r))%Z).
Proof.
  pose proof (run_exit u c0) as H. cbv zeta in H. unfold evaluate.
  destruct (run u c0) as [i z]. cbn [fst snd escaped iterationCount finalZ] in *.
  destruct H as (_ & _ & Hno & Hend).
  split; [exact Hno|]. split.
  - intros Hesc Hlt. apply negb_true_iff, Z.leb_gt in Hesc.
    destruct Hend as [(He & Hz & _) | (_ & [Hm|Hc])]; try lia.
    split; [exact He|]. split; [exact Hz|].
    rewrite Hz. exact He.
  - intros Hesc. apply negb_false_iff, Z.leb_le in Hesc.
    split; [|exact Hesc].
    destruct Hend as [(_ & _ & Hlt & _) | (Hz & _)]; [lia | exact Hz].
Qed.

(** The start of the orbit of a point outside the Julia mode. *)
Lemma step_from_origin (type : Z) (p : R) (c : vec2) :
  step type p c (0, 0) = c.
Proof.
  unfold step. destruct (type =? 2)%Z; cbn [fst snd];
    unfold abs; rewrite ?Rabs_R0;
    rewrite length_origin, pow_zero; destruct c as [cr ci]; cbn [fst snd];
    f_equal; ring.
Qed.

Lemma orbit_first (u : Uniforms) (c0 : vec2) :
  u_type u <> 1%Z -> orbit u c0 1 = c0.
Proof.
  intros Ht. apply Z.eqb_neq in Ht.
  unfold orbit, init_c, init_z. rewrite Ht.
  cbn [Nat.iter nat_rect]. apply step_from_origin.
Qed.

(** X12.  Outside the Julia mode, a point that already lies outside the
    bailout disc is reported as escaped in iteration 0 with itself as
    final [z], for every budget of at least 1; its smooth count is
    [1 - log(log(|c|)) / log(power)]. *)
Theorem outside_escapes_at_once (u : Uniforms) (c0 : vec2) :
  u_type u <> 1%Z -> (1 <= u_maxIter u)%Z ->
  dot c0 c0 > eff_bailout u * eff_bailout u ->
  evaluate u c0 = {| escaped := true; iterationCount := 0; finalZ := c0 |} /\
  exists nu,
    escape_time u c0 = Some (smooth_count (eff_power u) 0 c0, nu).
Proof.
  intros Ht Hm Hout.
  assert (Hc : (0 < loop_cap)%nat) by (apply loop_cap_lt; lia).
  assert (Hno : bounded_until u c0 0) by (intros j Hj; lia).
  assert (Hesc : escapes_at u c0 0)
    by (unfold escapes_at; rewrite (orbit_first u c0 Ht); exact Hout).
  split.
  - unfold evaluate.
    rewrite (run_escape u c0 0 ltac:(simpl; lia) Hc Hno Hesc).
    rewrite (orbit_first u c0 Ht).
    assert (Hlt : (u_maxIter u <=? Z.of_nat 0)%Z = false)
      by (apply Z.leb_gt; simpl; lia).
    now rewrite Hlt.
  - destruct (escape_time_escape u c0 0 ltac:(simpl; lia) Hc Hno Hesc)
      as [nu Hnu].
    exists nu. rewrite Hnu, (orbit_first u c0 Ht). reflexivity.
Qed.

(** The point [3] under the Mandelbrot settings with budget 5. *)
Lemma outside_escapes_at_once_witness :
  evaluate (origin_uniforms 5 true) (3, 0)
  = {| escaped := true; iterationCount := 0; finalZ := (3, 0) |}.
Proof.
  apply (outside_escapes_at_once (origin_uniforms 5 true) (3, 0)).
  - discriminate.
  - cbn. lia.
  - rewrite origin_eff_bailout. unfold dot. cbn [fst snd]. lra.
Defined.

End VerdictFacts.

(* ================================================================== *)
(** * The samples of a palette texture *)
(* ================================================================== *)

Module GradientFacts.
Import Palette Inputs Examples PaletteFacts.

Lemma Math_round_mono (x y : R) : x <= y -> (Math_round x <= Math_round y)%Z.
Proof.
  intros H. unfold Math_round.
  destruct (base_Int_part (x + 1 / 2)) as [Hx _].
  destruct (base_Int_part (y + 1 / 2)) as [_ Hy].
  assert (Hlt : IZR (Int_part (x + 1 / 2)) < IZR (Int_part (y + 1 / 2) + 1))
    by (rewrite plus_IZR; lra).
  apply lt_IZR in Hlt. lia.
Qed.

Lemma clamp01_unit (x : R) : 0 <= clamp01 x <= 1.
Proof.
  unfold clamp01, Rmin, Rmax.
  destruct (Rle_dec 0 x); destruct (Rle_dec 1 _); lra.
Qed.

Lemma clamp01_mono (x y : R) : x <= y -> clamp01 x <= clamp01 y.
Proof.
  intros H. unfold clamp01, Rmin, Rmax.
  destruct (Rle_dec 0 x), (Rle_dec 0 y);
    repeat match goal with |- context [Rle_dec ?a ?b] =>
      destruct (Rle_dec a b) end; lra.
Qed.

Lemma Math_pow_nonneg (x y : R) : 0 <= Math_pow x y.
Proof.
  unfold Math_pow. destruct (Req_dec_T x 0); [lra|].
  left. apply exp_pos.
Qed.

Lemma Math_pow_mono (x y e : R) :
  0 <= e -> 0 <= x <= y -> Math_pow x e <= Math_pow y e.
Proof.
  intros He [Hx Hxy]. unfold Math_pow.
  destruct (Req_dec_T x 0) as [->|Hx0].
  - destruct (Req_dec_T y 0); [lra|]. left. apply exp_pos.
  - destruct (Req_dec_T y 0) as [->|Hy0]; [lra|].
    apply Rle_Rpower_l; lra.
Qed.

(** Both interpolants stay between the values they join. *)
Lemma lerp_between (a b t : R) :
  0 <= t <= 1 -> Rmin a b <= lerp a b t <= Rmax a b.
Proof.
  intros Ht. unfold lerp, Rmin, Rmax. destruct (Rle_dec a b); nra.
Qed.

Lemma cosine_between (a b t : R) :
  Rmin a b <= cosineInterpolate a b t <= Rmax a b.
Proof.
  unfold cosineInterpolate.
  pose proof (COS_bound (PI * t)) as [Hlo Hhi].
  set (ct := (1 - cos (PI * t)) / 2).
  assert (Hct : 0 <= ct <= 1) by (unfold ct; lra).
  clearbody ct. unfold Rmin, Rmax. destruct (Rle_dec a b); nra.
Qed.

Lemma between_round (f : R -> R -> R -> R) (a b : Z) (t : R) :
  Rmin (IZR a) (IZR b) <= f (IZR a) (IZR b) t <= Rmax (IZR a) (IZR b) ->
  between a b (Math_round (f (IZR a) (IZR b) t)).
Proof.
  intros [Hlo Hhi]. unfold between.
  destruct (Z.le_ge_cases a b) as [Hab|Hab].
  - rewrite Z.min_l, Z.max_r by lia.
    assert (IZR a <= IZR b) by now apply IZR_le.
    rewrite Rmin_left in Hlo by lra. rewrite Rmax_right in Hhi by lra.
    apply Math_round_mono in Hlo, Hhi.
    rewrite Math_round_integer in Hlo, Hhi. lia.
  - rewrite Z.min_r, Z.max_l by lia.
    assert (IZR b <= IZR a) by now apply IZR_le.
    rewrite Rmin_right in Hlo by lra. rewrite Rmax_left in Hhi by lra.
    apply Math_round_mono in Hlo, Hhi.
    rewrite Math_round_integer in Hlo, Hhi. lia.
Qed.

(** The perceptual mode: lift, interpolate, and bring back. *)
Lemma lift_mono (a b : Z) :
  (0 <= a <= b)%Z ->
  Math_pow (IZR a / 255) 2.2 <= Math_pow (IZR b / 255) 2.2.
Proof.
  intros H. apply Math_pow_mono; [lra|].
  assert (0 <= IZR a) by (apply IZR_le; lia).
  assert (IZR a <= IZR b) by (apply IZR_le; lia).
  split; [apply Rmult_le_pos; lra | apply Rmult_le_compat_r; lra].
Qed.

Lemma back_mono (x y : R) :
  0 <= x <= y ->
  (Math_round (clamp01 (Math_pow x (1 / 2.2)) * 255)
   <= Math_round (clamp01 (Math_pow y (1 / 2.2)) * 255))%Z.
Proof.
  intros H. apply Math_round_mono. apply Rmult_le_compat_r; [lra|].
  apply clamp01_mono. apply Math_pow_mono; [lra | exact H].
Qed.

Lemma between_perceptual (a b : Z) (t : R) :
  (0 <= a <= 255)%Z -> (0 <= b <= 255)%Z -> 0 <= t <= 1 ->
  between a b
    (Math_round (clamp01 (Math_pow (lerp (Math_pow (IZR a / 255) 2.2)
                                         (Math_pow (IZR b / 255) 2.2) t)
                                   (1 / 2.2)) * 255)).
Proof.
  intros Ha Hb Ht. unfold between.
  pose proof (Math_pow_nonneg (IZR a / 255) 2.2) as Hla.
  pose proof (Math_pow_nonneg (IZR b / 255) 2.2) as Hlb.
  pose proof (lerp_between (Math_pow (IZR a / 255) 2.2)
                (Math_pow (IZR b / 255) 2.2) t Ht) as [Hlo Hhi].
  destruct (Z.le_ge_cases a b) as [Hab|Hab].
  - rewrite Z.min_l, Z.max_r by lia.
    pose proof (lift_mono a b ltac:(lia)) as Hm.
    rewrite Rmin_left in Hlo by lra. rewrite Rmax_right in Hhi by lra.
    pose proof (back_mono _ _ (conj Hla Hlo)) as H1.
    pose proof (back_mono _ _ (conj (Rle_trans _ _ _ Hla Hlo) Hhi)) as H2.
    rewrite (perceptual_roundtrip a Ha) in H1.
    rewrite (perceptual_roundtrip b Hb) in H2. lia.
  - rewrite Z.min_r, Z.max_l by lia.
    pose proof (lift_mono b a ltac:(lia)) as Hm.
    rewrite Rmin_right in Hlo by lra. rewrite Rmax_left in Hhi by lra.
    pose proof (back_mono _ _ (conj Hlb Hlo)) as H1.
    pose proof (back_mono _ _ (conj (Rle_trans _ _ _ Hlb Hlo) Hhi)) as H2.
    rewrite (perceptual_roundtrip b Hb) in H1.
    rewrite (perceptual_roundtrip a Ha) in H2. lia.
Qed.

Lemma interpRGB_between (a b : Z * Z * Z) (t : R) (mode : Interpolation) :
  byte_rgb a -> byte_rgb b -> 0 <= t <= 1 ->
  rgb_between a b (interpRGB a b t mode).
Proof.
  destruct a as [[a0 a1] a2], b as [[b0 b1] b2].
  intros (Ha0 & Ha1 & Ha2) (Hb0 & Hb1 & Hb2) Ht.
  destruct mode; cbn [interpRGB rgb_between].
  - repeat split; apply (between_round lerp); now apply lerp_between.
  - repeat split; apply (between_round cosineInterpolate);
      apply cosine_between.
  - repeat split; now apply between_perceptual.
Qed.

(** X13.  Interpolation never overshoots: for two byte-valued colours and
    a parameter in [0, 1], in each of the three modes, every channel of
    the interpolated colour lies between the corresponding channels of
    the two colours (so it is a byte again). *)
Theorem interpolation_stays_between (a b : Z * Z * Z) (t : R)
    (mode : Interpolation) :
  byte_rgb a -> byte_rgb b -> 0 <= t <= 1 ->
  rgb_between a b (interpRGB a b t mode).
Proof. exact (interpRGB_between a b t mode). Qed.

(** Half way from black to white in the perceptual mode. *)
Lemma interpolation_stays_between_witness :
  rgb_between (0, 0, 0)%Z (255, 255, 255)%Z
    (interpRGB (0, 0, 0)%Z (255, 255, 255)%Z (1 / 2) perceptual).
Proof.
  apply (interpolation_stays_between (0, 0, 0)%Z (255, 255, 255)%Z (1 / 2)
           perceptual).
  - cbn. lia.
  - cbn. lia.
  - lra.
Defined.

(** The samples of a table of byte-valued stops. *)

Lemma rgb_between_bytes (a b c : Z * Z * Z) :
  byte_rgb a -> byte_rgb b -> rgb_between a b c -> byte_rgb c.
Proof.
  destruct a as [[a0 a1] a2], b as [[b0 b1] b2], c as [[c0 c1] c2].
  unfold byte_rgb, rgb_between, between. lia.
Qed.

Lemma last_In_or_default (l : list Stop) (d : Stop) :
  last l d = d \/ In (last l d) l.
Proof.
  induction l as [|x l IH]; [now left|].
  destruct l as [|y l]; [right; now left|].
  destruct IH as [IH|IH].
  - change (last (x :: y :: l) d) with (last (y :: l) d).
    right. right. destruct (exists_last (l:=y :: l) ltac:(discriminate))
      as (l' & z & E).
    rewrite E. rewrite last_last. rewrite <- E.
    rewrite E. apply in_or_app. right. now left.
  - right. right. exact IH.
Qed.

Lemma sample_at_bytes (stops : list Stop) (mode : Interpolation)
    (t : option R) (c : Z * Z * Z) :
  Forall (fun s => byte_rgb (stop_rgb s)) stops ->
  sample_at stops mode t = Some c -> byte_rgb c.
Proof.
  intros Hall. rewrite Forall_forall in Hall. unfold sample_at.
  cbv zeta.
  destruct (nth_error stops (Z.to_nat (_ - 1))) as [s0|] eqn:E0;
    [|discriminate].
  assert (H0 : byte_rgb (stop_rgb s0))
    by (apply Hall; eapply nth_error_In; exact E0).
  match goal with
  | |- context [match nth_error stops ?i with Some s => s | None => _ end] =>
    set (s1 := match nth_error stops i with
               | Some s => s
               | None => last stops s0
               end);
    assert (H1 : byte_rgb (stop_rgb s1))
  end.
  { unfold s1. destruct (nth_error stops (Z.to_nat (Z.max 1 _)))
      as [s|] eqn:E1.
    - apply Hall. eapply nth_error_In. exact E1.
    - destruct (last_In_or_default stops s0) as [->|Hin];
        [exact H0 | now apply Hall]. }
  destruct t as [t|]; intros H; injection H as <-.
  - eapply rgb_between_bytes; [exact H0 | exact H1 |].
    apply interpRGB_between; try assumption. apply clamp01_unit.
  - cbn. lia.
Qed.

Lemma presets_bytes (name : string) (stops : list Stop) :
  In (name, stops) presets ->
  Forall (fun s => byte_rgb (stop_rgb s)) stops.
Proof.
  unfold presets. cbn [In].
  intros [H|[H|[H|[H|[H|[H|[H|[H|[]]]]]]]]]; injection H as <- <-;
    repeat constructor; cbn; lia.
Qed.

Lemma listed_preset (name : string) :
  In name listPalettePresets ->
  exists stops, In (name, stops) presets.
Proof.
  unfold listPalettePresets. intros H. apply in_map_iff in H.
  destruct H as ([n stops] & <- & Hin). now exists stops.
Qed.

Local Open Scope string_scope.

(** X14.  For every name that [listPalettePresets] lists, every
    configuration with that preset and every size: the builder returns a
    texture, and each of its samples holds exactly the three rounded
    channels the loop computed for it, all of them within 0..255, and
    alpha 255: the conversion to [Uint8Array] never wraps a value, and
    neither the fallback nor an inherited property is involved. *)
Theorem listed_presets_build_exact (name : string) (cfg : PaletteConfig)
    (size k : nat) :
  In name listPalettePresets -> preset cfg = name -> (k < size)%nat ->
  exists stops out r g b,
    In (name, stops) presets /\
    buildPaletteTexture cfg size = Returned out /\
    sample stops cfg size k = Some (r, g, b) /\
    byte_rgb (r, g, b) /\
    texel out k = [r; g; b; 255%Z].
Proof.
  intros Hin Hname Hk.
  destruct (listed_preset name Hin) as [stops Hs].
  destruct (presets_gradient name stops Hs) as [Hg Hget].
  destruct (gradient_colors stops Hg) as (Hne & _).
  pose proof (presets_bytes name stops Hs) as Hbytes.
  destruct size as [|size]; [lia|].
  destruct (fill_defined stops cfg (S size) 0 (S size) Hne) as [out Hout].
  destruct (fill_texel _ _ _ _ _ _ k Hout Hk) as (r & g & b & Hsm & Ht).
  cbn [Nat.add] in Hsm.
  pose proof (sample_at_bytes _ _ _ _ Hbytes Hsm) as Hb.
  exists stops, out, r, g, b. split; [exact Hs|]. split.
  - unfold buildPaletteTexture. rewrite Hname, Hget. cbn [js_or].
    now rewrite Hout.
  - split; [exact Hsm|]. split; [exact Hb|].
    rewrite Ht. destruct Hb as (Hr & Hg' & Hb').
    now rewrite !to_uint8_byte.
Qed.

(** The middle sample of the fire preset at size 3. *)
Lemma listed_presets_build_exact_witness :
  exists stops out r g b,
    In ("fire", stops) presets /\
    buildPaletteTexture fire_linear 3 = Returned out /\
    sample stops fire_linear 3 1 = Some (r, g, b) /\
    byte_rgb (r, g, b) /\
    texel out 1 = [r; g; b; 255%Z].
Proof.
  apply (listed_presets_build_exact "fire" fire_linear 3 1).
  - right. right. left. reflexivity.
  - reflexivity.
  - lia.
Defined.

End GradientFacts.

(* ================================================================== *)
(** * Progress reports of an export *)
(* ================================================================== *)

Module ProgressFacts.
Import GLSL Shader Orbit State Renderer Inputs Examples.
Import ExportFacts RasterFacts.

Section Progress.

Variables (r : GLRenderer) (state : AppState) (opts : ExportOpts).
Variables (tile total : nat).

(** While the flag is not found set, each tile adds one report, the
    number of tiles done so far over the total. *)
Lemma tiles_loop_progress (todo : list (nat * nat)) (done : nat)
    (off : Canvas) (log : list R) :
  (forall j, (done <= j < done + List.length todo)%nat ->
             signal_aborted opts j = false) ->
  progress (tiles_loop r state opts tile total todo done off log)
  = (log ++ map (fun k => INR k / INR total)
                (seq (S done) (List.length todo)))%list.
Proof.
  revert done off log.
  induction todo as [|[tx ty] rest IH]; intros done off log Hno.
  - cbn. now rewrite app_nil_r.
  - cbn [tiles_loop]. rewrite (Hno done) by (simpl; lia).
    rewrite IH by (intros j Hj; apply Hno; simpl; lia).
    rewrite <- app_assoc. reflexivity.
Qed.

End Progress.

Lemma seq_last (n : nat) (d : R) (f : nat -> R) :
  last (map f (seq 1 (S n))) d = f (S n).
Proof.
  rewrite seq_S, map_app. cbn [map]. rewrite last_last.
  f_equal.
Qed.

(** X16.  An export that is not cancelled reports its progress once per
    tile: with [T] tiles, the calls of [onProgress] get the values
    [1/T, 2/T, ..., T/T] in this order, so the reports increase strictly
    and, when there is a tile at all, the last one is 1. *)
Theorem progress_reports (r : GLRenderer) (state : AppState)
    (opts : ExportOpts) :
  never_aborted opts ->
  let T := (ceil_div (opt_width opts) (tile_size opts)
            * ceil_div (opt_height opts) (tile_size opts))%nat in
  progress (exportTiled r state opts)
  = map (fun k => INR k / INR T) (seq 1 T) /\
  ((0 < T)%nat -> last (progress (exportTiled r state opts)) 0 = 1).
Proof.
  intros Hno T.
  assert (Hp : progress (exportTiled r state opts)
               = map (fun k => INR k / INR T) (seq 1 T)).
  { unfold exportTiled. fold T.
    rewrite tiles_loop_progress by (intros j _; apply Hno).
    rewrite tile_order_length. reflexivity. }
  split; [exact Hp|].
  intros HT. rewrite Hp. destruct T as [|n]; [lia|].
  rewrite seq_last. apply Rinv_r.
  apply not_0_INR. lia.
Qed.

(** The 1 x 2 canvas in tiles of 1: two reports, 1/2 and 1. *)
Lemma progress_reports_witness :
  progress (exportTiled white_renderer seam_state (opts_1x2 1))
  = [INR 1 / INR 2; INR 2 / INR 2].
Proof.
  apply (progress_reports white_renderer seam_state (opts_1x2 1)).
  intros k. reflexivity.
Defined.

End ProgressFacts.

(* ================================================================== *)
(** * The geometry of the coordinate mapper *)
(* ================================================================== *)

Module GeometryFacts.
Import GLSL Shader Orbit State Renderer Inputs Examples.
Import GLSLFacts EvaluatorFacts.




End GeometryFacts.

(* ================================================================== *)
(** * The on-screen frame *)
(* ================================================================== *)

Module FrameFacts.
Import GLSL Shader Orbit State Renderer Inputs Examples Frame.
Import ExportFacts RasterFacts.

Lemma setSize_renderer (w h : nat) (s : Screen) :
  renderer (setSize w h s) = renderer s.
Proof. unfold setSize. now destruct (_ || _). Qed.

(** The uniforms of a frame are those of the only tile of an export of
    the size of the frame. *)
Lemma frame_uniforms_tile (r : GLRenderer) (state : AppState)
    (opts : ExportOpts) (tile : nat) :
  tile_uniforms r state opts tile 0 0
  = frame_uniforms r state (opt_width opts) (opt_height opts).
Proof. reflexivity. Qed.

Lemma render_canvas (s : Screen) (d : Display) (detail : R)
    (state : AppState) :
  paused s = false ->
  let w := frame_side (clientWidth d) (dpr s d detail) in
  let h := frame_side (clientHeight d) (dpr s d detail) in
  canvas (render s d detail state)
  = drawArrays (frame_uniforms (renderer s) state w h) w h.
Proof.
  intros Hp w h. unfold render. rewrite Hp. cbn [canvas].
  now rewrite setSize_renderer.
Qed.

(** X18.  What is on the screen is what a one-tile export of the same
    size gives: when the renderer is not paused, the frame [render] draws
    is, pixel for pixel, the canvas that [exportTiled] resolves with for
    the same state, the width and height of the frame and a tile that
    covers it. *)
Theorem frame_is_one_tile_export (s : Screen) (d : Display) (detail : R)
    (state : AppState) (opts : ExportOpts) :
  paused s = false ->
  let shown := canvas (render s d detail state) in
  opt_width opts = width shown -> opt_height opts = height shown ->
  never_aborted opts ->
  (width shown <= tile_size opts)%nat ->
  (height shown <= tile_size opts)%nat ->
  exists off,
    outcome (exportTiled (renderer s) state opts) = Resolved off /\
    forall X Y, (X < width shown)%nat -> (Y < height shown)%nat ->
      pixel off X Y = pixel shown X Y.
Proof.
  intros Hp shown. unfold shown. rewrite (render_canvas s d detail state Hp).
  cbv zeta. cbn [width height].
  set (w := frame_side (clientWidth d) (dpr s d detail)).
  set (h := frame_side (clientHeight d) (dpr s d detail)).
  intros HW HH Hno HtW HtH.
  destruct (exportTiled_pixel (renderer s) state opts Hno) as (off & Ho & Hpx).
  exists off. split; [exact Ho|].
  intros X Y HX HY. rewrite Hpx by lia.
  unfold tiled_pixel, drawArrays. cbn [pixel].
  rewrite (Nat.div_small X), (Nat.div_small Y) by lia.
  rewrite (Nat.mod_small X), (Nat.mod_small Y) by lia.
  rewrite frame_uniforms_tile, HW, HH. cbn [Nat.mul].
  rewrite Nat.sub_0_r, Nat.min_r by lia. reflexivity.
Qed.

(** The sides of a frame. *)

Lemma Int_part_mono (x y : R) : x <= y -> (Int_part x <= Int_part y)%Z.
Proof.
  intros H.
  destruct (base_Int_part x) as [Hx _].
  destruct (base_Int_part y) as [_ Hy].
  assert (Hlt : IZR (Int_part x) < IZR (Int_part y + 1))
    by (rewrite plus_IZR; lra).
  apply lt_IZR in Hlt. lia.
Qed.

Lemma Int_part_nonneg (x : R) : 0 <= x -> (0 <= Int_part x)%Z.
Proof.
  intros H. replace 0%Z with (Int_part 0).
  - now apply Int_part_mono.
  - symmetry. apply Int_part_spec. lra.
Qed.

Lemma Int_part_IZR (z : Z) : Int_part (IZR z) = z.
Proof. symmetry. apply Int_part_spec. lra. Qed.

Lemma Int_part_half (y : R) : (2 * Int_part (y / 2) <= Int_part y)%Z.
Proof.
  destruct (base_Int_part (y / 2)) as [H1 _].
  destruct (base_Int_part y) as [_ H2].
  assert (Hlt : IZR (2 * Int_part (y / 2)) < IZR (Int_part y + 1))
    by (rewrite mult_IZR, plus_IZR; lra).
  apply lt_IZR in Hlt. lia.
Qed.

Lemma clamped_ratio (x : option R) : 1 <= Rmax 1 (Rmin 3 (or_one x)) <= 3.
Proof.
  unfold Rmax, Rmin. destruct (Rle_dec 3 (or_one x));
    match goal with |- context [Rle_dec ?a ?b] => destruct (Rle_dec a b) end;
    lra.
Qed.

(** X19.  The size of the frame.  Each side of the frame is the CSS size
    of the canvas times the device pixel ratio, clamped to [1, 3], times
    the detail factor, rounded down.  So a side never exceeds
    [3 * detail] times the CSS size, whatever the device reports, is at
    least the CSS size times the detail rounded down, and the preview
    mode of a drag at least halves it: a preview frame has at most a
    quarter of the pixels of the full frame. *)
Theorem frame_size (s : Screen) (d : Display) (detail client : R) :
  0 <= client -> 0 <= detail ->
  let full := frame_side client (dpr (withPreview false s) d detail) in
  let preview := frame_side client (dpr (withPreview true s) d detail) in
  (2 * preview <= full)%nat /\
  (Z.to_nat (Int_part (client * detail)) <= full)%nat /\
  INR full <= 3 * detail * client.
Proof.
  intros Hc Hd. unfold frame_side, dpr, withPreview. cbn [previewScale].
  pose proof (clamped_ratio (devicePixelRatio d)) as Hm.
  set (m := Rmax 1 (Rmin 3 (or_one (devicePixelRatio d)))) in *.
  clearbody m.
  assert (Hcd : 0 <= client * detail) by now apply Rmult_le_pos.
  set (y := client * (m * detail * 1)).
  assert (Hy : client * detail <= y <= 3 * detail * client)
    by (unfold y; nra).
  replace (client * (m * detail * (1 / 2))) with (y / 2)
    by (unfold y; field).
  pose proof (Int_part_half y) as Hhalf.
  pose proof (Int_part_mono (client * detail) y ltac:(lra)) as Hlow.
  pose proof (Int_part_nonneg y ltac:(lra)) as Hpos.
  pose proof (Int_part_nonneg (y / 2) ltac:(lra)) as Hpos2.
  cbv zeta. split; [lia|]. split; [lia|].
  rewrite INR_IZR_INZ, Z2Nat.id by exact Hpos.
  destruct (base_Int_part y) as [Hfl _]. lra.
Qed.

(** A canvas 800 CSS pixels wide on a display of ratio 2, detail 2. *)
Lemma frame_size_witness :
  (2 * frame_side 800 (dpr (withPreview true screen) display_2x 2)
   <= frame_side 800 (dpr (withPreview false screen) display_2x 2))%nat.
Proof.
  apply (frame_size screen display_2x 2 800); lra.
Defined.

Lemma frame_side_1x1 : frame_side 1 (dpr screen display_1x1 1) = 1%nat.
Proof.
  unfold frame_side, dpr, display_1x1, screen, or_one.
  cbn [devicePixelRatio previewScale].
  rewrite (Rmin_right 3 1) by lra. rewrite (Rmax_left 1 1) by lra.
  replace (1 * (1 * 1 * 1)) with (IZR 1) by ring.
  now rewrite Int_part_IZR.
Qed.

Lemma frame_is_one_tile_export_witness :
  exists off,
    outcome (exportTiled white_renderer seam_state
               {| opt_width := 1; opt_height := 1; opt_tile := None;
                  opt_signal := None |}) = Resolved off /\
    forall X Y, (X < 1)%nat -> (Y < 1)%nat ->
      pixel off X Y
      = pixel (canvas (render screen display_1x1 1 seam_state)) X Y.
Proof.
  pose proof (render_canvas screen display_1x1 1 seam_state eq_refl) as Hc.
  cbv zeta in Hc. cbn [clientWidth clientHeight display_1x1] in Hc.
  rewrite frame_side_1x1 in Hc.
  destruct (frame_is_one_tile_export screen display_1x1 1 seam_state
              {| opt_width := 1; opt_height := 1; opt_tile := None;
                 opt_signal := None |}) as (off & Ho & Hpx).
  - reflexivity.
  - rewrite Hc. reflexivity.
  - rewrite Hc. reflexivity.
  - intros k. reflexivity.
  - rewrite Hc. cbn. lia.
  - rewrite Hc. cbn. lia.
  - exists off. split; [exact Ho|].
    intros X Y HX HY. apply Hpx; rewrite Hc; assumption.
Defined.

End FrameFacts.

(* ================================================================== *)
(** * Uniform names in either convention *)
(* ================================================================== *)

Module UniformFacts.
Import Uniform Examples.

Local Open Scope char_scope.

Lemma upper_lower (c : ascii) :
  upper_case c = true ->
  lower_case (toLowerCase c) = true /\ toUpperCase (toLowerCase c) = c.
Proof.
  destruct c as [[] [] [] [] [] [] [] []]; vm_compute;
    intros H; try discriminate H; split; reflexivity.
Qed.

Lemma lower_upper (c : ascii) :
  lower_case c = true ->
  upper_case (toUpperCase c) = true /\ toLowerCase (toUpperCase c) = c.
Proof.
  destruct c as [[] [] [] [] [] [] [] []]; vm_compute;
    intros H; try discriminate H; split; reflexivity.
Qed.

Lemma underscore_not_upper : upper_case "_" = false.
Proof. reflexivity. Qed.

Lemma toCamel_cons (c : ascii) (s : string) :
  (c =? "_") = false -> toCamel (String c s) = String c (toCamel s).
Proof.
  intros H. cbn [toCamel]. rewrite H. cbn [andb].
  destruct s; reflexivity.
Qed.

Lemma toCamel_two (c d : ascii) (s : string) :
  toCamel (String c (String d s))
  = if (c =? "_") && lower_case d then String (toUpperCase d) (toCamel s)
    else String c (toCamel (String d s)).
Proof. reflexivity. Qed.

(** Snake case and back: a name without an underscore. *)
Lemma toCamel_toSnake (s : string) :
  includes s "_" = false -> toCamel (toSnake s) = s.
Proof.
  induction s as [|c rest IH]; [reflexivity|].
  cbn [includes]. intros H. apply orb_false_iff in H. destruct H as [Hc Hr].
  cbn [toSnake]. destruct (upper_case c) eqn:Hu.
  - destruct (upper_lower c Hu) as [Hl Hb].
    cbn [toCamel]. rewrite Hl. cbn [Ascii.eqb Bool.eqb andb].
    rewrite Hb. f_equal. cbn [toSnake] in IH. now apply IH.
  - rewrite toCamel_cons by exact Hc. f_equal. now apply IH.
Qed.

(** Camel case and back: a name without an upper-case letter. *)
Lemma toSnake_toCamel_upto (n : nat) (s : string) :
  (String.length s <= n)%nat ->
  any_upper s = false -> toSnake (toCamel s) = s.
Proof.
  revert s. induction n as [|n IH]; intros s Hlen Hup.
  - destruct s; [reflexivity | simpl in Hlen; lia].
  - destruct s as [|c rest]; [reflexivity|].
    cbn [any_upper] in Hup. apply orb_false_iff in Hup.
    destruct Hup as [Hc Hr]. cbn [String.length] in Hlen.
    destruct rest as [|d rest'].
    + cbn [toCamel toSnake]. now rewrite Hc.
    + cbn [any_upper] in Hr. apply orb_false_iff in Hr.
      destruct Hr as [Hd Hr']. cbn [String.length] in Hlen.
      rewrite toCamel_two. destruct ((c =? "_") && lower_case d) eqn:E.
      * apply andb_true_iff in E. destruct E as [Ec El].
        apply Ascii.eqb_eq in Ec. subst c.
        destruct (lower_upper d El) as [Hu Hb].
        cbn [toSnake]. rewrite Hu, Hb. f_equal. f_equal.
        apply IH; [lia | exact Hr'].
      * cbn [toSnake]. rewrite Hc. f_equal.
        apply IH; [cbn [String.length]; lia|].
        cbn [any_upper]. now rewrite Hd, Hr'.
Qed.

Lemma toSnake_toCamel (s : string) :
  any_upper s = false -> toSnake (toCamel s) = s.
Proof. apply (toSnake_toCamel_upto (String.length s)). lia. Qed.

Lemma toSnake_includes (s : string) :
  any_upper s = true -> includes (toSnake s) "_" = true.
Proof.
  induction s as [|c rest IH]; [discriminate|].
  cbn [any_upper toSnake]. destruct (upper_case c) eqn:Hu.
  - intros _. reflexivity.
  - cbn [orb includes]. intros H. rewrite (IH H). apply orb_true_r.
Qed.

Lemma index_of_In (name : string) (names : list string) (i : nat) :
  In name names -> index_of name names i <> None.
Proof.
  revert i. induction names as [|n rest IH]; intros i; [contradiction|].
  cbn [In index_of]. intros [->|Hin].
  - now rewrite String.eqb_refl.
  - destruct (String.eqb n name); [discriminate | now apply IH].
Qed.

Local Open Scope string_scope.

(** X20.  The two conversions of [getUniformIfExists] undo each other:
    a name without an underscore is got back from its snake-case form,
    and a name without an upper-case letter from its camel-case form. *)
Theorem case_round_trip (s : string) :
  (includes s "_" = false -> toCamel (toSnake s) = s) /\
  (any_upper s = false -> toSnake (toCamel s) = s).
Proof.
  split; [apply toCamel_toSnake | apply toSnake_toCamel].
Qed.

(** X21.  The alias lookup finds a uniform declared in the other naming
    convention: in a valid program, a uniform declared in camel case
    (with an upper-case letter and no underscore) is found under its
    snake-case name, and a uniform declared without upper-case letters is
    found under its camel-case name when that name has no underscore
    left. *)
Theorem alias_finds_other_convention (program : Program)
    (declared : string) :
  isProgram program = true -> In declared (activeUniforms program) ->
  (includes declared "_" = false -> any_upper declared = true ->
   getUniformIfExists program (toSnake declared) <> None) /\
  (any_upper declared = false -> includes (toCamel declared) "_" = false ->
   getUniformIfExists program (toCamel declared) <> None).
Proof.
  intros Hp Hin. unfold getUniformIfExists. rewrite Hp. cbn [negb].
  pose proof (index_of_In declared (activeUniforms program) 0 Hin) as Hloc.
  split.
  - intros Hno Hup.
    destruct (getUniformLocation program (toSnake declared));
      [discriminate|].
    rewrite (toSnake_includes declared Hup), (toCamel_toSnake declared Hno).
    exact Hloc.
  - intros Hup Hno.
    destruct (getUniformLocation program (toCamel declared));
      [discriminate|].
    rewrite Hno, (toSnake_toCamel declared Hup). exact Hloc.
Qed.

(** [uResolution] is found as [u_resolution], and [u_scale] as [uScale]. *)
Lemma alias_finds_other_convention_witness :
  getUniformIfExists shader_program "u_resolution" <> None /\
  getUniformIfExists shader_program "uScale" <> None.
Proof.
  split.
  - destruct (alias_finds_other_convention shader_program "uResolution")
      as [H _]; [reflexivity | right; right; left; reflexivity |].
    exact (H eq_refl eq_refl).
  - destruct (alias_finds_other_convention shader_program "u_scale")
      as [_ H]; [reflexivity | right; left; reflexivity |].
    exact (H eq_refl eq_refl).
Defined.

End UniformFacts.

(* ================================================================== *)
(** * The store: history, settings and bookmarks *)
(* ================================================================== *)

Module StoreFacts.
Import GLSL Shader Orbit State Renderer Inputs Examples Store.
Import GLSLFacts EvaluatorFacts VerdictFacts.

Lemma with_view_same (a : AppState) : with_view (view a) a = a.
Proof. now destruct a. Qed.

Lemma with_view_twice (v w : View) (a : AppState) :
  with_view v (with_view w a) = with_view v a.
Proof. reflexivity. Qed.

(** [redoPop] undoes [undo], and [undo] undoes [redoPop]. *)
Lemma redoPop_undo (s : Store) : history s <> [] -> redoPop (undo s) = s.
Proof.
  destruct s as [a h r b]. cbn [history]. intros Hne.
  unfold undo. cbn [history current redo bookmarks].
  destruct h as [|x h']; [contradiction|].
  unfold redoPop. cbn [history current redo bookmarks view with_view].
  rewrite <- app_removelast_last by discriminate.
  change (with_view (view a) a) with
    {| view := view a; juliaC := juliaC a; palette := palette a;
       adjust := adjust a; mapping := mapping a; render := render a |}.
  now destruct a.
Qed.

Lemma undo_redoPop (s : Store) : redo s <> [] -> undo (redoPop s) = s.
Proof.
  destruct s as [a h r b]. cbn [redo]. intros Hne.
  unfold redoPop. cbn [history current redo bookmarks].
  destruct r as [|next rest]; [contradiction|].
  unfold undo. cbn [history current redo bookmarks view with_view].
  destruct (h ++ [view a])%list as [|y t] eqn:E;
    [now destruct h|].
  rewrite <- E. rewrite last_last, removelast_last.
  now destruct a.
Qed.

Lemma undo_history_length (s : Store) :
  List.length (history (undo s)) = (List.length (history s) - 1)%nat.
Proof.
  unfold undo. destruct (history s) as [|x h] eqn:E.
  - rewrite E. reflexivity.
  - cbn [history].
    destruct (exists_last (l:=x :: h) ltac:(discriminate)) as (l' & z & ->).
    rewrite removelast_last, length_app. simpl. lia.
Qed.

Lemma redoPop_redo_length (s : Store) :
  List.length (redo (redoPop s)) = (List.length (redo s) - 1)%nat.
Proof.
  unfold redoPop. destruct (redo s) as [|x r] eqn:E.
  - rewrite E. reflexivity.
  - cbn [redo List.length]. lia.
Qed.

Lemma undos_history_length (n : nat) (s : Store) :
  List.length (history (Nat.iter n undo s))
  = (List.length (history s) - n)%nat.
Proof.
  induction n as [|n IH]; [cbn; lia|].
  rewrite Nat.iter_succ, undo_history_length, IH. lia.
Qed.

Lemma redos_redo_length (n : nat) (s : Store) :
  List.length (redo (Nat.iter n redoPop s))
  = (List.length (redo s) - n)%nat.
Proof.
  induction n as [|n IH]; [cbn; lia|].
  rewrite Nat.iter_succ, redoPop_redo_length, IH. lia.
Qed.

Lemma nonempty_length (A : Type) (l : list A) :
  (0 < List.length l)%nat -> l <> [].
Proof. destruct l; simpl; [lia | discriminate]. Qed.

Lemma redos_undos (n : nat) (s : Store) :
  (n <= List.length (history s))%nat ->
  Nat.iter n redoPop (Nat.iter n undo s) = s.
Proof.
  induction n as [|n IH]; intros Hn; [reflexivity|].
  rewrite Nat.iter_succ_r, (Nat.iter_succ n _ undo).
  rewrite redoPop_undo.
  - apply IH. lia.
  - apply nonempty_length. rewrite undos_history_length. lia.
Qed.

Lemma undos_redos (n : nat) (s : Store) :
  (n <= List.length (redo s))%nat ->
  Nat.iter n undo (Nat.iter n redoPop s) = s.
Proof.
  induction n as [|n IH]; intros Hn; [reflexivity|].
  rewrite Nat.iter_succ_r, (Nat.iter_succ n _ redoPop).
  rewrite undo_redoPop.
  - apply IH. lia.
  - apply nonempty_length. rewrite redos_redo_length. lia.
Qed.

(** X22.  Undo and redo are inverse to each other on the whole store:
    [n] undos followed by [n] redos give back the store as it was, view,
    both stacks and all, whenever the history holds at least [n] views,
    and likewise [n] redos followed by [n] undos whenever the redo stack
    holds at least [n]; on an empty stack each of them does nothing. *)
Theorem undo_redo_inverse (n : nat) (s : Store) :
  ((n <= List.length (history s))%nat ->
   Nat.iter n redoPop (Nat.iter n undo s) = s) /\
  ((n <= List.length (redo s))%nat ->
   Nat.iter n undo (Nat.iter n redoPop s) = s) /\
  (history s = [] -> undo s = s) /\
  (redo s = [] -> redoPop s = s).
Proof.
  split; [apply redos_undos|]. split; [apply undos_redos|]. split.
  - intros H. unfold undo. now rewrite H.
  - intros H. unfold redoPop. now rewrite H.
Qed.

(** Stores that differ at most in their redo stack. *)
Lemma undo_but_redo (s t : Store) :
  current s = current t -> history s = history t ->
  bookmarks s = bookmarks t ->
  current (undo s) = current (undo t) /\
  history (undo s) = history (undo t) /\
  bookmarks (undo s) = bookmarks (undo t).
Proof.
  intros Hc Hh Hb. unfold undo. rewrite Hh.
  destruct (history t) as [|x h] eqn:E.
  - rewrite Hc, Hh, Hb, E. auto.
  - cbn [current history bookmarks]. rewrite Hc, Hb. auto.
Qed.

Lemma undos_but_redo (n : nat) (s t : Store) :
  current s = current t -> history s = history t ->
  bookmarks s = bookmarks t ->
  current (Nat.iter n undo s) = current (Nat.iter n undo t) /\
  history (Nat.iter n undo s) = history (Nat.iter n undo t) /\
  bookmarks (Nat.iter n undo s) = bookmarks (Nat.iter n undo t).
Proof.
  intros Hc Hh Hb. induction n as [|n IH]; [cbn; auto|].
  rewrite !Nat.iter_succ.
  destruct IH as (H1 & H2 & H3). now apply undo_but_redo.
Qed.

Lemma undo_setView (v : ViewPatch) (s : Store) :
  current (undo (setView v true s)) = current s /\
  history (undo (setView v true s)) = history s /\
  bookmarks (undo (setView v true s)) = bookmarks s.
Proof.
  unfold setView, undo. cbn [history current redo bookmarks].
  destruct (history s ++ [view (current s)])%list as [|y t] eqn:E;
    [now destruct (history s)|].
  rewrite <- E. cbn [history current redo bookmarks].
  rewrite last_last, removelast_last, with_view_twice, with_view_same.
  auto.
Qed.

(** X23.  Every change of view that is recorded can be taken back: after
    any sequence of [setView] calls that push the history, as many undos
    bring back the state the renderer reads (the view with it) and the
    history as they were before the first call; the bookmarks are not
    touched. *)
Theorem undo_takes_back (vs : list ViewPatch) (s : Store) :
  let moved := fold_left (fun s v => setView v true s) vs s in
  current (Nat.iter (List.length vs) undo moved) = current s /\
  history (Nat.iter (List.length vs) undo moved) = history s /\
  bookmarks (Nat.iter (List.length vs) undo moved) = bookmarks s.
Proof.
  induction vs as [|v vs IH] using rev_ind; [cbn; auto|].
  cbv zeta in *. rewrite fold_left_app, length_app. cbn [fold_left].
  replace (List.length vs + List.length [v])%nat with (S (List.length vs))
    by (simpl; lia).
  rewrite Nat.iter_succ_r.
  set (moved := fold_left (fun s v => setView v true s) vs s) in *.
  destruct (undo_setView v moved) as (Hc & Hh & Hb).
  destruct (undos_but_redo (List.length vs) _ _ Hc Hh Hb) as (H1 & H2 & H3).
  destruct IH as (I1 & I2 & I3).
  rewrite H1, H2, H3. auto.
Qed.

(** The settings the store accepts. *)

Lemma clamp_range (v a b : R) : a <= b -> a <= Rmin b (Rmax a v) <= b.
Proof.
  intros H. unfold Rmin, Rmax.
  destruct (Rle_dec a v); destruct (Rle_dec b _); lra.
Qed.

Lemma Int_part_range (x : R) (a b : Z) :
  IZR a <= x <= IZR b -> (a <= Int_part x <= b)%Z.
Proof.
  intros [Ha Hb]. destruct (base_Int_part x) as [H1 H2]. split.
  - assert (Hlt : IZR a < IZR (Int_part x + 1))
      by (rewrite plus_IZR; lra).
    apply lt_IZR in Hlt. lia.
  - apply le_IZR. lra.
Qed.

(** [clamp] returns a real number within its bounds on every number but
    NaN, the infinities included. *)
Lemma clamp_number (v : number) (a b : R) :
  a <= b -> v <> NaN -> exists x, clamp v a b = Num x /\ a <= x <= b.
Proof.
  intros H Hv. destruct v as [x| | |]; cbn [clamp Math_max Math_min].
  - exists (Rmin b (Rmax a x)). split; [reflexivity|]. now apply clamp_range.
  - exists b. split; [reflexivity | lra].
  - exists (Rmin b a). split; [reflexivity|].
    rewrite Rmin_right by exact H. lra.
  - contradiction.
Qed.

(** X24.  The store keeps the two settings the shader floors and caps
    within range for every number but NaN: [setIterations] then stores a
    whole number of iterations in 50..20000 and [setPower] an exponent in
    [2, 16], also when the number is an infinity.  NaN passes through
    [Math.max], [Math.min] and [Math.floor], so on NaN each setter stores
    NaN, which is in no range.  With settings stored from numbers other
    than NaN the shader takes the exponent as it is, the loop of every
    pixel of every tile ends within 20000 iterations, below its own bound
    of 100000, and a pixel that is not reported as escaped has run exactly
    the stored number of iterations. *)
Theorem stored_settings_in_range (n p : number) (s : Store) (r : GLRenderer)
    (opts : ExportOpts) (tile tx ty : nat) (c0 : vec2) :
  (Math_floor (clamp NaN 50 20000) = NaN /\ clamp NaN 2 16 = NaN /\
   setIterations NaN s = None /\ setPower NaN s = None) /\
  (n <> NaN -> p <> NaN ->
   exists s1 s2 : Store,
     setIterations n s = Some s1 /\ setPower p s1 = Some s2 /\
     (50 <= iterations (render (current s2)) <= 20000)%Z /\
     2 <= power (render (current s2)) <= 16 /\
     eff_power (tile_uniforms r (current s2) opts tile tx ty)
     = power (render (current s2)) /\
     (Z.of_nat (iterationCount
                  (evaluate (tile_uniforms r (current s2) opts tile tx ty) c0))
      <= 20000)%Z /\
     (escaped (evaluate (tile_uniforms r (current s2) opts tile tx ty) c0)
      = false ->
      Z.of_nat (iterationCount
                  (evaluate (tile_uniforms r (current s2) opts tile tx ty) c0))
      = iterations (render (current s2)))).
Proof.
  split; [repeat split|]. intros Hn Hp.
  destruct (clamp_number n 50 20000 ltac:(lra) Hn) as (x & Hx & Hxr).
  destruct (clamp_number p 2 16 ltac:(lra) Hp) as (y & Hy & Hyr).
  unfold setIterations, setPower. rewrite Hx, Hy. cbn [Math_floor].
  eexists. eexists. split; [reflexivity|]. split; [reflexivity|].
  cbn [current render with_render iterations power].
  assert (Hi : (50 <= Int_part (IZR (Int_part x)) <= 20000)%Z).
  { rewrite FrameFacts.Int_part_IZR. apply Int_part_range. exact Hxr. }
  split; [exact Hi|]. split; [exact Hyr|].
  match goal with
  | |- context [tile_uniforms r ?a opts tile tx ty] =>
    set (u := tile_uniforms r a opts tile tx ty)
  end.
  assert (Hm : u_maxIter u = Int_part (IZR (Int_part x))) by reflexivity.
  split.
  - unfold eff_power. change (u_power u) with y. apply max_right. lra.
  - pose proof (run_exit u c0) as H. cbv zeta in H. unfold evaluate.
    destruct (run u c0) as [i z].
    cbn [fst snd escaped iterationCount] in *.
    destruct H as (Hle & _). rewrite Hm in *. split; [lia|].
    intros Hesc. apply negb_false_iff, Z.leb_le in Hesc. lia.
Qed.

(** A request for a million iterations and an infinite exponent. *)
Lemma stored_settings_in_range_witness :
  exists s1 s2 : Store,
    setIterations (Num 1000000) fresh_store = Some s1 /\
    setPower PlusInfinity s1 = Some s2 /\
    (50 <= iterations (render (current s2)) <= 20000)%Z /\
    2 <= power (render (current s2)) <= 16.
Proof.
  destruct (stored_settings_in_range (Num 1000000) PlusInfinity fresh_store
              white_renderer (opts_1x2 1) 1 0 0 (0, 0)) as [_ H].
  destruct (H ltac:(discriminate) ltac:(discriminate))
    as (s1 & s2 & H1 & H2 & Hi & Hp & _).
  exists s1, s2. split; [exact H1|]. split; [exact H2|].
  split; [exact Hi | exact Hp].
Defined.

(** Bookmarks. *)

Lemma find_added (id0 : string) (nt : option string) (s : Store) :
  find (fun x => String.eqb (id x) id0)
       (bookmarks (addBookmark id0 nt s))
  = Some {| id := id0; bm_view := view (current s);
            iter := iterations (render (current s));
            pow := power (render (current s)); note := nt |}.
Proof.
  unfold addBookmark. cbn [bookmarks firstn find id].
  now rewrite String.eqb_refl.
Qed.

Lemma find_removed (id0 : string) (l : list Bookmark) :
  find (fun x => String.eqb (id x) id0)
       (filter (fun b => negb (String.eqb (id b) id0)) l) = None.
Proof.
  induction l as [|b l IH]; [reflexivity|].
  cbn [filter]. destruct (String.eqb (id b) id0) eqn:E; cbn [negb].
  - exact IH.
  - cbn [find]. now rewrite E.
Qed.

(** X25.  A bookmark brings back what it saved.  While the bookmark list
    is the one [addBookmark] left, [loadBookmark] with the new
    identifier restores the view, the iteration count and the exponent
    of the moment of saving, even if an older bookmark has the same
    identifier; the view it replaces goes on the history, so one undo
    returns to it.  The list never holds more than 64 bookmarks, and
    after [removeBookmark] loading the removed identifier changes
    nothing. *)
Theorem bookmark_round_trip (id0 : string) (nt : option string)
    (s0 s : Store) :
  bookmarks s = bookmarks (addBookmark id0 nt s0) ->
  let s' := loadBookmark id0 s in
  view (current s') = view (current s0) /\
  iterations (render (current s')) = iterations (render (current s0)) /\
  power (render (current s')) = power (render (current s0)) /\
  view (current (undo s')) = view (current s) /\
  (List.length (bookmarks (addBookmark id0 nt s0)) <= 64)%nat /\
  loadBookmark id0 (removeBookmark id0 s) = removeBookmark id0 s.
Proof.
  intros Hb s'. unfold s', loadBookmark. rewrite Hb, find_added.
  cbn [bm_view iter pow].
  split; [now destruct (view (current s0))|].
  split; [reflexivity|]. split; [reflexivity|]. split.
  - unfold setView, undo. cbn [history current redo bookmarks].
    destruct (history s ++ [view (current s)])%list as [|y t] eqn:E;
      [now destruct (history s)|].
    rewrite <- E. cbn [current view with_view with_render].
    now rewrite last_last.
  - split.
    + unfold addBookmark. cbn [bookmarks]. rewrite length_firstn. lia.
    + unfold removeBookmark at 1. cbn [bookmarks].
      now rewrite find_removed.
Qed.

Local Open Scope string_scope.

(** Save the default view, move away, and load the bookmark. *)
Lemma bookmark_round_trip_witness :
  view (current (loadBookmark "a"
                   (setView (move_to 1) true
                      (addBookmark "a" None fresh_store))))
  = view (current fresh_store).
Proof.
  apply (bookmark_round_trip "a" None fresh_store
           (setView (move_to 1) true (addBookmark "a" None fresh_store))).
  reflexivity.
Defined.

End StoreFacts.

(* ================================================================== *)
(** * Pointer and wheel interactions *)
(* ================================================================== *)

Module ViewFacts.
Import GLSL Shader State Renderer Inputs Examples Store CanvasView.
Import GLSLFacts.



(** X27.  The wheel zooms about the cursor: after [wheelZoom] the
    complex point under the cursor is the one that was there before, the
    new scale lies within [1e-15, 8], the view that was replaced is on
    the history and the redo stack is empty. *)
Theorem wheel_zoom_anchor (rect : DOMRect) (clientX clientY deltaY : R)
    (ctrlKey : bool) (s : Store) :
  0 < rect_width rect -> 0 < rect_height rect ->
  let s' := wheelZoom rect clientX clientY deltaY ctrlKey s in
  re (posToComplex rect (view (current s')) clientX clientY)
  = re (posToComplex rect (view (current s)) clientX clientY) /\
  im (posToComplex rect (view (current s')) clientX clientY)
  = im (posToComplex rect (view (current s)) clientX clientY) /\
  1 / 1000000000000000 <= scale (view (current s')) <= 8 /\
  history s' = (history s ++ [view (current s)])%list /\
  redo s' = [].
Proof.
  intros HW HH s'. unfold s', wheelZoom, setView, posToComplex.
  cbn [current view with_view merge_view patch_cx patch_cy patch_scale
       cx cy scale re im history redo].
  split; [ring|]. split; [ring|]. split; [|split; reflexivity].
  apply (StoreFacts.clamp_range _ (1 / 1000000000000000) 8). lra.
Qed.

(** A wheel step at the middle of the 800 x 600 canvas. *)
Lemma wheel_zoom_anchor_witness :
  re (posToComplex rect_800x600
        (view (current (wheelZoom rect_800x600 400 300 (-1) false
                          fresh_store))) 400 300)
  = re (posToComplex rect_800x600 (view (current fresh_store)) 400 300).
Proof.
  apply (wheel_zoom_anchor rect_800x600 400 300 (-1) false fresh_store);
    cbn; lra.
Defined.

(** X28.  A drag moves the picture with the pointer: while the scale is
    the one the drag started with, after [onPointerMove] the complex
    point under the pointer is the point that was under it when the
    button went down; the move is not recorded in the history. *)
Theorem pan_keeps_grip (rect : DOMRect) (shown : View)
    (x0 y0 clientX clientY : R) (s : Store) :
  0 < rect_width rect -> 0 < rect_height rect ->
  scale (view (current s)) = scale shown ->
  let ds := onPointerDown rect shown x0 y0 in
  let s' := onPointerMove rect (Some ds) None clientX clientY s in
  re (posToComplex rect (view (current s')) clientX clientY)
  = re (posToComplex rect shown x0 y0) /\
  im (posToComplex rect (view (current s')) clientX clientY)
  = im (posToComplex rect shown x0 y0) /\
  history s' = history s /\ redo s' = redo s.
Proof.
  intros HW HH Hs ds s'.
  unfold s', ds, onPointerMove, onPointerDown, setView, posToComplex.
  cbn [current view with_view merge_view patch_cx patch_cy patch_scale
       cx cy scale re im x y history redo start_x start_y start_view].
  rewrite Hs. unfold Rdiv.
  split; [ring|]. split; [ring|]. split; reflexivity.
Qed.

(** A drag across the 800 x 600 canvas. *)
Lemma pan_keeps_grip_witness :
  re (posToComplex rect_800x600
        (view (current
           (onPointerMove rect_800x600
              (Some (onPointerDown rect_800x600 (view (current fresh_store))
                       100 100))
              None 300 200 fresh_store))) 300 200)
  = re (posToComplex rect_800x600 (view (current fresh_store)) 100 100).
Proof.
  apply (pan_keeps_grip rect_800x600 (view (current fresh_store))
           100 100 300 200 fresh_store).
  - cbn. lra.
  - cbn. lra.
  - reflexivity.
Defined.

(** X29.  The box zoom shows the whole selection and no more than the
    aspect ratio demands: for a selection of positive width and height
    the new view is centred on the centre of the box, its width and its
    height (the width over the aspect ratio of the canvas) are at least
    those of the box, and one of the two is exactly that of the box; the
    old view goes on the history.  A selection without width or height
    changes nothing. *)
Theorem box_zoom_covers (rect : DOMRect) (shown : View)
    (x0 y0 clientX clientY : R) (s : Store) :
  0 < rect_width rect ->
  let p0 := posToComplex rect shown x0 y0 in
  let p1 := posToComplex rect shown clientX clientY in
  let w0 := Rabs (re p1 - re p0) in
  let h0 := Rabs (im p1 - im p0) in
  let aspect := rect_width rect / Rmax 1 (rect_height rect) in
  let s' := onPointerUp rect shown (Some (x0, y0)) clientX clientY s in
  (0 < w0 -> 0 < h0 ->
   cx (view (current s')) = (re p0 + re p1) * (1 / 2) /\
   cy (view (current s')) = (im p0 + im p1) * (1 / 2) /\
   w0 <= scale (view (current s')) /\
   h0 <= scale (view (current s')) / aspect /\
   (scale (view (current s')) = w0 \/
    scale (view (current s')) / aspect = h0) /\
   history s' = (history s ++ [view (current s)])%list) /\
  (w0 = 0 \/ h0 = 0 -> s' = s).
Proof.
  intros HW p0 p1 w0 h0 aspect s'.
  assert (Ha : 0 < aspect).
  { unfold aspect. apply Rdiv_lt_0_compat; [exact HW|].
    unfold Rmax. destruct (Rle_dec 1 (rect_height rect)); lra. }
  unfold s', onPointerUp. fold p0 p1. fold w0 h0. fold aspect.
  split.
  - intros Hw Hh.
    destruct (Rlt_dec 0 w0) as [_|N]; [|contradiction].
    destruct (Rlt_dec 0 h0) as [_|N]; [|contradiction].
    unfold setView.
    cbn [current view with_view merge_view patch_cx patch_cy patch_scale
         cx cy scale history].
    split; [reflexivity|]. split; [reflexivity|].
    destruct (Rgt_dec (w0 / h0) aspect) as [Hgt|Hle].
    + assert (Hwa : aspect * h0 < w0).
      { apply Rmult_lt_reg_r with (/ h0); [now apply Rinv_0_lt_compat|].
        replace (aspect * h0 * / h0) with aspect by (field; lra).
        exact Hgt. }
      split; [lra|]. split; [|split; [now left | reflexivity]].
      apply Rmult_le_reg_r with aspect; [exact Ha|].
      replace (w0 / aspect * aspect) with w0 by (field; lra). lra.
    + assert (Hwa : w0 <= aspect * h0).
      { apply Rnot_gt_le in Hle.
        apply Rmult_le_reg_r with (/ h0); [now apply Rinv_0_lt_compat|].
        replace (aspect * h0 * / h0) with aspect by (field; lra).
        exact Hle. }
      replace (h0 * aspect / aspect) with h0 by (field; lra).
      split; [lra|]. split; [lra|]. split; [now right | reflexivity].
  - intros [H|H].
    + destruct (Rlt_dec 0 w0); [lra | reflexivity].
    + destruct (Rlt_dec 0 w0); [|reflexivity].
      destruct (Rlt_dec 0 h0); [lra | reflexivity].
Qed.

(** A box from (100, 100) to (500, 400) on the 800 x 600 canvas: the new
    view is centred on the centre of the box. *)
Lemma box_zoom_covers_witness :
  cx (view (current
        (onPointerUp rect_800x600 (view (current fresh_store))
           (Some (100, 100)) 500 400 fresh_store)))
  = (re (posToComplex rect_800x600 (view (current fresh_store)) 100 100)
     + re (posToComplex rect_800x600 (view (current fresh_store)) 500 400))
    * (1 / 2).
Proof.
  destruct (box_zoom_covers rect_800x600 (view (current fresh_store))
              100 100 500 400 fresh_store) as [H _].
  - cbn. lra.
  - apply H.
    + apply Rabs_pos_lt. cbn. lra.
    + apply Rabs_pos_lt. cbn. rewrite (Rmax_right 1 600) by lra. lra.
Defined.

End ViewFacts.

(* ================================================================== *)
(** * The state loaded from the URL, and [reset] *)
(* ================================================================== *)

Module UrlFacts.
Import GLSL State Examples Store UrlState.

(** A write to one kind of nested object leaves the others alone. *)
Lemma views_when_render {A : Type} (v : option A)
    (f : RenderSettings -> RenderSettings) (o : Object) (h : Heap) :
  views (when_present v (write_render f o) h) = views h.
Proof. now destruct v. Qed.

Lemma views_when_palette {A : Type} (v : option A)
    (f : Palette.PaletteConfig -> Palette.PaletteConfig) (o : Object)
    (h : Heap) :
  views (when_present v (write_palette f o) h) = views h.
Proof. now destruct v. Qed.

Lemma views_when_juliaC {A : Type} (v : option A) (f : vec2 -> vec2)
    (o : Object) (h : Heap) :
  views (when_present v (write_juliaC f o) h) = views h.
Proof. now destruct v. Qed.

Lemma views_given_render {A : Type} (v : option A)
    (f : A -> RenderSettings -> RenderSettings) (o : Object) (h : Heap) :
  views (when_given v (fun x => write_render (f x) o) h) = views h.
Proof. now destruct v. Qed.

Lemma views_given_palette {A : Type} (v : option A)
    (f : A -> Palette.PaletteConfig -> Palette.PaletteConfig) (o : Object)
    (h : Heap) :
  views (when_given v (fun x => write_palette (f x) o) h) = views h.
Proof. now destruct v. Qed.

Lemma renders_when_palette {A : Type} (v : option A)
    (f : Palette.PaletteConfig -> Palette.PaletteConfig) (o : Object)
    (h : Heap) :
  renders (when_present v (write_palette f o) h) = renders h.
Proof. now destruct v. Qed.

Lemma renders_when_juliaC {A : Type} (v : option A) (f : vec2 -> vec2)
    (o : Object) (h : Heap) :
  renders (when_present v (write_juliaC f o) h) = renders h.
Proof. now destruct v. Qed.

Lemma renders_given_palette {A : Type} (v : option A)
    (f : A -> Palette.PaletteConfig -> Palette.PaletteConfig) (o : Object)
    (h : Heap) :
  renders (when_given v (fun x => write_palette (f x) o) h) = renders h.
Proof. now destruct v. Qed.

Lemma renders_when_view {A : Type} (v : option A) (f : View -> View)
    (o : Object) (h : Heap) :
  renders (when_present v (write_view f o) h) = renders h.
Proof. now destruct v. Qed.

(** A write to the render settings that keeps the iteration count. *)
Lemma iterations_when_render {A : Type} (v : option A)
    (f : RenderSettings -> RenderSettings) (o : Object) (h : Heap) :
  (forall r, iterations (f r) = iterations r) ->
  iterations (renders (when_present v (write_render f o) h) (render_ref o))
  = iterations (renders h (render_ref o)).
Proof.
  intros Hf. destruct v; [|reflexivity].
  cbn [when_present write_render renders]. unfold update.
  rewrite Nat.eqb_refl. apply Hf.
Qed.

Lemma iterations_given_render {A : Type} (v : option A)
    (f : A -> RenderSettings -> RenderSettings) (o : Object) (h : Heap) :
  (forall x r, iterations (f x r) = iterations r) ->
  iterations (renders (when_given v (fun x => write_render (f x) o) h)
                      (render_ref o))
  = iterations (renders h (render_ref o)).
Proof.
  intros Hf. destruct v; [|reflexivity].
  cbn [when_given write_render renders]. unfold update.
  rewrite Nat.eqb_refl. apply Hf.
Qed.

(** The view and the iteration count that the constant [defaults] holds
    once the URL has been merged in. *)
Lemma loaded_view (q : Query) :
  views (loaded_heap q) 0%nat
  = {| cx := num (q_cx q) (- 3 / 4); cy := num (q_cy q) 0;
       scale := num (q_scale q) 3 |}.
Proof.
  unfold loaded_heap, mergeInto. cbv zeta. cbn [snd].
  rewrite !views_when_juliaC, views_given_palette, views_when_palette,
    views_given_palette, views_given_render, !views_when_render.
  destruct (q_cx q) as [[x|]|], (q_cy q) as [[y|]|],
           (q_scale q) as [[w|]|]; reflexivity.
Qed.

Lemma loaded_iterations (q : Query) :
  iterations (renders (loaded_heap q) 0%nat)
  = Int_part (num (q_iter q) 200).
Proof.
  unfold loaded_heap, mergeInto. cbv zeta. cbn [snd].
  rewrite !renders_when_juliaC, renders_given_palette,
    renders_when_palette, renders_given_palette.
  change 0%nat with (render_ref defaults) at 1.
  match goal with
  | |- context [write_render _ ?o] =>
    change (render_ref defaults) with (render_ref o)
  end.
  rewrite iterations_given_render by reflexivity.
  rewrite !iterations_when_render by reflexivity.
  assert (H200 : Int_part 200 = 200%Z)
    by (symmetry; apply Int_part_spec; lra).
  destruct (q_iter q) as [[i|]|];
    cbn [when_present renders write_render update Nat.eqb render_ref
         iterations num];
    rewrite !renders_when_view;
    cbn [renders first_heap iterations default_state render];
    try reflexivity; now rewrite ?H200.
Qed.

Lemma reset_state (q : Query) (saved : option (list Bookmark))
    (s : Store) :
  current (reset (loaded_heap q) s) = current (create q saved) /\
  bookmarks (reset (loaded_heap q) s) = [] /\
  history (reset (loaded_heap q) s) = [] /\
  redo (reset (loaded_heap q) s) = [].
Proof. repeat split; reflexivity. Qed.

(** X30.  [mergeInto] writes the parameters of the URL into the nested
    objects of the constant [defaults] itself, because [{ ...defaults }]
    copies references.  So [reset], which reads [defaults], brings the
    store back to the state that was loaded from the URL, whatever
    happened since: its centre is the [cx] of the URL when that is a
    finite number, not the -0.75 of the literal.  The iteration count of
    the URL is rounded down but not clamped.  With no key in the URL the
    loaded state is the literal; and [reset] empties both stacks and the
    bookmark list of the store. *)
Theorem reset_returns_to_url_state (q : Query)
    (saved : option (list Bookmark)) (s : Store) :
  current (reset (loaded_heap q) s) = current (create q saved) /\
  (forall x, q_cx q = Some (Finite x) ->
     cx (view (current (reset (loaded_heap q) s))) = x) /\
  (forall n, q_iter q = Some (Finite n) ->
     iterations (render (current (create q saved))) = Int_part n) /\
  current (create empty_query saved) = default_state /\
  bookmarks (reset (loaded_heap q) s) = [] /\
  history (reset (loaded_heap q) s) = [] /\
  redo (reset (loaded_heap q) s) = [].
Proof.
  destruct (reset_state q saved s) as (Hc & Hb & Hh & Hr).
  split; [exact Hc|]. split; [|split; [|split; [reflexivity|auto]]].
  - intros x Hx. unfold reset. cbn [current read view view_ref defaults].
    rewrite loaded_view, Hx. reflexivity.
  - intros n Hn. rewrite <- Hc. unfold reset.
    cbn [current read render render_ref defaults].
    rewrite loaded_iterations, Hn. reflexivity.
Qed.

End UrlFacts.

(* ================================================================== *)
(** * A budget beyond the bound of the loop *)
(* ================================================================== *)

Module LoopBoundFacts.
Import GLSL Shader Orbit State Renderer Inputs Examples.
Import GLSLFacts LoopFacts EvaluatorFacts PixelFacts MapperFacts.

(** The closed disc of radius 1/2 is mapped into itself by [z^2 + c]
    whenever [|c| <= 1/4]. *)
Lemma disc_step (c z : vec2) :
  dot c c <= 1 / 16 -> dot z z <= 1 / 4 ->
  dot (step 0 2 c z) (step 0 2 c z) <= 1 / 4.
Proof.
  intros Hc Hz. unfold step. cbn [Z.eqb].
  rewrite (pow_two _ (length_nonneg _)), length_sqr.
  pose proof (sin2_cos2 (atan2 (snd z) (fst z) * 2)) as Hcs.
  unfold Rsqr in Hcs.
  set (C := cos (atan2 (snd z) (fst z) * 2)) in *.
  set (S := sin (atan2 (snd z) (fst z) * 2)) in *.
  clearbody C S.
  assert (Hd : 0 <= dot z z).
  { unfold dot. pose proof (Rle_0_sqr (fst z)). pose proof (Rle_0_sqr (snd z)).
    unfold Rsqr in *. lra. }
  set (d := dot z z) in *. clearbody d.
  destruct c as [a b]. unfold dot in *. cbn [fst snd] in *.
  assert (Hm : a * C + b * S <= 1 / 4).
  { assert (Hsq : (a * C + b * S) * (a * C + b * S) <= 1 / 16).
    { replace ((a * C + b * S) * (a * C + b * S))
        with ((a * a + b * b) * (S * S + C * C)
              - (a * S - b * C) * (a * S - b * C)) by ring.
      rewrite Hcs. pose proof (Rle_0_sqr (a * S - b * C)) as Hp.
      unfold Rsqr in Hp. lra. }
    nra. }
  replace ((d * C + a) * (d * C + a) + (d * S + b) * (d * S + b))
    with (d * d * (S * S + C * C) + 2 * (d * (a * C + b * S))
          + (a * a + b * b)) by ring.
  rewrite Hcs. nra.
Qed.

Lemma disc_orbit (u : Uniforms) (c0 : vec2) (n : nat) :
  u_type u = 0%Z -> eff_power u = 2 -> dot c0 c0 <= 1 / 16 ->
  dot (orbit u c0 n) (orbit u c0 n) <= 1 / 4.
Proof.
  intros Ht Hp Hc. unfold orbit, init_c, init_z. rewrite Ht, Hp.
  cbn [Z.eqb]. induction n as [|n IH].
  - unfold dot. cbn [Nat.iter nat_rect fst snd]. lra.
  - rewrite Nat.iter_succ. now apply disc_step.
Qed.

(** A Mandelbrot point of modulus at most 1/4 never passes the bailout
    test. *)
Lemma disc_never_escapes (u : Uniforms) (c0 : vec2) (k : nat) :
  u_type u = 0%Z -> eff_power u = 2 -> dot c0 c0 <= 1 / 16 ->
  ~ escapes_at u c0 k.
Proof.
  intros Ht Hp Hc. unfold escapes_at.
  pose proof (disc_orbit u c0 (S k) Ht Hp Hc) as Hd.
  pose proof (max_ge_left 2 (u_bailout u)) as Hb. fold (eff_bailout u) in Hb.
  nra.
Qed.

(** The state the application starts with under [?cx=0&iter=n]. *)
Lemma loaded_state (n : R) (solid : bool) :
  Store.current
    (Store.setInteriorSolid solid (UrlState.create (query_centre n) None))
  = {| view := {| cx := 0; cy := 0; scale := 3 |};
       juliaC := (- 8 / 10, 156 / 1000);
       palette := default_palette;
       adjust := default_adjust;
       mapping := {| scaleMode := scale_linear |};
       render := {| iterations := Int_part n; power := 2; bailout := 4;
                    fractal := mandelbrot; interiorSolid := solid |} |}.
Proof. reflexivity. Qed.

Lemma loaded_maxIter (r : GLRenderer) (z : Z) (solid : bool) :
  u_maxIter (loaded_frame r (IZR z) solid) = z.
Proof.
  unfold loaded_frame. rewrite loaded_state.
  cbn [Frame.frame_uniforms u_maxIter iterations render].
  apply FrameFacts.Int_part_IZR.
Qed.

Lemma loaded_eff_power (r : GLRenderer) (n : R) (solid : bool) :
  eff_power (loaded_frame r n solid) = 2.
Proof.
  unfold eff_power, loaded_frame. rewrite loaded_state.
  cbn [Frame.frame_uniforms u_power power render]. apply max_left. lra.
Qed.

(** The fragment next to the centre of the frame is the point
    [(3/1600, 3/1600)]. *)
Lemma loaded_pixel (r : GLRenderer) (n : R) (solid : bool) :
  pixelToComplex (loaded_frame r n solid) centre_fragment = centre_point.
Proof.
  unfold pixelToComplex, loaded_frame, centre_fragment, centre_point.
  rewrite loaded_state.
  cbn [Frame.frame_uniforms u_center u_scale u_viewSize u_tileOffset
       view cx cy scale fst snd].
  replace (INR 800) with 800 by (rewrite INR_IZR_INZ; reflexivity).
  replace (INR 600) with 600 by (rewrite INR_IZR_INZ; reflexivity).
  rewrite (max_right 1 600) by lra. f_equal; field.
Qed.

Lemma loaded_never_escapes (r : GLRenderer) (n : R) (solid : bool)
    (k : nat) :
  ~ escapes_at (loaded_frame r n solid) centre_point k.
Proof.
  apply disc_never_escapes.
  - reflexivity.
  - apply loaded_eff_power.
  - unfold centre_point, dot. cbn [fst snd]. lra.
Qed.

(** The run of that point: the loop is left by its own bound when the
    budget lies beyond it, and by the budget otherwise. *)
Lemma loaded_run_200000 (r : GLRenderer) (solid : bool) :
  run (loaded_frame r 200000 solid) centre_point
  = (loop_cap, orbit (loaded_frame r 200000 solid) centre_point loop_cap).
Proof.
  apply run_cap.
  - rewrite loaded_maxIter. lia.
  - intros j _. apply loaded_never_escapes.
Qed.

Lemma loaded_run_100000 (r : GLRenderer) (solid : bool) :
  run (loaded_frame r 100000 solid) centre_point
  = (Z.to_nat (u_maxIter (loaded_frame r 100000 solid)),
     orbit (loaded_frame r 100000 solid) centre_point
           (Z.to_nat (u_maxIter (loaded_frame r 100000 solid)))).
Proof.
  apply run_budget.
  - rewrite loaded_maxIter. lia.
  - intros j _. apply loaded_never_escapes.
Qed.

(** C2, at its failing input.  The application is opened with
    [?cx=0&iter=200000] and "Solid interior" is switched off; the frame
    is 800 x 600 pixels.  The fragment next to the centre stands for the
    point [(3/1600, 3/1600)], whose orbit never passes the bailout test.
    The loop ends by its own bound at [i = 100000], below the budget, so
    the test of line 96 takes the branch of the escaped points: the
    evaluator reports an escape in iteration 100000, and [t] is the
    smooth count [100000 + 1 - nu] of line 107, not the budget, whatever
    the value of [nu] is.  Under a budget of 100000 the same point is
    classified as interior and [t] is the budget. *)
Theorem loop_bound_reported_as_escape (r : GLRenderer) :
  u_maxIter (loaded_frame r 200000 false) = 200000%Z /\
  u_interiorSolid (loaded_frame r 200000 false) <> 1%Z /\
  pixelToComplex (loaded_frame r 200000 false) centre_fragment
  = centre_point /\
  (forall k, ~ escapes_at (loaded_frame r 200000 false) centre_point k) /\
  escaped (evaluate (loaded_frame r 200000 false) centre_point) = true /\
  Z.of_nat (iterationCount
              (evaluate (loaded_frame r 200000 false) centre_point))
  = 100000%Z /\
  (exists nu,
     escape_time (loaded_frame r 200000 false) centre_point
     = Some (100000 + 1 - nu, nu)) /\
  escape_time (loaded_frame r 200000 false) centre_point
  <> Some (200000, 0) /\
  escaped (evaluate (loaded_frame r 100000 false) centre_point) = false /\
  Z.of_nat (iterationCount
              (evaluate (loaded_frame r 100000 false) centre_point))
  = 100000%Z /\
  escape_time (loaded_frame r 100000 false) centre_point
  = Some (100000, 0).
Proof.
  pose proof (loaded_maxIter r 200000 false) as Hm.
  pose proof (loaded_maxIter r 100000 false) as Hm'.
  assert (Ht : exists nu,
             escape_time (loaded_frame r 200000 false) centre_point
             = Some (100000 + 1 - nu, nu)).
  { unfold escape_time. rewrite loaded_run_200000, Hm, loop_cap_value.
    assert (Hlt : (200000 <=? 100000)%Z = false) by reflexivity.
    rewrite Hlt, INR_loop_cap. eexists. reflexivity. }
  split; [exact Hm|]. split; [discriminate|].
  split; [apply loaded_pixel|].
  split; [intros k; apply loaded_never_escapes|].
  unfold evaluate at 1 2. rewrite loaded_run_200000, Hm.
  cbn [escaped iterationCount]. rewrite loop_cap_value.
  split; [reflexivity|]. split; [reflexivity|]. split; [exact Ht|].
  split.
  { destruct Ht as [nu ->]. intros H. injection H as H1 H2. lra. }
  unfold evaluate, escape_time. rewrite loaded_run_100000, Hm'.
  cbn [escaped iterationCount].
  assert (Hle : (100000 <=? Z.of_nat (Z.to_nat 100000))%Z = true)
    by (apply Z.leb_le; lia).
  rewrite Hle. cbn [negb]. split; [reflexivity|]. split; [lia|].
  assert (Hs : (u_interiorSolid (loaded_frame r 100000 false) =? 1)%Z = false)
    by reflexivity.
  rewrite Hs, INR_IZR_INZ, Z2Nat.id by lia. reflexivity.
Qed.

(** C6, at its failing input.  The application is opened with
    [?cx=0&iter=200000], "Solid interior" is on (its default); the frame
    is 800 x 600 pixels.  The pixel next to the centre does not escape,
    within the budget or ever, and yet it is not given the fixed interior
    colour by the early return of lines 97-99: the loop ends by its own
    bound at [i = 100000], line 96 takes the branch of the escaped
    points, and the colour of the pixel comes out of the scale transform,
    the palette lookup, the edge glow and the adjustment.  Under a budget
    of 100000 the same pixel gets the interior colour. *)
Theorem interior_pixel_misses_early_return (r : GLRenderer) :
  u_maxIter (loaded_frame r 200000 true) = 200000%Z /\
  u_interiorSolid (loaded_frame r 200000 true) = 1%Z /\
  pixelToComplex (loaded_frame r 200000 true) centre_fragment
  = centre_point /\
  (forall k, ~ escapes_at (loaded_frame r 200000 true) centre_point k) /\
  (exists t nu,
     escape_time (loaded_frame r 200000 true) centre_point = Some (t, nu) /\
     main (loaded_frame r 200000 true) centre_fragment
     = (let '(cr, cg, cb) :=
          adjust_color (loaded_frame r 200000 true)
            (edge_glow (loaded_frame r 200000 true) nu
               (palette_color (loaded_frame r 200000 true) t))
        in (cr, cg, cb, 1))) /\
  main (loaded_frame r 100000 true) centre_fragment = interior_color.
Proof.
  pose proof (loaded_maxIter r 200000 true) as Hm.
  split; [exact Hm|]. split; [reflexivity|].
  split; [apply loaded_pixel|].
  split; [intros k; apply loaded_never_escapes|].
  split.
  - assert (Ht : exists t nu,
               escape_time (loaded_frame r 200000 true) centre_point
               = Some (t, nu)).
    { unfold escape_time. rewrite loaded_run_200000, Hm, loop_cap_value.
      assert (Hlt : (200000 <=? 100000)%Z = false) by reflexivity.
      rewrite Hlt. eexists. eexists. reflexivity. }
    destruct Ht as (t & nu & Ht). exists t, nu. split; [exact Ht|].
    apply main_shaded. now rewrite loaded_pixel.
  - apply main_interior.
    + rewrite loaded_maxIter. lia.
    + reflexivity.
    + rewrite loaded_pixel. intros j _. apply loaded_never_escapes.
Qed.

End LoopBoundFacts.
